(** * apple-mcp: the contact cache and the cache-aware contact queries

    A shallow embedding of [utils/ContactCache.ts] (the class [ContactCache]
    and the process-wide instance), of [utils/contacts.ts] (the exposed
    queries and the phone lookup with its write-through) and of
    [utils/ValidationUtils.ts], followed by the properties proved of them.

    Modelling conventions.
    - A JavaScript [Map] iterates in insertion order, and the eviction
      tie-break depends on it: a [Map] is an association list in insertion
      order with unique keys.
    - A plain object used as a dictionary ([ContactsData]) is the list of its
      own properties in [Object.entries] order: canonical array-index keys in
      ascending numeric order first, then the other keys in insertion order.
      Names that collide with members of [Object.prototype] are not
      modelled.
    - JavaScript numbers are exact here: counters and millisecond time stamps
      are in [Z], megabyte figures and the hit rate are in [Q].  Rounding of
      IEEE doubles is outside the model.
    - [Date.now()] is an effect: every call consumes the next reading of a
      clock oracle, so two calls inside one method may differ, and nothing
      is assumed of the readings unless a statement says so.
    - A loop that may not end ([cleanup]) takes a bound on its iterations
      and returns [None] when the bound is hit.
    - Strings are sequences of code units below 256; [String.length] is
      [.length].
    - The Contacts application is a list of records, each readable or not,
      behind two bridges (AppleScript and JXA) that either work or throw.
      An [async] function runs to completion: no other call interleaves at
      an [await].
    - [console.log] / [console.error] output is not modelled. *)

From Stdlib Require Import ZArith QArith List String Ascii Bool Lia Arith.
Import ListNotations.

Local Open Scope string_scope.
Local Open Scope Z_scope.

(** ** A small state monad *)

Definition State (S A : Type) : Type := S -> A * S.

Definition ret {S A : Type} (a : A) : State S A := fun s => (a, s).

Definition bind {S A B : Type} (m : State S A) (k : A -> State S B) : State S B :=
  fun s => let (a, s') := m s in k a s'.

Definition gets {S A : Type} (f : S -> A) : State S A := fun s => (f s, s).

Definition modify {S : Type} (f : S -> S) : State S unit := fun s => (tt, f s).

Definition when {S : Type} (b : bool) (m : State S unit) : State S unit :=
  if b then m else ret tt.

Declare Scope monad_scope.
Delimit Scope monad_scope with monad.
Notation "x <- m ;; k" := (bind m (fun x => k))
  (at level 61, m at next level, right associativity) : monad_scope.
Notation "m ;; k" := (bind m (fun _ => k))
  (at level 61, right associativity) : monad_scope.
Local Open Scope monad_scope.

(** ** JavaScript containers *)

Module JsMap.

(** [Map<string, V>]: entries in insertion order. *)
Definition t (V : Type) : Type := list (string * V).

Definition empty {V : Type} : t V := [].

Fixpoint get {V : Type} (k : string) (m : t V) : option V :=
  match m with
  | [] => None
  | (k', v) :: r => if String.eqb k k' then Some v else get k r
  end.

(** [Map.prototype.set]: an existing key keeps its place, a new key goes
    to the end. *)
Fixpoint set {V : Type} (k : string) (v : V) (m : t V) : t V :=
  match m with
  | [] => [(k, v)]
  | (k', v') :: r =>
      if String.eqb k k' then (k, v) :: r else (k', v') :: set k v r
  end.

Fixpoint delete {V : Type} (k : string) (m : t V) : t V :=
  match m with
  | [] => []
  | (k', v') :: r =>
      if String.eqb k k' then r else (k', v') :: delete k r
  end.

Definition size {V : Type} (m : t V) : Z := Z.of_nat (List.length m).

Definition keys {V : Type} (m : t V) : list string := map fst m.

(** The representation invariant of a [Map]: no key occurs twice. *)
Definition wf {V : Type} (m : t V) : Prop := NoDup (keys m).

End JsMap.

Module JsObject.

(** A dictionary object [{ [name: string]: V }] as its property list in
    [Object.entries] order. *)
Definition t (V : Type) : Type := list (string * V).

Definition is_digit (c : ascii) : bool :=
  ((48 <=? nat_of_ascii c) && (nat_of_ascii c <=? 57))%nat.

Fixpoint all_digits (s : string) : bool :=
  match s with
  | EmptyString => true
  | String c r => is_digit c && all_digits r
  end.

Fixpoint decimal (acc : N) (s : string) : N :=
  match s with
  | EmptyString => acc
  | String c r => decimal (acc * 10 + (N_of_ascii c - 48))%N r
  end.

(** A property name is an array index when it is the canonical decimal
    numeral of an integer below 2^32 - 1; such properties are enumerated
    first, in ascending numeric order. *)
Definition array_index (s : string) : option N :=
  match s with
  | EmptyString => None
  | String c r =>
      if all_digits s
         && (negb (Ascii.eqb c "0"%char) || String.eqb r EmptyString)
         && (N.of_nat (String.length s) <=? 10)%N
         && (decimal 0 s <? 4294967295)%N
      then Some (decimal 0 s)
      else None
  end.

Fixpoint get {V : Type} (k : string) (o : t V) : option V :=
  match o with
  | [] => None
  | (k', v) :: r => if String.eqb k k' then Some v else get k r
  end.

Definition has {V : Type} (k : string) (o : t V) : bool :=
  match get k o with Some _ => true | None => false end.

Fixpoint replace {V : Type} (k : string) (v : V) (o : t V) : t V :=
  match o with
  | [] => []
  | (k', v') :: r =>
      if String.eqb k k' then (k, v) :: r else (k', v') :: replace k v r
  end.

(** Place of a new array-index property: before the first property that
    is not an array index or has a larger index. *)
Fixpoint insert_index {V : Type} (n : N) (k : string) (v : V) (o : t V) : t V :=
  match o with
  | [] => [(k, v)]
  | (k', v') :: r =>
      match array_index k' with
      | Some n' =>
          if (n <? n')%N then (k, v) :: o else (k', v') :: insert_index n k v r
      | None => (k, v) :: o
      end
  end.

(** [o[k] = v], for a name [k] other than [__proto__]: that assignment
    replaces the prototype and creates no property, and the statements that
    depend on it leave the name out. *)
Definition set {V : Type} (k : string) (v : V) (o : t V) : t V :=
  if has k o then replace k v o
  else match array_index k with
       | Some n => insert_index n k v o
       | None => (o ++ [(k, v)])%list
       end.

End JsObject.

(** ** ContactCache.ts: the data model *)

Definition ContactsData : Type := JsObject.t (list string).

Record CacheEntry : Type := mkEntry {
  data : ContactsData;
  timestamp : Z;
  accessCount : Z;
  lastAccessed : Z
}.

Record CacheConfig : Type := mkConfig {
  enabled : bool;
  ttlMs : Z;
  maxMemoryMB : Q;
  maxEntries : Z;
  cleanupIntervalMs : Z
}.

(** [Partial<CacheConfig>]: every field may be left out. *)
Record PartialConfig : Type := mkPartial {
  p_enabled : option bool;
  p_ttlMs : option Z;
  p_maxMemoryMB : option Q;
  p_maxEntries : option Z;
  p_cleanupIntervalMs : option Z
}.

Record CacheStats : Type := mkStats {
  hits : Z;
  misses : Z;
  evictions : Z;
  totalQueries : Z;
  currentEntries : Z;
  estimatedMemoryMB : Q;
  hitRate : Q
}.

Definition DEFAULT_CONFIG : CacheConfig :=
  {| enabled := true;
     ttlMs := 10 * 60 * 1000;
     maxMemoryMB := 50%Q;
     maxEntries := 10;
     cleanupIntervalMs := 60 * 1000 |}.

Definition noPartial : PartialConfig :=
  {| p_enabled := None; p_ttlMs := None; p_maxMemoryMB := None;
     p_maxEntries := None; p_cleanupIntervalMs := None |}.

Definition orElse {A : Type} (o : option A) (d : A) : A :=
  match o with Some a => a | None => d end.

(** [{ ...base, ...over }] *)
Definition mergeConfig (base : CacheConfig) (over : PartialConfig) : CacheConfig :=
  {| enabled := orElse (p_enabled over) (enabled base);
     ttlMs := orElse (p_ttlMs over) (ttlMs base);
     maxMemoryMB := orElse (p_maxMemoryMB over) (maxMemoryMB base);
     maxEntries := orElse (p_maxEntries over) (maxEntries base);
     cleanupIntervalMs := orElse (p_cleanupIntervalMs over) (cleanupIntervalMs base) |}.

(** The fields of a [ContactCache] instance.  [cleanupTimer] holds the period
    the interval timer was armed with, or [None] for [null]. *)
Record ContactCache : Type := mkCache {
  cache : JsMap.t CacheEntry;
  config : CacheConfig;
  stats : CacheStats;
  cleanupTimer : option Z
}.

(** A cache object together with the clock its methods read. *)
Record Env : Type := mkEnv {
  this : ContactCache;
  readings : nat -> Z;
  ticks : nat
}.

Definition zeroStats : CacheStats :=
  {| hits := 0; misses := 0; evictions := 0; totalQueries := 0;
     currentEntries := 0; estimatedMemoryMB := 0%Q; hitRate := 0%Q |}.

(** ** ContactCache.ts: the class *)

(** Updates of single fields. *)

Definition withCache (f : JsMap.t CacheEntry -> JsMap.t CacheEntry) (c : ContactCache)
  : ContactCache :=
  {| cache := f (cache c); config := config c; stats := stats c;
     cleanupTimer := cleanupTimer c |}.

Definition withConfig (cfg : CacheConfig) (c : ContactCache) : ContactCache :=
  {| cache := cache c; config := cfg; stats := stats c;
     cleanupTimer := cleanupTimer c |}.

Definition withStats (f : CacheStats -> CacheStats) (c : ContactCache) : ContactCache :=
  {| cache := cache c; config := config c; stats := f (stats c);
     cleanupTimer := cleanupTimer c |}.

Definition withTimer (t : option Z) (c : ContactCache) : ContactCache :=
  {| cache := cache c; config := config c; stats := stats c; cleanupTimer := t |}.

Definition onThis (f : ContactCache -> ContactCache) (e : Env) : Env :=
  {| this := f (this e); readings := readings e; ticks := ticks e |}.

Definition incHits (s : CacheStats) : CacheStats :=
  {| hits := hits s + 1; misses := misses s; evictions := evictions s;
     totalQueries := totalQueries s; currentEntries := currentEntries s;
     estimatedMemoryMB := estimatedMemoryMB s; hitRate := hitRate s |}.

Definition incMisses (s : CacheStats) : CacheStats :=
  {| hits := hits s; misses := misses s + 1; evictions := evictions s;
     totalQueries := totalQueries s; currentEntries := currentEntries s;
     estimatedMemoryMB := estimatedMemoryMB s; hitRate := hitRate s |}.

Definition incEvictions (s : CacheStats) : CacheStats :=
  {| hits := hits s; misses := misses s; evictions := evictions s + 1;
     totalQueries := totalQueries s; currentEntries := currentEntries s;
     estimatedMemoryMB := estimatedMemoryMB s; hitRate := hitRate s |}.

Definition incTotalQueries (s : CacheStats) : CacheStats :=
  {| hits := hits s; misses := misses s; evictions := evictions s;
     totalQueries := totalQueries s + 1; currentEntries := currentEntries s;
     estimatedMemoryMB := estimatedMemoryMB s; hitRate := hitRate s |}.

(** [Date.now()]: the next reading of the clock. *)
Definition Date_now : State Env Z :=
  fun e => (readings e (ticks e),
            {| this := this e; readings := readings e; ticks := S (ticks e) |}).

Definition Qgtb (x y : Q) : bool := negb (Qle_bool x y).

Definition strlen (s : string) : Z := Z.of_nat (String.length s).

(** [phones.reduce((sum, phone) => sum + phone.length * 2, 0)] *)
Definition phonesSize (phones : list string) : Z :=
  fold_left (fun sum phone => sum + strlen phone * 2) phones 0.

(** The loop over [Object.entries(d)] shared by [estimateMemoryUsage] and
    [shouldEvictForMemory]: adds the size of every contact to [acc]. *)
Definition addDataSize (acc : Z) (d : ContactsData) : Z :=
  fold_left (fun size np => size + strlen (fst np) * 2 + phonesSize (snd np)) d acc.

Definition totalSize (m : JsMap.t CacheEntry) : Z :=
  fold_left (fun size ke => addDataSize size (data (snd ke)) + 200) m 0.

Definition MB : Q := inject_Z (1024 * 1024).

Definition estimateMemoryUsage (c : ContactCache) : Q :=
  (inject_Z (totalSize (cache c)) / MB)%Q.

Definition updateStats (c : ContactCache) : ContactCache :=
  withStats (fun s =>
    {| hits := hits s; misses := misses s; evictions := evictions s;
       totalQueries := totalQueries s;
       currentEntries := JsMap.size (cache c);
       estimatedMemoryMB := estimateMemoryUsage c;
       hitRate := if totalQueries s >? 0
                  then ((inject_Z (hits s) / inject_Z (totalQueries s)) * 100)%Q
                  else 0%Q |}) c.

Definition shouldEvictForMemory (newData : ContactsData) (c : ContactCache) : bool :=
  let currentMemory := estimateMemoryUsage c in
  let newDataSize := (inject_Z (addDataSize 0 newData) / MB)%Q in
  Qgtb (currentMemory + newDataSize)%Q (maxMemoryMB (config c)).

Definition isOverMemoryLimit (c : ContactCache) : bool :=
  Qgtb (estimateMemoryUsage c) (maxMemoryMB (config c)).

(** The scan of [evictLeastRecentlyUsed]: one step of the [for] loop on the
    pair [(lruKey, oldestAccess)]. *)
Definition lruStep (acc : option string * Z) (ke : string * CacheEntry)
  : option string * Z :=
  if lastAccessed (snd ke) <? snd acc
  then (Some (fst ke), lastAccessed (snd ke))
  else acc.

Definition lruScan (oldestAccess : Z) (m : JsMap.t CacheEntry) : option string * Z :=
  fold_left lruStep m (None, oldestAccess).

(** [if (lruKey)]: [null] and the empty string are both falsy. *)
Definition truthyKey (k : option string) : option string :=
  match k with
  | Some EmptyString => None
  | other => other
  end.

Definition evictLeastRecentlyUsed : State Env unit :=
  c <- gets this ;;
  if JsMap.size (cache c) =? 0 then ret tt
  else
    oldestAccess <- Date_now ;;
    match truthyKey (fst (lruScan oldestAccess (cache c))) with
    | Some lruKey =>
        modify (onThis (withCache (JsMap.delete lruKey))) ;;
        modify (onThis (withStats incEvictions))
    | None => ret tt
    end.

Definition touch (now : Z) (entry : CacheEntry) : CacheEntry :=
  {| data := data entry; timestamp := timestamp entry;
     accessCount := accessCount entry + 1; lastAccessed := now |}.

Definition get (key : string) : State Env (option ContactsData) :=
  modify (onThis (withStats incTotalQueries)) ;;
  c <- gets this ;;
  if negb (enabled (config c)) then
    modify (onThis (withStats incMisses)) ;;
    ret None
  else
    match JsMap.get key (cache c) with
    | None =>
        modify (onThis (withStats incMisses)) ;;
        ret None
    | Some entry =>
        now <- Date_now ;;
        let age := now - timestamp entry in
        if age >? ttlMs (config c) then
          modify (onThis (withCache (JsMap.delete key))) ;;
          modify (onThis (withStats incMisses)) ;;
          modify (onThis (withStats incEvictions)) ;;
          modify (onThis updateStats) ;;
          ret None
        else
          modify (onThis (withCache (JsMap.set key (touch now entry)))) ;;
          modify (onThis (withStats incHits)) ;;
          modify (onThis updateStats) ;;
          ret (Some (data entry))
    end.

Definition set (newData : ContactsData) (key : string) : State Env unit :=
  c <- gets this ;;
  if negb (enabled (config c)) then ret tt
  else
    now <- Date_now ;;
    let entry := {| data := newData; timestamp := now;
                    accessCount := 1; lastAccessed := now |} in
    when (shouldEvictForMemory newData c) evictLeastRecentlyUsed ;;
    c1 <- gets this ;;
    when (JsMap.size (cache c1) >=? maxEntries (config c1)) evictLeastRecentlyUsed ;;
    modify (onThis (withCache (JsMap.set key entry))) ;;
    modify (onThis updateStats).

(** [invalidate(key?)]: [if (key)] is false for a missing key and for the
    empty string. *)
Definition invalidate (key : option string) : State Env unit :=
  match truthyKey key with
  | Some k => modify (onThis (withCache (JsMap.delete k)))
  | None => modify (onThis (withCache (fun _ => JsMap.empty)))
  end ;;
  modify (onThis updateStats).

Definition getStats : State Env CacheStats := gets (fun e => stats (this e)).

Definition getConfig : State Env CacheConfig := gets (fun e => config (this e)).

Definition startCleanupTimer (c : ContactCache) : ContactCache :=
  withTimer (Some (cleanupIntervalMs (config c))) c.

Definition stopCleanupTimer (c : ContactCache) : ContactCache :=
  withTimer None c.

Definition updateConfig (newConfig : PartialConfig) : State Env unit :=
  c <- gets this ;;
  let oldEnabled := enabled (config c) in
  modify (onThis (withConfig (mergeConfig (config c) newConfig))) ;;
  c' <- gets this ;;
  if negb oldEnabled && enabled (config c') then
    modify (onThis startCleanupTimer)
  else if oldEnabled && negb (enabled (config c')) then
    modify (onThis stopCleanupTimer) ;;
    modify (onThis (withCache (fun _ => JsMap.empty)))
  else ret tt.

(** The first loop of [cleanup]: visit every entry present when the loop
    starts and delete the expired ones. *)
Definition expireStep (now : Z) (c : ContactCache) (ke : string * CacheEntry)
  : ContactCache :=
  let age := now - timestamp (snd ke) in
  if age >? ttlMs (config c)
  then withStats incEvictions (withCache (JsMap.delete (fst ke)) c)
  else c.

Definition expireAll (now : Z) (c : ContactCache) : ContactCache :=
  fold_left (expireStep now) (cache c) c.

(** [while (this.isOverMemoryLimit()) this.evictLeastRecentlyUsed();]
    with a bound on the number of iterations; [None] when the bound is hit
    with the condition still true. *)
Fixpoint enforceMemoryLimit (fuel : nat) (e : Env) : option Env :=
  if isOverMemoryLimit (this e) then
    match fuel with
    | O => None
    | S fuel' => enforceMemoryLimit fuel' (snd (evictLeastRecentlyUsed e))
    end
  else Some e.

Definition cleanup (fuel : nat) (e : Env) : option Env :=
  if negb (enabled (config (this e))) then Some e
  else
    let (now, e1) := Date_now e in
    let e2 := onThis (expireAll now) e1 in
    match enforceMemoryLimit fuel e2 with
    | Some e3 => Some (onThis updateStats e3)
    | None => None
    end.

Definition destroy : State Env unit :=
  modify (onThis stopCleanupTimer) ;;
  modify (onThis (withCache (fun _ => JsMap.empty))) ;;
  modify (onThis updateStats).

(** [new ContactCache(config)] *)
Definition newContactCache (cfg : PartialConfig) : ContactCache :=
  let c := {| cache := JsMap.empty; config := mergeConfig DEFAULT_CONFIG cfg;
              stats := zeroStats; cleanupTimer := None |} in
  if enabled (config c) then startCleanupTimer c else c.

(** ** ValidationUtils.ts *)

(** The outcome of a call that may throw [new Error(msg)]. *)
Inductive Outcome (A : Type) : Type :=
| Returned (a : A)
| Thrown (msg : string).
Arguments Returned {A} a.
Arguments Thrown {A} msg.

(** White space for [String.prototype.trim] and the class [\s], among the
    code units below 256. *)
Definition isSpace (c : ascii) : bool :=
  let n := nat_of_ascii c in
  ((9 <=? n) && (n <=? 13) || (n =? 32) || (n =? 160))%nat.

Fixpoint trimStart (s : string) : string :=
  match s with
  | EmptyString => EmptyString
  | String c r => if isSpace c then trimStart r else s
  end.

Fixpoint trimEnd (s : string) : string :=
  match s with
  | EmptyString => EmptyString
  | String c r =>
      match trimEnd r with
      | EmptyString => if isSpace c then EmptyString else String c EmptyString
      | r' => String c r'
      end
  end.

Definition trim (s : string) : string := trimEnd (trimStart s).

Fixpoint allChars (f : ascii -> bool) (s : string) : bool :=
  match s with
  | EmptyString => true
  | String c r => f c && allChars f r
  end.

Fixpoint filterChars (f : ascii -> bool) (s : string) : string :=
  match s with
  | EmptyString => EmptyString
  | String c r => if f c then String c (filterChars f r) else filterChars f r
  end.

(** The character class [[+\d\-\(\)\s\.]]. *)
Definition phoneChar (c : ascii) : bool :=
  Ascii.eqb c "+" || JsObject.is_digit c || Ascii.eqb c "-" || Ascii.eqb c "("
  || Ascii.eqb c ")" || isSpace c || Ascii.eqb c ".".

Definition validatePhoneNumber (phoneNumber : string) : Outcome string :=
  let trimmed := trim phoneNumber in
  if (String.length trimmed =? 0)%nat then
    Thrown "Phone number cannot be empty"
  else if negb (allChars phoneChar trimmed) then
    Thrown "Phone number contains invalid characters"
  else if (30 <? String.length trimmed)%nat then
    Thrown "Phone number is too long (maximum 30 characters)"
  else Returned trimmed.

(** ** contacts.ts: phone normalisation and matching *)

(** [s.replace(/[^0-9+]/g, '')] *)
Definition stripFormatting (s : string) : string :=
  filterChars (fun c => JsObject.is_digit c || Ascii.eqb c "+") s.

Definition startsWith (p s : string) : bool := String.prefix p s.

Fixpoint dropChars (n : nat) (s : string) : string :=
  match n, s with
  | O, _ => s
  | S n', String _ r => dropChars n' r
  | S _, EmptyString => EmptyString
  end.

Definition memString (x : string) (l : list string) : bool :=
  existsb (String.eqb x) l.

(** [[...new Set(l)]]: the first occurrence of every element, in order. *)
Fixpoint dedupe (seen : list string) (l : list string) : list string :=
  match l with
  | [] => []
  | x :: r => if memString x seen then dedupe seen r else x :: dedupe (x :: seen) r
  end.

Definition normalizePhoneNumber (phoneNumber : string) : list string :=
  let cleaned := stripFormatting phoneNumber in
  let formats := [cleaned] in
  let formats :=
    if startsWith "+1" cleaned then (formats ++ [dropChars 2 cleaned])%list else formats in
  let formats :=
    if negb (startsWith "+" cleaned) && (String.length cleaned =? 10)%nat
    then (formats ++ [("+1" ++ cleaned)%string])%list else formats in
  let formats :=
    if negb (startsWith "+" cleaned) && (0 <? String.length cleaned)%nat
    then (formats ++ [("+" ++ cleaned)%string])%list else formats in
  dedupe [] formats.

(** The test applied to a stored number [num] (already stripped) and one
    search format, in the cached search and in the direct scan alike. *)
Definition phoneMatches (num searchNumber : string) : bool :=
  String.eqb num searchNumber
  || String.eqb num ("+" ++ searchNumber)
  || String.eqb num ("+1" ++ searchNumber)
  || String.eqb ("+1" ++ num) searchNumber.

(** Body of the loop of [findContactByPhoneCachedSearch] for one contact. *)
Definition cachedContactMatches (searchNumbers numbers : list string) : bool :=
  let normalizedNumbers := map stripFormatting numbers in
  existsb (fun searchNumber =>
             existsb (fun num => phoneMatches num searchNumber) normalizedNumbers)
          searchNumbers.

Fixpoint searchSnapshot (searchNumbers : list string) (entries : ContactsData)
  : option string :=
  match entries with
  | [] => None
  | (name, numbers) :: r =>
      if cachedContactMatches searchNumbers numbers then Some name
      else searchSnapshot searchNumbers r
  end.

(** ** contacts.ts: the Contacts application and the process state *)

(** A record of the Contacts application: readable, or one whose accessors
    throw. *)
Inductive Person : Type :=
| Readable (name : string) (phones : list string)
| Unreadable.

Record Directory : Type := mkDirectory {
  accessGranted : bool;   (* AppleScript can reach the application *)
  dumpWorks : bool;       (* the enumeration script does not throw *)
  jxaWorks : bool;        (* [run(...)] does not throw *)
  bridgeError : string;   (* the message of the error a failing bridge call throws *)
  people : list Person
}.

Record PhoneSearchResult : Type := mkFound {
  found_name : string;
  found_phones : list string
}.

(** The process: the global cache instance, the clock, the Contacts
    application and the number of calls made to it so far. *)
Record World : Type := mkWorld {
  globalCache : option ContactCache;
  clock : nat -> Z;
  clockReads : nat;
  directory : Directory;
  scriptRuns : nat;   (* [runAppleScript] calls *)
  jxaRuns : nat       (* [run] calls: scans of the contact list *)
}.

Definition Exn (A : Type) : Type := State World (Outcome A).

Definition bindE {A B : Type} (m : Exn A) (k : A -> Exn B) : Exn B :=
  r <- m ;;
  match r with
  | Returned a => k a
  | Thrown msg => ret (Thrown msg)
  end.

Definition retE {A : Type} (a : A) : Exn A := ret (Returned a).

Definition throwE {A : Type} (msg : string) : Exn A := ret (Thrown msg).

(** [try { m } catch (error) { h error.message }] *)
Definition tryCatch {A : Type} (m : Exn A) (h : string -> Exn A) : Exn A :=
  r <- m ;;
  match r with
  | Returned a => ret (Returned a)
  | Thrown msg => h msg
  end.

Definition liftS {A : Type} (m : State World A) : Exn A :=
  a <- m ;; ret (Returned a).

Notation "x <-! m ;; k" := (bindE m (fun x => k))
  (at level 61, m at next level, right associativity) : monad_scope.

Definition setGlobal (c : option ContactCache) (w : World) : World :=
  {| globalCache := c; clock := clock w; clockReads := clockReads w;
     directory := directory w; scriptRuns := scriptRuns w; jxaRuns := jxaRuns w |}.

(** Run a method of the cache object [c] against the process clock. *)
Definition runMethod {A : Type} (m : State Env A) (c : ContactCache) : State World A :=
  fun w =>
    let (a, e) := m {| this := c; readings := clock w; ticks := clockReads w |} in
    (a, {| globalCache := Some (this e); clock := clock w; clockReads := ticks e;
           directory := directory w; scriptRuns := scriptRuns w;
           jxaRuns := jxaRuns w |}).

(** [getContactCache(config)]: creates the instance on first use, else
    applies [config] when given. *)
Definition getContactCache (cfg : option PartialConfig) : State World unit :=
  g <- gets globalCache ;;
  match g with
  | None => modify (setGlobal (Some (newContactCache (orElse cfg noPartial))))
  | Some c =>
      match cfg with
      | Some newConfig => runMethod (updateConfig newConfig) c
      | None => ret tt
      end
  end.

(** [getContactCache().m(...)]: a method call on the global instance. *)
Definition callCache {A : Type} (m : State Env A) : State World A :=
  getContactCache None ;;
  g <- gets globalCache ;;
  runMethod m (orElse g (newContactCache noPartial)).

Definition destroyContactCache : State World unit :=
  g <- gets globalCache ;;
  match g with
  | Some c => runMethod destroy c ;; modify (setGlobal None)
  | None => ret tt
  end.

Definition countScript (w : World) : World :=
  {| globalCache := globalCache w; clock := clock w; clockReads := clockReads w;
     directory := directory w; scriptRuns := S (scriptRuns w); jxaRuns := jxaRuns w |}.

Definition countJxa (w : World) : World :=
  {| globalCache := globalCache w; clock := clock w; clockReads := clockReads w;
     directory := directory w; scriptRuns := scriptRuns w; jxaRuns := S (jxaRuns w) |}.

Definition accessDeniedMessage : string :=
  "Cannot access Contacts app. Please grant access in System Preferences > Security & Privacy > Privacy > Contacts.".

Definition checkContactsAccess : Exn bool :=
  modify countScript ;;
  d <- gets directory ;;
  if accessGranted d then retE true else throwE accessDeniedMessage.

(** ** contacts.ts: the phone lookup *)

(** [if (x)] on a string or [null]. *)
Definition truthy (o : option string) : bool :=
  match truthyKey o with Some _ => true | None => false end.

Definition findContactByPhoneCachedSearch (searchNumbers : list string)
  : Exn (option string) :=
  tryCatch
    (allContacts <- callCache (get "allContacts") ;;
     match allContacts with
     | None => retE None
     | Some entries => retE (searchSnapshot searchNumbers entries)
     end)
    (fun _ => retE None).

(** The body of the closure handed to [run] by
    [findContactByPhoneOptimized]: a scan of every record. *)
Definition personMatches (searchFormats phones : list string) : bool :=
  existsb (fun phoneValue =>
             let normalizedPhone := stripFormatting phoneValue in
             existsb (fun searchNumber => phoneMatches normalizedPhone searchNumber)
                     searchFormats)
          phones.

Fixpoint scanPeople (searchFormats : list string) (ps : list Person)
  : option PhoneSearchResult :=
  match ps with
  | [] => None
  | Unreadable :: r => scanPeople searchFormats r
  | Readable personName phones :: r =>
      if personMatches searchFormats phones
      then Some {| found_name := personName; found_phones := phones |}
      else scanPeople searchFormats r
  end.

Definition runPhoneScan (searchFormats : list string) : Exn (option PhoneSearchResult) :=
  modify countJxa ;;
  d <- gets directory ;;
  if jxaWorks d then retE (scanPeople searchFormats (people d))
  else throwE (bridgeError d).

(** [existingData[contactName] = phoneNumbers] when [existingData] is the
    object held by the entry under [key]: the entry sees the change.  (As
    for [JsObject.set], a [contactName] other than [__proto__].) *)
Definition mutateData (key : string) (f : ContactsData -> ContactsData)
  (c : ContactCache) : ContactCache :=
  match JsMap.get key (cache c) with
  | Some entry =>
      withCache (JsMap.set key {| data := f (data entry); timestamp := timestamp entry;
                                  accessCount := accessCount entry;
                                  lastAccessed := lastAccessed entry |}) c
  | None => c
  end.

Definition cachePhoneSearchResult (contactName : string) (phoneNumbers : list string)
  : Exn unit :=
  tryCatch
    (existingData <- callCache (get "allContacts") ;;
     match existingData with
     | Some shared =>
         callCache (modify (onThis (mutateData "allContacts"
                                      (JsObject.set contactName phoneNumbers)))) ;;
         liftS (callCache (set (JsObject.set contactName phoneNumbers shared)
                               "allContacts"))
     | None =>
         liftS (callCache (set (JsObject.set contactName phoneNumbers [])
                               "allContacts"))
     end)
    (fun _ => retE tt).

Definition findContactByPhoneOptimized (phoneNumber : string) : Exn (option string) :=
  tryCatch
    (sanitizedPhoneNumber <-! ret (validatePhoneNumber phoneNumber) ;;
     access <-! checkContactsAccess ;;
     if negb access then retE None
     else
       let searchNumbers := normalizePhoneNumber sanitizedPhoneNumber in
       cacheResult <-! findContactByPhoneCachedSearch searchNumbers ;;
       if truthy cacheResult then retE cacheResult
       else
         found <-! tryCatch
                     (foundContact <-! runPhoneScan searchNumbers ;;
                      match foundContact with
                      | Some fc =>
                          if truthy (Some (found_name fc)) then
                            _ <-! cachePhoneSearchResult (found_name fc) (found_phones fc) ;;
                            retE (Some (found_name fc))
                          else retE None
                      | None => retE None
                      end)
                     (fun _ => retE None) ;;
         match found with
         | Some personName => retE (Some personName)
         | None => retE None
         end)
    (fun _ => retE None).

Definition findContactByPhone (phoneNumber : string) : Exn (option string) :=
  tryCatch (findContactByPhoneOptimized phoneNumber) (fun _ => retE None).

(** ** contacts.ts: the other exposed operations *)

(** The class [[\x00-\x08\x0B\x0C\x0E-\x1F\x7F]]. *)
Definition controlChar (c : ascii) : bool :=
  let n := nat_of_ascii c in
  ((n <=? 8) || (n =? 11) || (n =? 12) || ((14 <=? n) && (n <=? 31)) || (n =? 127))%nat.

Definition validateContactName (name : string) : Outcome string :=
  let trimmed := trim name in
  if (String.length trimmed =? 0)%nat then
    Thrown "Contact name cannot be empty"
  else if (200 <? String.length trimmed)%nat then
    Thrown "Contact name is too long (maximum 200 characters)"
  else if negb (allChars (fun c => negb (controlChar c)) trimmed) then
    Thrown "Contact name contains invalid control characters"
  else Returned trimmed.

(** [toLowerCase] on code units below 256. *)
Definition lowerChar (c : ascii) : ascii :=
  let n := nat_of_ascii c in
  if ((65 <=? n) && (n <=? 90) || (192 <=? n) && (n <=? 222) && negb (n =? 215))%nat
  then ascii_of_nat (n + 32)
  else c.

Fixpoint toLowerCase (s : string) : string :=
  match s with
  | EmptyString => EmptyString
  | String c r => String (lowerChar c) (toLowerCase r)
  end.

(** [hay.includes(needle)] *)
Fixpoint includes (needle hay : string) : bool :=
  String.prefix needle hay
  || match hay with
     | EmptyString => false
     | String _ r => includes needle r
     end.

(** [s.split(sep)] for a one-character separator. *)
Fixpoint split (sep : ascii) (s : string) : list string :=
  match s with
  | EmptyString => [EmptyString]
  | String c r =>
      if Ascii.eqb c sep then EmptyString :: split sep r
      else match split sep r with
           | piece :: rest => String c piece :: rest
           | [] => [String c EmptyString]
           end
  end.

Definition newline : ascii := ascii_of_nat 10.

(** What the AppleScript of [getAllNumbersAppleScript] returns: one line
    [name|phone] per phone number of every record it can read. *)
Fixpoint scriptDump (ps : list Person) : string :=
  match ps with
  | [] => EmptyString
  | Unreadable :: r => scriptDump r
  | Readable personName phones :: r =>
      fold_left (fun contactsList phoneValue =>
                   contactsList ++ personName ++ "|" ++ phoneValue
                   ++ String newline EmptyString)
                phones EmptyString
      ++ scriptDump r
  end.

(** [if (!phoneNumbers[name]) phoneNumbers[name] = []; phoneNumbers[name].push(phone)] *)
Definition pushPhone (name phone : string) (o : ContactsData) : ContactsData :=
  match JsObject.get name o with
  | Some l => JsObject.replace name (l ++ [phone])%list o
  | None => JsObject.set name [phone] o
  end.

Definition parseDumpLine (phoneNumbers : ContactsData) (line : string) : ContactsData :=
  if includes "|" line then
    match map trim (split "|" line) with
    | name :: phone :: _ =>
        if negb (String.eqb name "") && negb (String.eqb phone "")
        then pushPhone name phone phoneNumbers
        else phoneNumbers
    | _ => phoneNumbers
    end
  else phoneNumbers.

Definition parseDump (result : string) : ContactsData :=
  if String.eqb (trim result) "" then []
  else
    let lines := filter (fun line => negb (String.eqb (trim line) ""))
                        (split newline (trim result)) in
    fold_left parseDumpLine lines [].

Definition getAllNumbersAppleScript : Exn ContactsData :=
  tryCatch
    (modify countScript ;;
     d <- gets directory ;;
     if accessGranted d && dumpWorks d then retE (parseDump (scriptDump (people d)))
     else throwE (bridgeError d))
    (fun error => throwE error).

(** The closure handed to [run] by [getAllNumbers]. *)
Fixpoint collectNumbers (phoneNumbers : ContactsData) (ps : list Person) : ContactsData :=
  match ps with
  | [] => phoneNumbers
  | Unreadable :: r => collectNumbers phoneNumbers r
  | Readable name phoneValues :: r =>
      if negb (String.eqb name "") && (0 <? List.length phoneValues)%nat
      then collectNumbers (JsObject.set name phoneValues phoneNumbers) r
      else collectNumbers phoneNumbers r
  end.

Definition runCollect : Exn ContactsData :=
  modify countJxa ;;
  d <- gets directory ;;
  if jxaWorks d then retE (collectNumbers [] (people d))
  else throwE (bridgeError d).

Definition getAllNumbers : Exn ContactsData :=
  tryCatch
    (cachedData <- callCache (get "allContacts") ;;
     match cachedData with
     | Some cached => retE cached
     | None =>
         access <-! checkContactsAccess ;;
         if negb access then retE []
         else
           contactsData <-!
             tryCatch
               (nums <-! runCollect ;;
                if (List.length nums =? 0)%nat then getAllNumbersAppleScript
                else retE nums)
               (fun _ => getAllNumbersAppleScript) ;;
           (if (0 <? List.length contactsData)%nat
            then callCache (set contactsData "allContacts")
            else ret tt) ;;
           retE contactsData
     end)
    (fun error => throwE ("Error accessing contacts: " ++ error)).

(** The closure handed to [run] by [findNumber]. *)
Fixpoint searchByName (searchName : string) (ps : list Person) : list string :=
  match ps with
  | [] => []
  | Unreadable :: r => searchByName searchName r
  | Readable personName phoneValues :: r =>
      if negb (String.eqb personName "")
         && includes (toLowerCase searchName) (toLowerCase personName)
         && (0 <? List.length phoneValues)%nat
      then phoneValues
      else searchByName searchName r
  end.

Definition runNameSearch (searchName : string) : Exn (list string) :=
  modify countJxa ;;
  d <- gets directory ;;
  if jxaWorks d then retE (searchByName searchName (people d))
  else throwE (bridgeError d).

Definition findNumberFuzzyFallback (sanitizedName : string) : Exn (list string) :=
  tryCatch
    (cachedData <- callCache (get "allContacts") ;;
     allNumbers <-! match cachedData with
                    | Some cached => retE cached
                    | None => getAllNumbers
                    end ;;
     let closestMatch :=
       find (fun personName =>
               includes (toLowerCase sanitizedName) (toLowerCase personName))
            (map fst allNumbers) in
     match truthyKey closestMatch with
     | Some personName => retE (orElse (JsObject.get personName allNumbers) [])
     | None => retE []
     end)
    (fun _ => retE []).

Definition findNumber (name : string) : Exn (list string) :=
  tryCatch
    (sanitizedName <-! ret (validateContactName name) ;;
     access <-! checkContactsAccess ;;
     if negb access then retE []
     else
       tryCatch
         (phones <-! runNameSearch sanitizedName ;;
          if (List.length phones =? 0)%nat
          then findNumberFuzzyFallback sanitizedName
          else retE phones)
         (fun _ => findNumberFuzzyFallback sanitizedName))
    (fun error => throwE ("Error finding contact: " ++ error)).

Definition getCacheInfo : State World (CacheStats * CacheConfig) :=
  st <- callCache getStats ;;
  cfg <- callCache getConfig ;;
  ret (st, cfg).

Definition invalidateCache : State World unit := callCache (invalidate None).

Definition updateCacheConfig (cfg : PartialConfig) : State World unit :=
  callCache (updateConfig cfg).

(** ** Specification vocabulary *)

(** The cache object [c] read by a clock at position [n]. *)
Definition at_tick (e : Env) (c : ContactCache) (n : nat) : Env :=
  {| this := c; readings := readings e; ticks := n |}.

Definition now_of (e : Env) : Z := readings e (ticks e).

(** Keys are unique, and a disabled store is empty: [set] does nothing on a
    disabled store and disabling clears it. *)
Definition Inv (c : ContactCache) : Prop :=
  JsMap.wf (cache c) /\ (enabled (config c) = false -> cache c = []).

(** The entry an LRU eviction is meant to remove: among the entries with the
    least [lastAccessed], the first one in iteration order. *)
Fixpoint lruEntry (m : JsMap.t CacheEntry) : option (string * CacheEntry) :=
  match m with
  | [] => None
  | ke :: r =>
      match lruEntry r with
      | Some ke' =>
          if lastAccessed (snd ke') <? lastAccessed (snd ke) then Some ke' else Some ke
      | None => Some ke
      end
  end.

(** The map without that entry. *)
Definition withoutLru (m : JsMap.t CacheEntry) : JsMap.t CacheEntry :=
  match lruEntry m with
  | Some ke => JsMap.delete (fst ke) m
  | None => m
  end.

(** Every entry has a key that [if (lruKey)] accepts and was last accessed
    strictly before each clock reading from position [n] on, so that the
    scan of [evictLeastRecentlyUsed] can select it. *)
Definition evictable (rd : nat -> Z) (n : nat) (m : JsMap.t CacheEntry) : Prop :=
  forall k entry, In (k, entry) m ->
    k <> EmptyString /\ forall i, (n <= i)%nat -> lastAccessed entry < rd i.

(** The entry [set] builds. *)
Definition newEntry (newData : ContactsData) (now : Z) : CacheEntry :=
  {| data := newData; timestamp := now; accessCount := 1; lastAccessed := now |}.

(** The three stages of [set] on an enabled store. *)
Definition afterMemoryCheck (newData : ContactsData) (e : Env) : Env :=
  let e0 := at_tick e (this e) (S (ticks e)) in
  if shouldEvictForMemory newData (this e)
  then snd (evictLeastRecentlyUsed e0) else e0.

Definition afterCountCheck (newData : ContactsData) (e : Env) : Env :=
  let e1 := afterMemoryCheck newData e in
  if JsMap.size (cache (this e1)) >=? maxEntries (config (this e1))
  then snd (evictLeastRecentlyUsed e1) else e1.

(** ** Concrete scenarios *)

Definition alice : ContactsData := [("Alice", ["123"])].

(** A clock that advances by [step] milliseconds between two readings. *)
Definition steadyClock (start step : Z) (n : nat) : Z := start + step * Z.of_nat n.

Definition freshEnv (cfg : PartialConfig) (rd : nat -> Z) : Env :=
  {| this := newContactCache cfg; readings := rd; ticks := 0 |}.

(** [ttlMs = 100], one snapshot stored under ["k"] at time 1000; the next
    reading of the clock is 1150. *)
Definition shortTtl : PartialConfig :=
  {| p_enabled := None; p_ttlMs := Some 100; p_maxMemoryMB := None;
     p_maxEntries := None; p_cleanupIntervalMs := None |}.

Definition staleEnv : Env :=
  snd (set alice "k" (freshEnv shortTtl (steadyClock 1000 150))).

(** The same store read by a clock that advances 60 ms per reading: a first
    [get] at 1060 hits, a second one at 1120 finds the entry 120 ms old. *)
Definition warmEnv : Env :=
  snd (set alice "k" (freshEnv shortTtl (steadyClock 1000 60))).

(** [maxEntries = 2], every other option at its default. *)
Definition twoEntries : PartialConfig :=
  {| p_enabled := None; p_ttlMs := None; p_maxMemoryMB := None;
     p_maxEntries := Some 2; p_cleanupIntervalMs := None |}.

(** The size in bytes [estimateMemoryUsage] attributes to one snapshot,
    without the per-entry overhead. *)
Definition dataBytes (d : ContactsData) : Z := addDataSize 0 d.
Arguments dataBytes : simpl never.

(** [maxEntries = 2]; ["k1"] stored at 1000, ["k2"] at 1010, ["k1"] read at
    1020; the next clock readings are 1030, 1040, ... *)
Definition lruDemo : Env :=
  snd (get "k1"
         (snd (set alice "k2"
                 (snd (set alice "k1" (freshEnv twoEntries (steadyClock 1000 10))))))).

(** A ceiling of one millionth of a megabyte (about one byte): any snapshot
    with a contact in it is over the ceiling on its own. *)
Definition tinyCeiling : PartialConfig :=
  {| p_enabled := None; p_ttlMs := None; p_maxMemoryMB := Some (1 # 1000000)%Q;
     p_maxEntries := None; p_cleanupIntervalMs := None |}.

Definition emptyTinyEnv : Env := freshEnv tinyCeiling (steadyClock 1000 10).

Definition disabledConfig : PartialConfig :=
  {| p_enabled := Some false; p_ttlMs := None; p_maxMemoryMB := None;
     p_maxEntries := None; p_cleanupIntervalMs := None |}.

Definition disabledEnv : Env := freshEnv disabledConfig (steadyClock 1000 10).

Definition bob : ContactsData := [("Bob", ["555-1234"])].

(** [maxEntries = 2]; ["a"] and ["b"] stored within one millisecond: the
    clock reads 1000 at every call. *)
Definition sameMsEnv : Env :=
  snd (set alice "b" (snd (set alice "a" (freshEnv twoEntries (steadyClock 1000 0))))).

(** [maxEntries = 2]; the empty key stored at 1000, ["b"] at 1010; the clock
    keeps advancing by 10 ms per reading. *)
Definition emptyKeyFullEnv : Env :=
  snd (set alice "b" (snd (set alice "" (freshEnv twoEntries (steadyClock 1000 10))))).

(** A ceiling of a ten-thousandth of a megabyte (about 105 bytes), and one
    snapshot stored under the empty key: 16 bytes of data pass the check of
    [set], and with the overhead of 200 bytes the store is over the ceiling. *)
Definition smallCeiling : PartialConfig :=
  {| p_enabled := None; p_ttlMs := None; p_maxMemoryMB := Some (1 # 10000)%Q;
     p_maxEntries := None; p_cleanupIntervalMs := None |}.

Definition emptyKeyEnv : Env :=
  snd (set alice "" (freshEnv smallCeiling (steadyClock 1000 10))).

(** Sequences of reads and writes. *)
Inductive Op : Type :=
| OpGet (key : string)
| OpSet (newData : ContactsData) (key : string).

Definition step (e : Env) (op : Op) : Env :=
  match op with
  | OpGet key => snd (get key e)
  | OpSet newData key => snd (set newData key e)
  end.

Definition runOps (ops : list Op) (e : Env) : Env := fold_left step ops e.

(** The operations that end with a call of [updateStats]: any [set] on an
    enabled store, and a [get] on an enabled store that finds an entry under
    its key (whether it turns out fresh or expired). *)
Definition recomputesStats (e : Env) (op : Op) : bool :=
  enabled (config (this e))
  && match op with
     | OpGet key =>
         match JsMap.get key (cache (this e)) with Some _ => true | None => false end
     | OpSet _ _ => true
     end.

(** The hit rate as a percentage of the queries. *)
Definition percentage (s : CacheStats) : Q :=
  ((inject_Z (hits s) / inject_Z (totalQueries s)) * 100)%Q.

Definition defaultEnv : Env := freshEnv noPartial (steadyClock 1000 10).

Definition disableOnly : PartialConfig :=
  {| p_enabled := Some false; p_ttlMs := None; p_maxMemoryMB := None;
     p_maxEntries := None; p_cleanupIntervalMs := None |}.

(** A default store after [set(alice, "k")] and [updateConfig({enabled: false})]. *)
Definition disabledAfterUse : Env :=
  snd (updateConfig disableOnly (snd (set alice "k" defaultEnv))).

(** The relation the cached search computes between the number asked for
    and one stored number. *)
Definition matchesStored (searched stored : string) : bool :=
  cachedContactMatches (normalizePhoneNumber searched) [stored].

Definition readable (p : Person) : bool :=
  match p with Readable _ _ => true | Unreadable => false end.

(** A process that has not touched the contacts yet. *)
Definition initialWorld (d : Directory) (rd : nat -> Z) : World :=
  {| globalCache := None; clock := rd; clockReads := 0; directory := d;
     scriptRuns := 0; jxaRuns := 0 |}.

Definition bobDirectory : Directory :=
  {| accessGranted := true; dumpWorks := true; jxaWorks := true;
     bridgeError := "execution error";
     people := [Unreadable; Readable "Bob" ["5551234567"]] |}.

(** After one bulk enumeration the snapshot with Bob is cached. *)
Definition bobWorld : World :=
  snd (getAllNumbers (initialWorld bobDirectory (steadyClock 1000 10))).

Definition deniedDirectory : Directory :=
  {| accessGranted := false; dumpWorks := true; jxaWorks := true;
     bridgeError := "Not authorized";
     people := [Readable "Bob" ["5551234567"]] |}.

Definition deniedWorld : World := initialWorld deniedDirectory (steadyClock 1000 10).

(** The instance [getContactCache()] returns in [w]. *)
Definition theCache (w : World) : ContactCache :=
  orElse (globalCache w) (newContactCache noPartial).

Definition cacheEnabled (w : World) : Prop := enabled (config (theCache w)) = true.

(** The global instance read by the process clock, and back. *)
Definition envOf (w : World) : Env :=
  {| this := theCache w; readings := clock w; ticks := clockReads w |}.

Definition putEnv (w : World) (e : Env) : World :=
  {| globalCache := Some (this e); clock := clock w; clockReads := ticks e;
     directory := directory w; scriptRuns := scriptRuns w; jxaRuns := jxaRuns w |}.

(** The entry cached under the well-known key, if any. *)
Definition snapshotOf (w : World) : option CacheEntry :=
  JsMap.get "allContacts" (cache (theCache w)).

Definition expiredAt (w : World) (n : nat) (entry : CacheEntry) : bool :=
  clock w n - timestamp entry >? ttlMs (config (theCache w)).

(** The cached snapshot a phone lookup starting in [w] can merge into: the
    one stored under the well-known key, provided it is still unexpired at
    the two clock readings the lookup takes when it consults it (in the
    cache-only search, then in the write-through); otherwise none. *)
Definition liveSnapshot (w : World) : ContactsData :=
  match snapshotOf w with
  | Some entry =>
      if expiredAt w (clockReads w) entry || expiredAt w (S (clockReads w)) entry
      then [] else data entry
  | None => []
  end.

Definition namesNonEmpty (d : ContactsData) : Prop :=
  forall name numbers, In (name, numbers) d -> name <> EmptyString.

Definition bob555Directory : Directory :=
  {| accessGranted := true; dumpWorks := true; jxaWorks := true;
     bridgeError := "execution error";
     people := [Readable "Alice" ["555-0000"]; Readable "Bob" ["555-1234"]] |}.

(** The cache has been disabled through [updateCacheConfig]. *)
Definition disabledWorld : World :=
  snd (updateCacheConfig disableOnly
         (initialWorld bob555Directory (steadyClock 1000 10))).

(** A cached snapshot with Alice only; Bob is in the Contacts application. *)
Definition aliceCachedWorld : World :=
  snd (callCache (set [("Alice", ["555-0000"])] "allContacts")
         (initialWorld bob555Directory (steadyClock 1000 10))).

(** The same, for a cache object and its clock. *)
Definition liveData (key : string) (e : Env) : ContactsData :=
  match JsMap.get key (cache (this e)) with
  | Some entry =>
      if (readings e (ticks e) - timestamp entry >? ttlMs (config (this e)))
         || (readings e (S (ticks e)) - timestamp entry >? ttlMs (config (this e)))
      then [] else data entry
  | None => []
  end.

(** An entry that the first loop of [cleanup] keeps. *)
Definition unexpired (now ttl : Z) (ke : string * CacheEntry) : bool :=
  negb (now - timestamp (snd ke) >? ttl).

(** [isOverMemoryLimit] as a function of the configuration and the map. *)
Definition overLimit (cfg : CacheConfig) (m : JsMap.t CacheEntry) : bool :=
  Qgtb (inject_Z (totalSize m) / MB)%Q (maxMemoryMB cfg).

(** ** Sequences of calls on a cache object *)

(** A call of a public method of the class, or a change a caller makes
    through the snapshot [get] handed out ([CMutate]: the object returned by
    [get] is the one the entry holds). *)
Inductive Call : Type :=
| CGet (key : string)
| CSet (newData : ContactsData) (key : string)
| CInvalidate (key : option string)
| CUpdateConfig (newConfig : PartialConfig)
| CCleanup (fuel : nat)
| CDestroy
| CMutate (key : string) (f : ContactsData -> ContactsData).

(** The state after the call, when the call returns. *)
Definition perform (e : Env) (c : Call) : option Env :=
  match c with
  | CGet key => Some (snd (get key e))
  | CSet newData key => Some (snd (set newData key e))
  | CInvalidate key => Some (snd (invalidate key e))
  | CUpdateConfig newConfig => Some (snd (updateConfig newConfig e))
  | CCleanup fuel => cleanup fuel e
  | CDestroy => Some (snd (destroy e))
  | CMutate key f => Some (onThis (mutateData key f) e)
  end.

Fixpoint performAll (e : Env) (calls : list Call) : option Env :=
  match calls with
  | [] => Some e
  | c :: rest =>
      match perform e c with
      | Some e' => performAll e' rest
      | None => None
      end
  end.

Definition isDestroy (c : Call) : bool :=
  match c with CDestroy => true | _ => false end.

(** The counters of the statistics are consistent. *)
Definition countersOk (s : CacheStats) : Prop :=
  hits s + misses s = totalQueries s
  /\ 0 <= hits s /\ 0 <= misses s /\ 0 <= evictions s.

(** No counter of [s'] is below its value in [s]. *)
Definition countersGrow (s s' : CacheStats) : Prop :=
  hits s <= hits s' /\ misses s <= misses s'
  /\ evictions s <= evictions s' /\ totalQueries s <= totalQueries s'.

(** The query counters are the same and the eviction counter is not lower. *)
Definition queriesKept (s s' : CacheStats) : Prop :=
  hits s' = hits s /\ misses s' = misses s
  /\ totalQueries s' = totalQueries s /\ evictions s <= evictions s'.

(** A clock whose successive readings grow strictly. *)
Definition strictClock (rd : nat -> Z) : Prop :=
  forall i j, (i < j)%nat -> rd i < rd j.

(** Calls that store nothing under the empty key and do not replace the
    limit on the number of entries. *)
Definition keepsLimit (c : Call) : Prop :=
  match c with
  | CSet _ key => key <> EmptyString
  | CUpdateConfig newConfig => p_maxEntries newConfig = None
  | _ => True
  end.

(** Calls that do not disable the store. *)
Definition keepsEnabled (c : Call) : Prop :=
  match c with
  | CUpdateConfig newConfig => p_enabled newConfig <> Some false
  | _ => True
  end.

(** Every entry can be selected for eviction and the map is within a
    limit of at least one entry. *)
Definition bounded (e : Env) : Prop :=
  evictable (readings e) (ticks e) (cache (this e))
  /\ JsMap.size (cache (this e)) <= maxEntries (config (this e))
  /\ 1 <= maxEntries (config (this e)).

(** The timer is armed exactly when the store is enabled. *)
Definition timerFollowsEnabled (c : ContactCache) : Prop :=
  (enabled (config c) = true -> exists period, cleanupTimer c = Some period)
  /\ (enabled (config c) = false -> cleanupTimer c = None).

(** ** ValidationUtils.ts: escaping for the log *)

Definition CR : ascii := ascii_of_nat 13.
Definition TAB : ascii := ascii_of_nat 9.

(** [s.replace(/\r\n/g, by)]: every occurrence from left to right. *)
Fixpoint replaceCRLF (by_ : string) (s : string) : string :=
  match s with
  | EmptyString => EmptyString
  | String c r =>
      match r with
      | String c' r' =>
          if Ascii.eqb c CR && Ascii.eqb c' newline
          then (by_ ++ replaceCRLF by_ r')%string
          else String c (replaceCRLF by_ r)
      | EmptyString => String c EmptyString
      end
  end.

(** [s.replace(/x/g, by)] for a one-character pattern [x]. *)
Fixpoint replaceChar (x : ascii) (by_ : string) (s : string) : string :=
  match s with
  | EmptyString => EmptyString
  | String c r =>
      if Ascii.eqb c x then (by_ ++ replaceChar x by_ r)%string
      else String c (replaceChar x by_ r)
  end.

Definition escapeForLogging (input : string) : string :=
  replaceChar TAB "\t"
    (replaceChar newline "\n"
       (replaceChar CR "\r"
          (replaceCRLF "\r\n" input))).

(** The escape of one character. *)
Definition escapeChar (c : ascii) : string :=
  if Ascii.eqb c CR then "\r"
  else if Ascii.eqb c newline then "\n"
  else if Ascii.eqb c TAB then "\t"
  else String c EmptyString.

(** The concatenation of [f c] over the characters [c] of [s]. *)
Fixpoint flatMapChars (f : ascii -> string) (s : string) : string :=
  match s with
  | EmptyString => EmptyString
  | String c r => (f c ++ flatMapChars f r)%string
  end.

(** The characters that [escapeForLogging] replaces. *)
Definition lineBreaking (c : ascii) : bool :=
  Ascii.eqb c CR || Ascii.eqb c newline || Ascii.eqb c TAB.

(** The class [[0-9+]] that [normalizePhoneNumber] keeps. *)
Definition digitOrPlus (c : ascii) : bool :=
  JsObject.is_digit c || Ascii.eqb c "+".

(** ** Vocabulary for the bulk enumeration *)

(** What [getAllNumbers] does with the data it obtained: cached under the
    well-known key unless empty. *)
Definition cacheIfNonEmpty (contactsData : ContactsData) (w : World) : World :=
  if (0 <? List.length contactsData)%nat
  then putEnv w (snd (set contactsData "allContacts" (envOf w)))
  else w.

(** The outcome of the AppleScript enumeration against the directory of [w]. *)
Definition dumpOutcome (w : World) : Outcome ContactsData :=
  if accessGranted (directory w) && dumpWorks (directory w)
  then Returned (parseDump (scriptDump (people (directory w))))
  else Thrown (bridgeError (directory w)).

(** A dictionary object is modelled by its own properties.  An assignment
    [o["__proto__"] = v] creates no own property, so a record with that name
    is outside what the property list describes. *)
Definition ordinaryName (name : string) : Prop := name <> "__proto__"%string.

Definition ordinaryNames (ps : list Person) : Prop :=
  forall name phones, In (Readable name phones) ps -> ordinaryName name.

(** ** Vocabulary for the AppleScript enumeration *)

(** A name or number that a line of the dump carries unchanged: not empty,
    without the separator or a line feed inside, without white space at
    either end. *)
Definition plainField (s : string) : Prop :=
  s <> EmptyString
  /\ trim s = s
  /\ allChars (fun c => negb (Ascii.eqb c "|") && negb (Ascii.eqb c newline)) s = true.

(** The names an empty object literal answers to through its prototype;
    the property list of a dictionary object does not describe them. *)
Definition inheritedNames : list string :=
  ["constructor"; "hasOwnProperty"; "isPrototypeOf"; "propertyIsEnumerable";
   "toLocaleString"; "toString"; "valueOf"; "__proto__";
   "__defineGetter__"; "__defineSetter__"; "__lookupGetter__"; "__lookupSetter__"].

(** The numbers of all readable records called [name], in the order of the
    Contacts application. *)
Fixpoint numbersOf (name : string) (ps : list Person) : list string :=
  match ps with
  | [] => []
  | Unreadable :: r => numbersOf name r
  | Readable personName phones :: r =>
      if String.eqb personName name then (phones ++ numbersOf name r)%list
      else numbersOf name r
  end.

(** The pairs of a name and a number the dump has a line for. *)
Fixpoint pairsOf (ps : list Person) : list (string * string) :=
  match ps with
  | [] => []
  | Unreadable :: r => pairsOf r
  | Readable personName phones :: r =>
      (map (fun phoneValue => (personName, phoneValue)) phones ++ pairsOf r)%list
  end.

Definition dumpLine (np : string * string) : string :=
  (fst np ++ "|" ++ snd np)%string.

(** Lines, each followed by a line feed. *)
Fixpoint concatLines (ls : list string) : string :=
  match ls with
  | [] => EmptyString
  | l :: r => (l ++ String newline EmptyString ++ concatLines r)%string
  end.

(** Lines separated by line feeds. *)
Fixpoint joinLines (ls : list string) : string :=
  match ls with
  | [] => EmptyString
  | [l] => l
  | l :: r => (l ++ String newline EmptyString ++ joinLines r)%string
  end.

(** ** The states the process reaches *)

(** Every snapshot in the store gives each of its contacts a name. *)
Definition snapshotsNamed (c : ContactCache) : Prop :=
  forall key entry, In (key, entry) (cache c) -> namesNonEmpty (data entry).

(** Keys are unique, a disabled store is empty, and every contact of every
    snapshot has a name. *)
Definition wellNamed (c : ContactCache) : Prop := Inv c /\ snapshotsNamed c.

Definition withDirectory (d : Directory) (w : World) : World :=
  {| globalCache := globalCache w; clock := clock w; clockReads := clockReads w;
     directory := d; scriptRuns := scriptRuns w; jxaRuns := jxaRuns w |}.

(** One step of the process: a call of an operation that contacts.ts
    exposes or of [destroyContactCache], a run of the cleanup timer that
    returns, or a change in the Contacts application. *)
Inductive Step (w : World) : World -> Prop :=
| StepGetAllNumbers : Step w (snd (getAllNumbers w))
| StepFindNumber (name : string) : Step w (snd (findNumber name w))
| StepFindContactByPhone (phoneNumber : string) :
    Step w (snd (findContactByPhone phoneNumber w))
| StepGetCacheInfo : Step w (snd (getCacheInfo w))
| StepInvalidateCache : Step w (snd (invalidateCache w))
| StepUpdateCacheConfig (cfg : PartialConfig) : Step w (snd (updateCacheConfig cfg w))
| StepDestroyContactCache : Step w (snd (destroyContactCache w))
| StepTimer (fuel : nat) (e' : Env) :
    cleanup fuel (envOf w) = Some e' -> Step w (putEnv w e')
| StepDirectory (d : Directory) : Step w (withDirectory d w).

(** The states reached from the start of the process. *)
Inductive Reachable : World -> Prop :=
| ReachInitial (d : Directory) (rd : nat -> Z) : Reachable (initialWorld d rd)
| ReachStep (w w' : World) : Reachable w -> Step w w' -> Reachable w'.

(** * Properties *)

(** ** Association lists *)

Module JsMapFacts.
Import JsMap.

Section WithValues.
Context {V : Type}.
Implicit Types (m : t V) (k : string) (v : V).

Lemma get_set_same k v m : get k (set k v m) = Some v.
Proof.
  induction m as [|[k' v'] r IH]; simpl.
  - now rewrite String.eqb_refl.
  - destruct (String.eqb k k') eqn:E; simpl.
    + now rewrite String.eqb_refl.
    + now rewrite E.
Qed.

Lemma get_set_other k k' v m : k <> k' -> get k' (set k v m) = get k' m.
Proof.
  intros Hne.
  induction m as [|[k0 v0] r IH]; simpl.
  - destruct (String.eqb k' k) eqn:E; [|reflexivity].
    apply String.eqb_eq in E. congruence.
  - destruct (String.eqb k k0) eqn:E; simpl.
    + apply String.eqb_eq in E. subst k0.
      destruct (String.eqb k' k) eqn:E'; [|reflexivity].
      apply String.eqb_eq in E'. congruence.
    + now rewrite IH.
Qed.

Lemma get_In k v m : get k m = Some v -> In (k, v) m.
Proof.
  induction m as [|[k' v'] r IH]; simpl; [discriminate|].
  destruct (String.eqb k k') eqn:E.
  - apply String.eqb_eq in E. intros [= ->]. subst. now left.
  - intros H. right. auto.
Qed.

Lemma get_None_notin k m : get k m = None -> ~ In k (keys m).
Proof.
  induction m as [|[k' v'] r IH]; simpl; [tauto|].
  destruct (String.eqb k k') eqn:E; [discriminate|].
  apply String.eqb_neq in E. intros H [Heq|Hin]; [congruence|]. now apply IH.
Qed.

Lemma notin_get_None k m : ~ In k (keys m) -> get k m = None.
Proof.
  induction m as [|[k' v'] r IH]; simpl; [reflexivity|].
  intros H. destruct (String.eqb k k') eqn:E.
  - apply String.eqb_eq in E. subst. tauto.
  - apply IH. tauto.
Qed.

Lemma In_get k v m : wf m -> In (k, v) m -> get k m = Some v.
Proof.
  unfold wf. induction m as [|[k' v'] r IH]; simpl; [tauto|].
  intros Hnd [Heq|Hin]; inversion Hnd; subst.
  - injection Heq as -> ->. now rewrite String.eqb_refl.
  - destruct (String.eqb k k') eqn:E.
    + apply String.eqb_eq in E. subst k'. exfalso.
      apply H1. change k with (fst (k, v)). now apply in_map.
    + now apply IH.
Qed.

Lemma keys_delete_incl k m : incl (keys (delete k m)) (keys m).
Proof.
  induction m as [|[k' v'] r IH]; simpl; [easy|].
  destruct (String.eqb k k'); simpl.
  - now apply incl_tl.
  - intros x [->|Hx]; [now left|right; now apply IH].
Qed.

Lemma wf_delete k m : wf m -> wf (delete k m).
Proof.
  unfold wf. induction m as [|[k' v'] r IH]; simpl; [easy|].
  intros Hnd. inversion Hnd; subst.
  destruct (String.eqb k k'); simpl; [assumption|].
  constructor; [|now apply IH].
  intros Hin. apply H1. now apply (keys_delete_incl k r).
Qed.

Lemma get_delete_same k m : wf m -> get k (delete k m) = None.
Proof.
  unfold wf. induction m as [|[k' v'] r IH]; simpl; [easy|].
  intros Hnd. inversion Hnd; subst.
  destruct (String.eqb k k') eqn:E; simpl.
  - apply String.eqb_eq in E. subst k'. now apply notin_get_None.
  - rewrite E. now apply IH.
Qed.

Lemma get_delete_other k k' m : k <> k' -> get k' (delete k m) = get k' m.
Proof.
  intros Hne. induction m as [|[k0 v0] r IH]; simpl; [reflexivity|].
  destruct (String.eqb k k0) eqn:E; simpl.
  - apply String.eqb_eq in E. subst k0.
    destruct (String.eqb k' k) eqn:E'; [|reflexivity].
    apply String.eqb_eq in E'. congruence.
  - now rewrite IH.
Qed.

Lemma keys_set_present k v m :
  In k (keys m) -> keys (set k v m) = keys m.
Proof.
  induction m as [|[k' v'] r IH]; simpl; [tauto|].
  intros H. destruct (String.eqb k k') eqn:E; simpl.
  - apply String.eqb_eq in E. now subst.
  - apply String.eqb_neq in E. f_equal. apply IH.
    destruct H; [congruence|assumption].
Qed.

Lemma keys_set_absent k v m :
  ~ In k (keys m) -> keys (set k v m) = (keys m ++ [k])%list.
Proof.
  induction m as [|[k' v'] r IH]; simpl; [reflexivity|].
  intros H. destruct (String.eqb k k') eqn:E; simpl.
  - apply String.eqb_eq in E. subst. tauto.
  - f_equal. apply IH. tauto.
Qed.

Lemma wf_set k v m : wf m -> wf (set k v m).
Proof.
  unfold wf. intros Hnd.
  destruct (in_dec string_dec k (keys m)) as [Hin|Hout].
  - now rewrite keys_set_present.
  - rewrite keys_set_absent by assumption.
    apply NoDup_app; [assumption|repeat constructor; easy|].
    intros x Hx [<-|[]]. contradiction.
Qed.

Lemma size_delete_present k v m :
  get k m = Some v -> size (delete k m) = (size m - 1)%Z.
Proof.
  unfold size. induction m as [|[k' v'] r IH]; cbn [get delete]; [discriminate|].
  destruct (String.eqb k k') eqn:E.
  - intros _. cbn [List.length]. lia.
  - intros H. specialize (IH H). cbn [List.length]. lia.
Qed.

Lemma size_nonneg m : (0 <= size m)%Z.
Proof. unfold size. lia. Qed.

Lemma size_zero m : size m = 0%Z -> m = [].
Proof. unfold size. destruct m; simpl; [reflexivity|lia]. Qed.

End WithValues.
End JsMapFacts.

(** ** The store: how each method acts *)

Ltac run_method :=
  unfold bind, modify, gets, ret, when, Date_now, onThis; cbn.


Section GetCases.
Variables (e : Env) (key : string).
Lemma get_disabled :
  enabled (config (this e)) = false ->
  get key e =
  (None, at_tick e (withStats incMisses (withStats incTotalQueries (this e))) (ticks e)).
Proof.
  intros H. unfold get. run_method. rewrite H. reflexivity.
Qed.

Lemma get_absent :
  enabled (config (this e)) = true ->
  JsMap.get key (cache (this e)) = None ->
  get key e =
  (None, at_tick e (withStats incMisses (withStats incTotalQueries (this e))) (ticks e)).
Proof.
  intros H H0. unfold get. run_method. rewrite H, H0. reflexivity.
Qed.

Lemma get_expired entry :
  enabled (config (this e)) = true ->
  JsMap.get key (cache (this e)) = Some entry ->
  now_of e - timestamp entry > ttlMs (config (this e)) ->
  get key e =
  (None,
   at_tick e
     (updateStats
        (withStats incEvictions
           (withStats incMisses
              (withCache (JsMap.delete key) (withStats incTotalQueries (this e))))))
     (S (ticks e))).
Proof.
  intros H H0 H1. unfold get. run_method. rewrite H, H0. cbn.
  unfold now_of in H1.
  destruct (Z.gtb_spec (readings e (ticks e) - timestamp entry) (ttlMs (config (this e))));
    [reflexivity|lia].
Qed.

Lemma get_hit entry :
  enabled (config (this e)) = true ->
  JsMap.get key (cache (this e)) = Some entry ->
  now_of e - timestamp entry <= ttlMs (config (this e)) ->
  get key e =
  (Some (data entry),
   at_tick e
     (updateStats
        (withStats incHits
           (withCache (JsMap.set key (touch (now_of e) entry))
              (withStats incTotalQueries (this e)))))
     (S (ticks e))).
Proof.
  intros H H0 H1. unfold get. run_method. rewrite H, H0. cbn.
  unfold now_of in *.
  destruct (Z.gtb_spec (readings e (ticks e) - timestamp entry) (ttlMs (config (this e))));
    [lia|reflexivity].
Qed.

End GetCases.

(** ** The store: the invariant of reachable states *)


Lemma Inv_new cfg : Inv (newContactCache cfg).
Proof.
  unfold newContactCache, Inv. cbn.
  destruct (orElse (p_enabled cfg) true); cbn; split; auto; constructor.
Qed.

Lemma Inv_nonempty_enabled c k entry :
  Inv c -> JsMap.get k (cache c) = Some entry -> enabled (config c) = true.
Proof.
  intros [_ H] Hget. destruct (enabled (config c)); [reflexivity|].
  rewrite H in Hget by reflexivity. discriminate.
Qed.

Lemma get_preserves_config e key : config (this (snd (get key e))) = config (this e).
Proof.
  unfold get. run_method.
  destruct (enabled (config (this e))); cbn; [|reflexivity].
  destruct (JsMap.get key (cache (this e))); cbn; [|reflexivity].
  destruct (_ >? _); reflexivity.
Qed.

(** A read that hits leaves the creation time of the entry as it was. *)
Lemma get_hit_keeps_timestamp e key entry :
  enabled (config (this e)) = true ->
  JsMap.get key (cache (this e)) = Some entry ->
  now_of e - timestamp entry <= ttlMs (config (this e)) ->
  exists entry',
    JsMap.get key (cache (this (snd (get key e)))) = Some entry'
    /\ timestamp entry' = timestamp entry
    /\ lastAccessed entry' = now_of e.
Proof.
  intros He Hk Hage. rewrite (get_hit e key entry He Hk Hage). cbn.
  exists (touch (now_of e) entry). split; [|split; reflexivity].
  apply JsMapFacts.get_set_same.
Qed.

(** C1. Whenever the age of the entry stored under [key] exceeds [ttlMs],
    [get key] returns absent, deletes the entry, and adds one to the miss
    counter and one to the eviction counter; the time of the last read
    plays no part: an entry that has just been read (which sets its
    [lastAccessed] to that moment) is still reported absent by the next
    [get] whose clock reading is more than [ttlMs] after its creation. *)
Theorem get_expired_is_absent :
  forall (e : Env) (key : string) (entry : CacheEntry),
    Inv (this e) ->
    JsMap.get key (cache (this e)) = Some entry ->
    (now_of e - timestamp entry > ttlMs (config (this e)) ->
       fst (get key e) = None
       /\ cache (this (snd (get key e))) = JsMap.delete key (cache (this e))
       /\ JsMap.get key (cache (this (snd (get key e)))) = None
       /\ misses (stats (this (snd (get key e)))) = misses (stats (this e)) + 1
       /\ evictions (stats (this (snd (get key e)))) = evictions (stats (this e)) + 1)
    /\
    (now_of e - timestamp entry <= ttlMs (config (this e)) ->
       let e1 := snd (get key e) in
       fst (get key e) = Some (data entry)
       /\ (now_of e1 - timestamp entry > ttlMs (config (this e)) ->
             fst (get key e1) = None
             /\ JsMap.get key (cache (this (snd (get key e1)))) = None
             /\ misses (stats (this (snd (get key e1)))) = misses (stats (this e)) + 1
             /\ evictions (stats (this (snd (get key e1))))
                = evictions (stats (this e)) + 1)).
Proof.
  intros e key entry HI Hk.
  pose proof (Inv_nonempty_enabled _ _ _ HI Hk) as He.
  destruct HI as [Hwf _].
  split.
  - intros Hage. rewrite (get_expired e key entry He Hk Hage). cbn.
    repeat split; try reflexivity.
    now apply JsMapFacts.get_delete_same.
  - intros Hage e1.
    destruct (get_hit_keeps_timestamp e key entry He Hk Hage)
      as (entry' & Hk' & Hts & _).
    fold e1 in Hk'.
    assert (He1 : enabled (config (this e1)) = true).
    { unfold e1. now rewrite get_preserves_config. }
    assert (Hcfg : config (this e1) = config (this e)).
    { unfold e1. apply get_preserves_config. }
    split.
    + rewrite (get_hit e key entry He Hk Hage). reflexivity.
    + intros Hlate.
      assert (Hage' : now_of e1 - timestamp entry' > ttlMs (config (this e1))).
      { rewrite Hts, Hcfg. exact Hlate. }
      rewrite (get_expired e1 key entry' He1 Hk' Hage'). cbn.
      assert (Hwf1 : JsMap.wf (cache (this e1))).
      { unfold e1. rewrite (get_hit e key entry He Hk Hage). cbn.
        now apply JsMapFacts.wf_set. }
      repeat split; try reflexivity.
      * now apply JsMapFacts.get_delete_same.
      * unfold e1. rewrite (get_hit e key entry He Hk Hage). reflexivity.
      * unfold e1. rewrite (get_hit e key entry He Hk Hage). reflexivity.
Qed.

(** ** The scan of [evictLeastRecentlyUsed] *)

Lemma lruScan_from (m : JsMap.t CacheEntry) :
  forall (k0 : option string) (t0 : Z),
    fold_left lruStep m (k0, t0) =
    match lruEntry m with
    | Some ke =>
        if lastAccessed (snd ke) <? t0
        then (Some (fst ke), lastAccessed (snd ke))
        else (k0, t0)
    | None => (k0, t0)
    end.
Proof.
  induction m as [|x r IH]; intros k0 t0; cbn [fold_left lruEntry]; [reflexivity|].
  unfold lruStep at 2. cbn [snd fst].
  destruct (Z.ltb_spec (lastAccessed (snd x)) t0) as [Hx|Hx]; rewrite IH;
    destruct (lruEntry r) as [ke'|]; cbn [snd fst].
  - destruct (Z.ltb_spec (lastAccessed (snd ke')) (lastAccessed (snd x))).
    + destruct (Z.ltb_spec (lastAccessed (snd ke')) t0); [reflexivity|lia].
    + destruct (Z.ltb_spec (lastAccessed (snd x)) t0); [reflexivity|lia].
  - destruct (Z.ltb_spec (lastAccessed (snd x)) t0); [reflexivity|lia].
  - destruct (Z.ltb_spec (lastAccessed (snd ke')) t0).
    + destruct (Z.ltb_spec (lastAccessed (snd ke')) (lastAccessed (snd x))); [|lia].
      destruct (Z.ltb_spec (lastAccessed (snd ke')) t0); [reflexivity|lia].
    + destruct (Z.ltb_spec (lastAccessed (snd ke')) (lastAccessed (snd x))).
      * destruct (Z.ltb_spec (lastAccessed (snd ke')) t0); [lia|reflexivity].
      * destruct (Z.ltb_spec (lastAccessed (snd x)) t0); [lia|reflexivity].
  - destruct (Z.ltb_spec (lastAccessed (snd x)) t0); [lia|reflexivity].
Qed.

Lemma lruScan_spec (t : Z) (m : JsMap.t CacheEntry) :
  fst (lruScan t m) =
  match lruEntry m with
  | Some ke => if lastAccessed (snd ke) <? t then Some (fst ke) else None
  | None => None
  end.
Proof.
  unfold lruScan. rewrite lruScan_from.
  destruct (lruEntry m) as [ke|]; [|reflexivity].
  destruct (_ <? _); reflexivity.
Qed.

Lemma lruEntry_nonempty (m : JsMap.t CacheEntry) :
  m <> [] -> exists ke, lruEntry m = Some ke.
Proof.
  destruct m as [|x r]; [congruence|]. intros _. cbn.
  destruct (lruEntry r) as [ke'|]; [|eauto].
  destruct (_ <? _); eauto.
Qed.

(** The selected entry splits the map: everything before it was accessed
    strictly later, nothing after it was accessed earlier. *)
Lemma lruEntry_split (m : JsMap.t CacheEntry) (ke : string * CacheEntry) :
  lruEntry m = Some ke ->
  exists pre post,
    m = (pre ++ ke :: post)%list
    /\ (forall x, In x pre -> lastAccessed (snd ke) < lastAccessed (snd x))
    /\ (forall x, In x post -> lastAccessed (snd ke) <= lastAccessed (snd x)).
Proof.
  revert ke. induction m as [|x r IH]; intros ke; cbn [lruEntry]; [discriminate|].
  destruct (lruEntry r) as [ke'|] eqn:E.
  - destruct (IH ke' eq_refl) as (pre & post & -> & Hpre & Hpost).
    destruct (Z.ltb_spec (lastAccessed (snd ke')) (lastAccessed (snd x))) as [Hlt|Hge];
      intros [= <-].
    + exists (x :: pre), post. split; [reflexivity|]. split; [|assumption].
      intros y [<-|Hy]; [assumption|now apply Hpre].
    + exists [], (pre ++ ke' :: post)%list. split; [reflexivity|]. split; [easy|].
      intros y Hy. apply in_app_or in Hy. destruct Hy as [Hy|[<-|Hy]].
      * specialize (Hpre y Hy). lia.
      * assumption.
      * specialize (Hpost y Hy). lia.
  - intros [= <-]. destruct r as [|y r'].
    + exists [], []. repeat split; easy.
    + exfalso. destruct (lruEntry_nonempty (y :: r')) as [ke' Hke']; congruence.
Qed.

Lemma lruEntry_In (m : JsMap.t CacheEntry) (ke : string * CacheEntry) :
  lruEntry m = Some ke -> In ke m.
Proof.
  intros H. destruct (lruEntry_split m ke H) as (pre & post & -> & _).
  apply in_or_app. right. now left.
Qed.

Lemma delete_split {V : Type} (pre post : JsMap.t V) (k : string) (v : V) :
  JsMap.wf (pre ++ (k, v) :: post)%list ->
  JsMap.delete k (pre ++ (k, v) :: post)%list = (pre ++ post)%list.
Proof.
  unfold JsMap.wf, JsMap.keys.
  induction pre as [|[k' v'] pre IH]; cbn [app map fst JsMap.delete]; intros Hnd.
  - now rewrite String.eqb_refl.
  - inversion Hnd as [|? ? Hnotin Hnd']; subst.
    destruct (String.eqb k k') eqn:E.
    + apply String.eqb_eq in E. subst k'. exfalso. apply Hnotin.
      rewrite map_app. apply in_or_app. right. now left.
    + f_equal. now apply IH.
Qed.

(** ** [evictLeastRecentlyUsed] *)

Lemma evict_empty (e : Env) :
  cache (this e) = [] -> evictLeastRecentlyUsed e = (tt, e).
Proof.
  intros H. unfold evictLeastRecentlyUsed. run_method. rewrite H. cbn.
  destruct e; reflexivity.
Qed.

Lemma evict_selects (e : Env) (ke : string * CacheEntry) :
  lruEntry (cache (this e)) = Some ke ->
  fst ke <> EmptyString ->
  lastAccessed (snd ke) < now_of e ->
  evictLeastRecentlyUsed e =
  (tt, at_tick e (withStats incEvictions (withCache (JsMap.delete (fst ke)) (this e)))
               (S (ticks e))).
Proof.
  intros Hl Hk Ht. unfold evictLeastRecentlyUsed. run_method.
  destruct (Z.eqb_spec (JsMap.size (cache (this e))) 0) as [H0|H0].
  - apply JsMapFacts.size_zero in H0. rewrite H0 in Hl. discriminate.
  - cbn. rewrite lruScan_spec, Hl.
    unfold now_of in Ht.
    destruct (Z.ltb_spec (lastAccessed (snd ke)) (readings e (ticks e))); [|lia].
    destruct (fst ke) eqn:Ek; [congruence|]. reflexivity.
Qed.

Lemma evict_skips (e : Env) (ke : string * CacheEntry) :
  lruEntry (cache (this e)) = Some ke ->
  fst ke = EmptyString \/ now_of e <= lastAccessed (snd ke) ->
  evictLeastRecentlyUsed e = (tt, at_tick e (this e) (S (ticks e))).
Proof.
  intros Hl Hor. unfold evictLeastRecentlyUsed. run_method.
  destruct (Z.eqb_spec (JsMap.size (cache (this e))) 0) as [H0|H0].
  - apply JsMapFacts.size_zero in H0. rewrite H0 in Hl. discriminate.
  - cbn. rewrite lruScan_spec, Hl. unfold now_of in Hor.
    destruct (Z.ltb_spec (lastAccessed (snd ke)) (readings e (ticks e))).
    + destruct Hor as [Hk|Hge]; [|lia]. rewrite Hk. reflexivity.
    + reflexivity.
Qed.

Lemma evict_ticks (e : Env) :
  readings (snd (evictLeastRecentlyUsed e)) = readings e
  /\ (ticks e <= ticks (snd (evictLeastRecentlyUsed e)) <= S (ticks e))%nat.
Proof.
  unfold evictLeastRecentlyUsed. run_method.
  destruct (JsMap.size (cache (this e)) =? 0); cbn; [split; [reflexivity|lia]|].
  destruct (truthyKey _); cbn; split; try reflexivity; lia.
Qed.

(** An eviction either leaves the object as it is or removes exactly the
    entry [lruEntry] designates and counts it. *)
Lemma evict_cases (e : Env) :
  this (snd (evictLeastRecentlyUsed e)) = this e
  \/ exists ke,
       lruEntry (cache (this e)) = Some ke
       /\ fst ke <> EmptyString
       /\ lastAccessed (snd ke) < now_of e
       /\ this (snd (evictLeastRecentlyUsed e))
          = withStats incEvictions (withCache (JsMap.delete (fst ke)) (this e)).
Proof.
  destruct (lruEntry (cache (this e))) as [ke|] eqn:Hke.
  - destruct (string_dec (fst ke) EmptyString) as [Hk|Hk].
    + left. rewrite (evict_skips e ke Hke); [reflexivity|now left].
    + destruct (Z_lt_le_dec (lastAccessed (snd ke)) (now_of e)) as [Ht|Ht].
      * right. exists ke. rewrite (evict_selects e ke Hke Hk Ht). repeat split; auto.
      * left. rewrite (evict_skips e ke Hke); [reflexivity|now right].
  - left. rewrite evict_empty; [reflexivity|].
    destruct (cache (this e)) as [|x r] eqn:Ec; [reflexivity|].
    destruct (lruEntry_nonempty (x :: r)) as [ke Hke']; congruence.
Qed.

Lemma evict_preserves_config (e : Env) :
  config (this (snd (evictLeastRecentlyUsed e))) = config (this e).
Proof.
  destruct (evict_cases e) as [->|(ke & _ & _ & _ & ->)]; reflexivity.
Qed.

Lemma evict_preserves_wf (e : Env) :
  JsMap.wf (cache (this e)) ->
  JsMap.wf (cache (this (snd (evictLeastRecentlyUsed e)))).
Proof.
  intros Hwf.
  destruct (evict_cases e) as [->|(ke & _ & _ & _ & ->)]; [assumption|].
  cbn. now apply JsMapFacts.wf_delete.
Qed.

(** ** [set] *)

Lemma set_disabled (newData : ContactsData) (key : string) (e : Env) :
  enabled (config (this e)) = false -> set newData key e = (tt, e).
Proof.
  intros H. unfold set. run_method. rewrite H. reflexivity.
Qed.

Lemma set_enabled (newData : ContactsData) (key : string) (e : Env) :
  enabled (config (this e)) = true ->
  set newData key e =
  (tt, let e2 := afterCountCheck newData e in
       at_tick e2
         (updateStats (withCache (JsMap.set key (newEntry newData (now_of e))) (this e2)))
         (ticks e2)).
Proof.
  intros H.
  unfold set, afterCountCheck, afterMemoryCheck, bind, modify, gets, ret, when,
    Date_now, onThis, at_tick, now_of, newEntry.
  cbn -[evictLeastRecentlyUsed updateStats shouldEvictForMemory JsMap.size].
  rewrite H.
  cbn -[evictLeastRecentlyUsed updateStats shouldEvictForMemory JsMap.size].
  destruct (shouldEvictForMemory newData (this e)).
  - match goal with
    | |- context [evictLeastRecentlyUsed ?x] =>
        destruct (evictLeastRecentlyUsed x) as [[] e1] eqn:E1
    end.
    cbn -[evictLeastRecentlyUsed updateStats JsMap.size].
    destruct (_ >=? _).
    + destruct (evictLeastRecentlyUsed e1) as [[] e2] eqn:E2. reflexivity.
    + reflexivity.
  - cbn -[evictLeastRecentlyUsed updateStats JsMap.size].
    destruct (_ >=? _).
    + match goal with
      | |- context [evictLeastRecentlyUsed ?x] =>
          destruct (evictLeastRecentlyUsed x) as [[] e2] eqn:E2
      end.
      reflexivity.
    + reflexivity.
Qed.

(** ** The invariant is kept by every public method *)

Lemma afterCountCheck_facts (newData : ContactsData) (e : Env) :
  config (this (afterCountCheck newData e)) = config (this e)
  /\ (JsMap.wf (cache (this e)) -> JsMap.wf (cache (this (afterCountCheck newData e))))
  /\ readings (afterCountCheck newData e) = readings e.
Proof.
  unfold afterCountCheck, afterMemoryCheck.
  set (e0 := at_tick e (this e) (S (ticks e))).
  assert (H1 : forall x, config (this x) = config (this e) ->
                         (JsMap.wf (cache (this e)) -> JsMap.wf (cache (this x))) ->
                         readings x = readings e ->
                         config (this (snd (evictLeastRecentlyUsed x))) = config (this e)
                         /\ (JsMap.wf (cache (this e)) ->
                             JsMap.wf (cache (this (snd (evictLeastRecentlyUsed x)))))
                         /\ readings (snd (evictLeastRecentlyUsed x)) = readings e).
  { intros x Hc Hw Hr. rewrite evict_preserves_config.
    destruct (evict_ticks x) as [Hr' _]. rewrite Hr'.
    repeat split; auto. intros Hwf. apply evict_preserves_wf. auto. }
  assert (H0 : config (this e0) = config (this e)
               /\ (JsMap.wf (cache (this e)) -> JsMap.wf (cache (this e0)))
               /\ readings e0 = readings e) by (cbn; auto).
  destruct (shouldEvictForMemory newData (this e)).
  - destruct H0 as (A & B & C). destruct (H1 e0 A B C) as (A1 & B1 & C1).
    destruct (_ >=? _); [apply H1; assumption|auto].
  - destruct H0 as (A & B & C).
    destruct (_ >=? _); [apply H1; assumption|auto].
Qed.

Lemma Inv_get (key : string) (e : Env) :
  Inv (this e) -> Inv (this (snd (get key e))).
Proof.
  intros [Hwf Hoff].
  destruct (enabled (config (this e))) eqn:He.
  - destruct (JsMap.get key (cache (this e))) as [entry|] eqn:Hk.
    + destruct (Z_gt_le_dec (now_of e - timestamp entry) (ttlMs (config (this e))))
        as [Hage|Hage].
      * rewrite (get_expired e key entry He Hk Hage). split; cbn.
        -- now apply JsMapFacts.wf_delete.
        -- congruence.
      * rewrite (get_hit e key entry He Hk Hage). split; cbn.
        -- now apply JsMapFacts.wf_set.
        -- congruence.
    + rewrite (get_absent e key He Hk). split; cbn; [assumption|congruence].
  - rewrite (get_disabled e key He). split; cbn; auto.
Qed.

Lemma Inv_set (newData : ContactsData) (key : string) (e : Env) :
  Inv (this e) -> Inv (this (snd (set newData key e))).
Proof.
  intros [Hwf Hoff].
  destruct (enabled (config (this e))) eqn:He.
  - rewrite (set_enabled newData key e He). cbn.
    destruct (afterCountCheck_facts newData e) as (Hc & Hw & _).
    split; cbn.
    + apply JsMapFacts.wf_set. auto.
    + rewrite Hc. congruence.
  - rewrite (set_disabled newData key e He). split; cbn; auto.
Qed.

Lemma Inv_invalidate (key : option string) (e : Env) :
  Inv (this e) -> Inv (this (snd (invalidate key e))).
Proof.
  intros [Hwf Hoff]. unfold invalidate. run_method.
  destruct (truthyKey key); cbn; split; cbn.
  - now apply JsMapFacts.wf_delete.
  - intros H. now rewrite (Hoff H).
  - constructor.
  - reflexivity.
Qed.

Lemma Inv_updateConfig (newConfig : PartialConfig) (e : Env) :
  Inv (this e) -> Inv (this (snd (updateConfig newConfig e))).
Proof.
  intros [Hwf Hoff]. unfold updateConfig. run_method.
  destruct (enabled (config (this e))) eqn:He; cbn.
  - destruct (orElse (p_enabled newConfig) true) eqn:Hn; cbn; split; cbn;
      auto; try constructor; congruence.
  - rewrite (Hoff eq_refl) in *.
    destruct (orElse (p_enabled newConfig) false) eqn:Hn; cbn; split; cbn;
      rewrite ?(Hoff eq_refl); auto; constructor.
Qed.

Lemma Inv_mutateData (key : string) (f : ContactsData -> ContactsData)
      (c : ContactCache) :
  Inv c -> Inv (mutateData key f c).
Proof.
  intros [Hwf Hoff]. unfold mutateData.
  destruct (JsMap.get key (cache c)) as [entry|] eqn:Hk; [|now split].
  split; cbn.
  - now apply JsMapFacts.wf_set.
  - intros H. rewrite (Hoff H) in Hk. discriminate.
Qed.

Lemma Inv_destroy (e : Env) : Inv (this (snd (destroy e))).
Proof. unfold destroy. run_method. split; cbn; [constructor|reflexivity]. Qed.

Lemma expireFold_facts (now : Z) (l : list (string * CacheEntry)) :
  forall c,
    config (fold_left (expireStep now) l c) = config c
    /\ (JsMap.wf (cache c) -> JsMap.wf (cache (fold_left (expireStep now) l c))).
Proof.
  induction l as [|x r IH]; intros c; cbn [fold_left]; [auto|].
  destruct (IH (expireStep now c x)) as [Hc Hw]. rewrite Hc.
  split.
  - unfold expireStep. destruct (_ >? _); reflexivity.
  - intros Hwf. apply Hw. unfold expireStep.
    destruct (_ >? _); cbn; [now apply JsMapFacts.wf_delete|assumption].
Qed.

Lemma expireAll_facts (now : Z) (c : ContactCache) :
  config (expireAll now c) = config c
  /\ (JsMap.wf (cache c) -> JsMap.wf (cache (expireAll now c))).
Proof. apply expireFold_facts. Qed.

Lemma enforceMemoryLimit_facts (fuel : nat) :
  forall e e', enforceMemoryLimit fuel e = Some e' ->
    config (this e') = config (this e)
    /\ (JsMap.wf (cache (this e)) -> JsMap.wf (cache (this e')))
    /\ isOverMemoryLimit (this e') = false.
Proof.
  induction fuel as [|n IH]; intros e e'; cbn [enforceMemoryLimit];
    destruct (isOverMemoryLimit (this e)) eqn:Ho; try discriminate.
  - intros [= <-]. auto.
  - intros H. destruct (IH _ _ H) as (Hc & Hw & Hl).
    rewrite Hc, evict_preserves_config. repeat split; auto.
    intros Hwf. apply Hw. now apply evict_preserves_wf.
  - intros [= <-]. auto.
Qed.

Lemma Inv_cleanup (fuel : nat) (e e' : Env) :
  Inv (this e) -> cleanup fuel e = Some e' -> Inv (this e').
Proof.
  intros [Hwf Hoff]. unfold cleanup.
  destruct (enabled (config (this e))) eqn:He; cbn [negb].
  - unfold Date_now. cbn.
    destruct (enforceMemoryLimit fuel _) as [e3|] eqn:E; [|discriminate].
    intros [= <-]. destruct (enforceMemoryLimit_facts _ _ _ E) as (Hc & Hw & _).
    cbn in Hc, Hw. destruct (expireAll_facts (readings e (ticks e)) (this e)) as [Hc' Hw'].
    split; cbn.
    + auto.
    + rewrite Hc, Hc'. congruence.
  - intros [= <-]. split; cbn; auto.
Qed.

Lemma get_expired_is_absent_witness :
  (fst (get "k" staleEnv) = None
   /\ JsMap.get "k" (cache (this (snd (get "k" staleEnv)))) = None
   /\ misses (stats (this (snd (get "k" staleEnv)))) = 1
   /\ evictions (stats (this (snd (get "k" staleEnv)))) = 1)
  /\ (fst (get "k" warmEnv) = Some alice
      /\ fst (get "k" (snd (get "k" warmEnv))) = None).
Proof.
  split.
  - destruct (get_expired_is_absent staleEnv "k" (newEntry alice 1000)) as [HA _].
    + apply Inv_set, Inv_new.
    + reflexivity.
    + destruct HA as (H1 & _ & H3 & H4 & H5); [vm_compute; reflexivity|].
      repeat split; assumption.
  - destruct (get_expired_is_absent warmEnv "k" (newEntry alice 1000)) as [_ HB].
    + apply Inv_set, Inv_new.
    + reflexivity.
    + destruct HB as (H1 & H2); [vm_compute; discriminate|].
      destruct H2 as (H3 & _); [vm_compute; reflexivity|].
      split; assumption.
Defined.

(** ** Memory estimate *)

Lemma phonesSize_from (phones : list string) :
  forall acc, fold_left (fun sum phone => sum + strlen phone * 2) phones acc
              = acc + phonesSize phones.
Proof.
  unfold phonesSize.
  induction phones as [|p r IH]; intros acc; cbn [fold_left]; [lia|].
  rewrite IH, (IH (0 + _)). lia.
Qed.

Lemma phonesSize_nonneg (phones : list string) : 0 <= phonesSize phones.
Proof.
  induction phones as [|p r IH]; [cbn; lia|].
  unfold phonesSize at 1. cbn [fold_left]. rewrite phonesSize_from.
  unfold strlen. lia.
Qed.

Lemma addDataSize_from (d : ContactsData) :
  forall acc, addDataSize acc d = acc + dataBytes d.
Proof.
  unfold dataBytes, addDataSize.
  induction d as [|np r IH]; intros acc; cbn [fold_left]; [lia|].
  rewrite IH, (IH (0 + _ + _)). lia.
Qed.

Lemma dataBytes_nonneg (d : ContactsData) : 0 <= dataBytes d.
Proof.
  induction d as [|np r IH]; [unfold dataBytes; cbn; lia|].
  unfold dataBytes at 1. unfold addDataSize. cbn [fold_left].
  fold (addDataSize (0 + strlen (fst np) * 2 + phonesSize (snd np)) r).
  rewrite addDataSize_from.
  pose proof (phonesSize_nonneg (snd np)). unfold strlen. lia.
Qed.

Lemma totalSize_from (m : JsMap.t CacheEntry) :
  forall acc,
    fold_left (fun size ke => addDataSize size (data (snd ke)) + 200) m acc
    = acc + totalSize m.
Proof.
  unfold totalSize.
  induction m as [|ke r IH]; intros acc; cbn [fold_left]; [lia|].
  rewrite IH, (IH (addDataSize 0 _ + 200)), !addDataSize_from. lia.
Qed.

Lemma totalSize_cons (ke : string * CacheEntry) (m : JsMap.t CacheEntry) :
  totalSize (ke :: m) = dataBytes (data (snd ke)) + 200 + totalSize m.
Proof.
  unfold totalSize at 1. cbn [fold_left]. rewrite totalSize_from.
  fold (dataBytes (data (snd ke))). lia.
Qed.

Lemma totalSize_nonneg (m : JsMap.t CacheEntry) : 0 <= totalSize m.
Proof.
  induction m as [|ke r IH]; [cbn; lia|].
  rewrite totalSize_cons. pose proof (dataBytes_nonneg (data (snd ke))). lia.
Qed.

(** Comparisons of megabyte figures, brought back to bytes, for a ceiling
    that is a whole number of megabytes. *)
Lemma Qgtb_bytes (a b n : Z) :
  Qgtb (inject_Z a / MB + inject_Z b / MB)%Q (inject_Z n)
  = (n * 1048576 <? a + b).
Proof.
  unfold Qgtb, Qle_bool, Qplus, Qdiv, Qmult, Qinv, MB, inject_Z. cbn.
  destruct (Z.leb_spec ((a * 1 * 1048576 + b * 1 * 1048576) * 1) (n * 1099511627776));
    destruct (Z.ltb_spec (n * 1048576) (a + b)); cbn; try reflexivity; lia.
Qed.

Lemma shouldEvictForMemory_bytes (d : ContactsData) (c : ContactCache) (n : Z) :
  maxMemoryMB (config c) = inject_Z n ->
  shouldEvictForMemory d c = (n * 1048576 <? totalSize (cache c) + dataBytes d).
Proof.
  intros H. unfold shouldEvictForMemory, estimateMemoryUsage. rewrite H.
  apply Qgtb_bytes.
Qed.

(** ** [set] when nothing, or exactly the count check, evicts *)

Lemma set_plain (newData : ContactsData) (key : string) (e : Env) :
  enabled (config (this e)) = true ->
  shouldEvictForMemory newData (this e) = false ->
  JsMap.size (cache (this e)) < maxEntries (config (this e)) ->
  set newData key e =
  (tt, at_tick e
         (updateStats (withCache (JsMap.set key (newEntry newData (now_of e))) (this e)))
         (S (ticks e))).
Proof.
  intros He Hm Hn. rewrite (set_enabled _ _ _ He).
  unfold afterCountCheck, afterMemoryCheck. rewrite Hm. cbn.
  destruct (Z.geb_spec (JsMap.size (cache (this e))) (maxEntries (config (this e))));
    [lia|reflexivity].
Qed.

Lemma set_count_evicts (newData : ContactsData) (key : string) (e : Env)
      (ke : string * CacheEntry) :
  enabled (config (this e)) = true ->
  shouldEvictForMemory newData (this e) = false ->
  JsMap.size (cache (this e)) >= maxEntries (config (this e)) ->
  lruEntry (cache (this e)) = Some ke ->
  fst ke <> EmptyString ->
  lastAccessed (snd ke) < readings e (S (ticks e)) ->
  set newData key e =
  (tt, at_tick e
         (updateStats
            (withCache (JsMap.set key (newEntry newData (now_of e)))
               (withStats incEvictions (withCache (JsMap.delete (fst ke)) (this e)))))
         (S (S (ticks e)))).
Proof.
  intros He Hm Hn Hl Hk Ht. rewrite (set_enabled _ _ _ He).
  unfold afterCountCheck, afterMemoryCheck. rewrite Hm.
  cbn [at_tick this config].
  destruct (Z.geb_spec (JsMap.size (cache (this e))) (maxEntries (config (this e))));
    [|lia].
  rewrite (evict_selects (at_tick e (this e) (S (ticks e))) ke Hl Hk Ht).
  reflexivity.
Qed.

Lemma cache_new (cfg : PartialConfig) : cache (newContactCache cfg) = [].
Proof. unfold newContactCache. cbn. destruct (orElse _ _); reflexivity. Qed.

Lemma cache_updateStats (c : ContactCache) : cache (updateStats c) = cache c.
Proof. reflexivity. Qed.

Lemma config_updateStats (c : ContactCache) : config (updateStats c) = config c.
Proof. reflexivity. Qed.

(** What does hold of the order of eviction.  Whenever
    [evictLeastRecentlyUsed] removes an entry, that entry's [lastAccessed]
    is minimal among all entries, and among several minimal ones it is the
    first in iteration (insertion) order.  And with [maxEntries = 2] and a
    key [k2] other than the empty string: store [k1], store [k2], read [k1]
    at a strictly later clock reading (so that [k2] has the oldest
    [lastAccessed]), store [k3]; the store then holds [k1] and [k3], and
    [k2] has been evicted. *)
Theorem lru_eviction_removes_least_recent :
  (forall e : Env,
      JsMap.wf (cache (this e)) ->
      cache (this (snd (evictLeastRecentlyUsed e))) <> cache (this e) ->
      exists pre k entry post,
        cache (this e) = (pre ++ (k, entry) :: post)%list
        /\ cache (this (snd (evictLeastRecentlyUsed e))) = (pre ++ post)%list
        /\ (forall x, In x pre -> lastAccessed entry < lastAccessed (snd x))
        /\ (forall x, In x post -> lastAccessed entry <= lastAccessed (snd x)))
  /\
  (forall (rd : nat -> Z) (k1 k2 k3 : string) (d1 d2 d3 : ContactsData),
      k1 <> k2 -> k1 <> k3 -> k2 <> k3 -> k2 <> EmptyString ->
      (forall i j, (i <= j)%nat -> rd i <= rd j) ->
      rd 1%nat < rd 2%nat ->
      rd 2%nat - rd 0%nat <= ttlMs DEFAULT_CONFIG ->
      dataBytes d1 + dataBytes d2 + dataBytes d3 + 400 <= 50 * 1048576 ->
      let e1 := snd (set d1 k1 (freshEnv twoEntries rd)) in
      let e2 := snd (set d2 k2 e1) in
      let e3 := snd (get k1 e2) in
      let e4 := snd (set d3 k3 e3) in
      JsMap.keys (cache (this e3)) = [k1; k2]
      /\ JsMap.keys (cache (this e4)) = [k1; k3]
      /\ JsMap.get k2 (cache (this e4)) = None
      /\ JsMap.get k1 (cache (this e4)) = Some (touch (rd 2%nat) (newEntry d1 (rd 0%nat)))
      /\ JsMap.get k3 (cache (this e4)) = Some (newEntry d3 (rd 3%nat))
      /\ evictions (stats (this e4)) = 1).
Proof.
  split.
  - intros e Hwf Hchg.
    destruct (evict_cases e) as [Heq|(ke & Hl & _ & _ & Heq)].
    + rewrite Heq in Hchg. congruence.
    + destruct (lruEntry_split _ _ Hl) as (pre & post & Hm & Hpre & Hpost).
      destruct ke as [k entry]. exists pre, k, entry, post.
      rewrite Heq. cbn [cache withStats withCache fst].
      repeat split; auto.
      rewrite Hm. apply delete_split. now rewrite <- Hm.
  - intros rd k1 k2 k3 d1 d2 d3 H12 H13 H23 Hk2 Hmono H1lt2 Httl Hsize.
    pose proof (dataBytes_nonneg d1). pose proof (dataBytes_nonneg d2).
    pose proof (dataBytes_nonneg d3).
    assert (E12 : String.eqb k1 k2 = false) by now apply String.eqb_neq.
    assert (E21 : String.eqb k2 k1 = false) by (apply String.eqb_neq; congruence).
    assert (E31 : String.eqb k3 k1 = false) by (apply String.eqb_neq; congruence).
    assert (E32 : String.eqb k3 k2 = false) by (apply String.eqb_neq; congruence).
    assert (E23 : String.eqb k2 k3 = false) by now apply String.eqb_neq.
    assert (E13 : String.eqb k1 k3 = false) by now apply String.eqb_neq.
    intros e1 e2 e3 e4.
    (* first insertion *)
    assert (S1 : e1 = at_tick (freshEnv twoEntries rd)
                   (updateStats (withCache (JsMap.set k1 (newEntry d1 (rd 0%nat)))
                                           (newContactCache twoEntries))) 1).
    { unfold e1. rewrite set_plain; [reflexivity|reflexivity| |cbn; lia].
      rewrite (shouldEvictForMemory_bytes _ _ 50) by reflexivity.
      cbn [freshEnv this newContactCache cache]. cbn.
      apply Z.ltb_ge. lia. }
    assert (C1 : cache (this e1) = [(k1, newEntry d1 (rd 0%nat))]).
    { rewrite S1. cbn [at_tick this]. rewrite cache_updateStats.
      cbn [withCache cache]. now rewrite cache_new. }
    assert (G1 : config (this e1) = mergeConfig DEFAULT_CONFIG twoEntries).
    { rewrite S1. reflexivity. }
    assert (T1 : ticks e1 = 1%nat /\ readings e1 = rd) by (rewrite S1; now split).
    destruct T1 as [T1 R1].
    (* second insertion *)
    assert (S2 : e2 = at_tick e1
                   (updateStats (withCache (JsMap.set k2 (newEntry d2 (rd 1%nat))) (this e1)))
                   2).
    { unfold e2. rewrite set_plain.
      - unfold now_of. rewrite T1, R1. reflexivity.
      - now rewrite G1.
      - rewrite (shouldEvictForMemory_bytes _ _ 50) by (now rewrite G1).
        rewrite C1, totalSize_cons. cbn. apply Z.ltb_ge. lia.
      - rewrite C1, G1. cbn. lia. }
    assert (C2 : cache (this e2)
                 = [(k1, newEntry d1 (rd 0%nat)); (k2, newEntry d2 (rd 1%nat))]).
    { rewrite S2. cbn [at_tick this]. rewrite cache_updateStats.
      cbn [withCache cache]. rewrite C1. cbn. now rewrite E21. }
    assert (G2 : config (this e2) = mergeConfig DEFAULT_CONFIG twoEntries).
    { rewrite S2. cbn [at_tick this]. rewrite config_updateStats. exact G1. }
    (* the read of k1 *)
    assert (T2 : ticks e2 = 2%nat /\ readings e2 = rd) by (rewrite S2; now split).
    destruct T2 as [T2 R2].
    assert (S3 : e3 = at_tick e2
                   (updateStats
                      (withStats incHits
                         (withCache (JsMap.set k1 (touch (rd 2%nat) (newEntry d1 (rd 0%nat))))
                            (withStats incTotalQueries (this e2)))))
                   3).
    { unfold e3. rewrite (get_hit e2 k1 (newEntry d1 (rd 0%nat))).
      - unfold now_of. rewrite T2, R2. reflexivity.
      - rewrite G2. reflexivity.
      - rewrite C2. cbn. now rewrite String.eqb_refl.
      - unfold now_of. rewrite T2, R2, G2. exact Httl. }
    assert (C3 : cache (this e3)
                 = [(k1, touch (rd 2%nat) (newEntry d1 (rd 0%nat)));
                    (k2, newEntry d2 (rd 1%nat))]).
    { rewrite S3. cbn [at_tick this]. rewrite cache_updateStats.
      cbn [withStats withCache cache]. rewrite C2. cbn. now rewrite String.eqb_refl. }
    assert (G3 : config (this e3) = mergeConfig DEFAULT_CONFIG twoEntries).
    { rewrite S3. cbn [at_tick this]. rewrite config_updateStats. exact G2. }
    assert (T3 : ticks e3 = 3%nat /\ readings e3 = rd) by (rewrite S3; now split).
    destruct T3 as [T3 R3].
    assert (V3 : evictions (stats (this e3)) = 0) by (rewrite S3, S2, S1; reflexivity).
    (* the third insertion evicts k2 *)
    assert (L3 : lruEntry (cache (this e3)) = Some (k2, newEntry d2 (rd 1%nat))).
    { rewrite C3. cbn.
      destruct (Z.ltb_spec (rd 1%nat) (rd 2%nat)); [reflexivity|lia]. }
    assert (S4 : e4 = at_tick e3
                   (updateStats
                      (withCache (JsMap.set k3 (newEntry d3 (rd 3%nat)))
                         (withStats incEvictions
                            (withCache (JsMap.delete k2) (this e3)))))
                   5).
    { unfold e4. rewrite (set_count_evicts d3 k3 e3 (k2, newEntry d2 (rd 1%nat))).
      - unfold now_of. rewrite T3, R3. reflexivity.
      - now rewrite G3.
      - rewrite (shouldEvictForMemory_bytes _ _ 50) by (now rewrite G3).
        rewrite C3, !totalSize_cons. cbn. apply Z.ltb_ge. lia.
      - rewrite C3, G3. cbn. lia.
      - exact L3.
      - exact Hk2.
      - rewrite T3, R3. cbn. specialize (Hmono 2%nat 4%nat ltac:(lia)). lia. }
    assert (C4 : cache (this e4)
                 = [(k1, touch (rd 2%nat) (newEntry d1 (rd 0%nat)));
                    (k3, newEntry d3 (rd 3%nat))]).
    { rewrite S4. cbn [at_tick this]. rewrite cache_updateStats.
      cbn [withStats withCache cache]. rewrite C3. cbn.
      rewrite E21, String.eqb_refl. cbn. rewrite E31. reflexivity. }
    rewrite C3, C4. cbn.
    rewrite E21, E23, E13, String.eqb_refl, E31, String.eqb_refl.
    repeat split; try reflexivity.
    rewrite S4. cbn [at_tick this]. cbn. rewrite V3. reflexivity.
Qed.

Lemma lru_eviction_removes_least_recent_witness :
  JsMap.keys (cache (this (snd (set alice "k3" lruDemo)))) = ["k1"; "k3"]
  /\ exists pre k entry post,
       cache (this lruDemo) = (pre ++ (k, entry) :: post)%list
       /\ cache (this (snd (evictLeastRecentlyUsed lruDemo))) = (pre ++ post)%list
       /\ (forall x, In x pre -> lastAccessed entry < lastAccessed (snd x))
       /\ (forall x, In x post -> lastAccessed entry <= lastAccessed (snd x)).
Proof.
  split.
  - destruct (proj2 lru_eviction_removes_least_recent (steadyClock 1000 10)
                "k1" "k2" "k3" alice alice alice) as (_ & H & _);
      try discriminate.
    + intros i j Hij. unfold steadyClock. lia.
    + reflexivity.
    + exact H.
  - apply (proj1 lru_eviction_removes_least_recent lruDemo).
    + repeat constructor; cbn; intuition discriminate.
    + vm_compute. discriminate.
Defined.

Lemma set_count_skips (newData : ContactsData) (key : string) (e : Env)
      (ke : string * CacheEntry) :
  enabled (config (this e)) = true ->
  shouldEvictForMemory newData (this e) = false ->
  JsMap.size (cache (this e)) >= maxEntries (config (this e)) ->
  lruEntry (cache (this e)) = Some ke ->
  fst ke = EmptyString \/ readings e (S (ticks e)) <= lastAccessed (snd ke) ->
  set newData key e =
  (tt, at_tick e
         (updateStats
            (withCache (JsMap.set key (newEntry newData (now_of e))) (this e)))
         (S (S (ticks e)))).
Proof.
  intros He Hm Hn Hl Hskip. rewrite (set_enabled _ _ _ He).
  unfold afterCountCheck, afterMemoryCheck. rewrite Hm.
  cbn [at_tick this config].
  destruct (Z.geb_spec (JsMap.size (cache (this e))) (maxEntries (config (this e))));
    [|lia].
  rewrite (evict_skips (at_tick e (this e) (S (ticks e))) ke Hl Hskip).
  reflexivity.
Qed.

(** C4 fails on the code.  With [maxEntries = 2]: store [k1], store a
    snapshot under the empty string as [k2], read [k1] at a strictly later
    clock reading, store [k3].  The entry under the empty string is then the
    one with the oldest [lastAccessed] and the scan of
    [evictLeastRecentlyUsed] selects it, but [if (lruKey)] takes the empty
    string for no key: nothing is evicted, the store holds three entries
    against a limit of two, and the eviction counter stays at zero. *)
Theorem lru_victim_under_empty_key_is_kept :
  forall (rd : nat -> Z) (k1 k3 : string) (d1 d2 d3 : ContactsData),
    k1 <> EmptyString -> k3 <> EmptyString -> k1 <> k3 ->
    rd 1%nat < rd 2%nat ->
    rd 2%nat - rd 0%nat <= ttlMs DEFAULT_CONFIG ->
    dataBytes d1 + dataBytes d2 + dataBytes d3 + 400 <= 50 * 1048576 ->
    let e1 := snd (set d1 k1 (freshEnv twoEntries rd)) in
    let e2 := snd (set d2 "" e1) in
    let e3 := snd (get k1 e2) in
    let e4 := snd (set d3 k3 e3) in
    maxEntries (config (this e3)) = 2
    /\ JsMap.keys (cache (this e3)) = [k1; ""]
    /\ lruEntry (cache (this e3)) = Some ("", newEntry d2 (rd 1%nat))
    /\ JsMap.keys (cache (this e4)) = [k1; ""; k3]
    /\ JsMap.get "" (cache (this e4)) = Some (newEntry d2 (rd 1%nat))
    /\ JsMap.size (cache (this e4)) = 3
    /\ maxEntries (config (this e4)) = 2
    /\ evictions (stats (this e4)) = 0.
Proof.
  intros rd k1 k3 d1 d2 d3 Hk1 Hk3 H13 H1lt2 Httl Hsize.
  pose proof (dataBytes_nonneg d1). pose proof (dataBytes_nonneg d2).
  pose proof (dataBytes_nonneg d3).
  assert (E10 : String.eqb k1 "" = false) by now apply String.eqb_neq.
  assert (E01 : String.eqb "" k1 = false) by (apply String.eqb_neq; congruence).
  assert (E30 : String.eqb k3 "" = false) by now apply String.eqb_neq.
  assert (E03 : String.eqb "" k3 = false) by (apply String.eqb_neq; congruence).
  assert (E31 : String.eqb k3 k1 = false) by (apply String.eqb_neq; congruence).
  intros e1 e2 e3 e4.
  (* first insertion *)
  assert (S1 : e1 = at_tick (freshEnv twoEntries rd)
                 (updateStats (withCache (JsMap.set k1 (newEntry d1 (rd 0%nat)))
                                         (newContactCache twoEntries))) 1).
  { unfold e1. rewrite set_plain; [reflexivity|reflexivity| |cbn; lia].
    rewrite (shouldEvictForMemory_bytes _ _ 50) by reflexivity.
    cbn [freshEnv this newContactCache cache]. cbn.
    apply Z.ltb_ge. lia. }
  assert (C1 : cache (this e1) = [(k1, newEntry d1 (rd 0%nat))]).
  { rewrite S1. cbn [at_tick this]. rewrite cache_updateStats.
    cbn [withCache cache]. now rewrite cache_new. }
  assert (G1 : config (this e1) = mergeConfig DEFAULT_CONFIG twoEntries).
  { rewrite S1. reflexivity. }
  assert (T1 : ticks e1 = 1%nat /\ readings e1 = rd) by (rewrite S1; now split).
  destruct T1 as [T1 R1].
  (* second insertion, under the empty string *)
  assert (S2 : e2 = at_tick e1
                 (updateStats (withCache (JsMap.set "" (newEntry d2 (rd 1%nat))) (this e1)))
                 2).
  { unfold e2. rewrite set_plain.
    - unfold now_of. rewrite T1, R1. reflexivity.
    - now rewrite G1.
    - rewrite (shouldEvictForMemory_bytes _ _ 50) by (now rewrite G1).
      rewrite C1, totalSize_cons. cbn. apply Z.ltb_ge. lia.
    - rewrite C1, G1. cbn. lia. }
  assert (C2 : cache (this e2)
               = [(k1, newEntry d1 (rd 0%nat)); ("", newEntry d2 (rd 1%nat))]).
  { rewrite S2. cbn [at_tick this]. rewrite cache_updateStats.
    cbn [withCache cache]. rewrite C1. cbn -[String.eqb]. now rewrite E01. }
  assert (G2 : config (this e2) = mergeConfig DEFAULT_CONFIG twoEntries).
  { rewrite S2. cbn [at_tick this]. rewrite config_updateStats. exact G1. }
  assert (T2 : ticks e2 = 2%nat /\ readings e2 = rd) by (rewrite S2; now split).
  destruct T2 as [T2 R2].
  (* the read of k1 *)
  assert (S3 : e3 = at_tick e2
                 (updateStats
                    (withStats incHits
                       (withCache (JsMap.set k1 (touch (rd 2%nat) (newEntry d1 (rd 0%nat))))
                          (withStats incTotalQueries (this e2)))))
                 3).
  { unfold e3. rewrite (get_hit e2 k1 (newEntry d1 (rd 0%nat))).
    - unfold now_of. rewrite T2, R2. reflexivity.
    - rewrite G2. reflexivity.
    - rewrite C2. cbn. now rewrite String.eqb_refl.
    - unfold now_of. rewrite T2, R2, G2. exact Httl. }
  assert (C3 : cache (this e3)
               = [(k1, touch (rd 2%nat) (newEntry d1 (rd 0%nat)));
                  ("", newEntry d2 (rd 1%nat))]).
  { rewrite S3. cbn [at_tick this]. rewrite cache_updateStats.
    cbn [withStats withCache cache]. rewrite C2. cbn. now rewrite String.eqb_refl. }
  assert (G3 : config (this e3) = mergeConfig DEFAULT_CONFIG twoEntries).
  { rewrite S3. cbn [at_tick this]. rewrite config_updateStats. exact G2. }
  assert (T3 : ticks e3 = 3%nat /\ readings e3 = rd) by (rewrite S3; now split).
  destruct T3 as [T3 R3].
  assert (V3 : evictions (stats (this e3)) = 0) by (rewrite S3, S2, S1; reflexivity).
  (* the third insertion: the attempt selects the empty key and gives up *)
  assert (L3 : lruEntry (cache (this e3)) = Some ("", newEntry d2 (rd 1%nat))).
  { rewrite C3. cbn.
    destruct (Z.ltb_spec (rd 1%nat) (rd 2%nat)); [reflexivity|lia]. }
  assert (S4 : e4 = at_tick e3
                 (updateStats
                    (withCache (JsMap.set k3 (newEntry d3 (rd 3%nat))) (this e3)))
                 5).
  { unfold e4. rewrite (set_count_skips d3 k3 e3 ("", newEntry d2 (rd 1%nat))).
    - unfold now_of. rewrite T3, R3. reflexivity.
    - now rewrite G3.
    - rewrite (shouldEvictForMemory_bytes _ _ 50) by (now rewrite G3).
      rewrite C3, !totalSize_cons. cbn. apply Z.ltb_ge. lia.
    - rewrite C3, G3. cbn. lia.
    - exact L3.
    - left. reflexivity. }
  assert (C4 : cache (this e4)
               = [(k1, touch (rd 2%nat) (newEntry d1 (rd 0%nat)));
                  ("", newEntry d2 (rd 1%nat));
                  (k3, newEntry d3 (rd 3%nat))]).
  { rewrite S4. cbn [at_tick this]. rewrite cache_updateStats.
    cbn [withStats withCache cache]. rewrite C3. cbn.
    rewrite E31, E30. reflexivity. }
  assert (G4 : config (this e4) = mergeConfig DEFAULT_CONFIG twoEntries).
  { rewrite S4. cbn [at_tick this]. rewrite config_updateStats. exact G3. }
  rewrite G3, G4, L3, C3, C4. cbn -[String.eqb]. rewrite E01. cbn.
  repeat split; try reflexivity.
  rewrite S4. cbn [at_tick this]. cbn. exact V3.
Qed.

Lemma lru_victim_under_empty_key_is_kept_witness :
  let e3 := snd (get "k1" (snd (set alice "" (snd (set alice "k1"
                   (freshEnv twoEntries (steadyClock 1000 10))))))) in
  let e4 := snd (set alice "k3" e3) in
  maxEntries (config (this e3)) = 2
  /\ JsMap.keys (cache (this e3)) = ["k1"; ""]
  /\ lruEntry (cache (this e3)) = Some ("", newEntry alice (steadyClock 1000 10 1%nat))
  /\ JsMap.keys (cache (this e4)) = ["k1"; ""; "k3"]
  /\ JsMap.get "" (cache (this e4)) = Some (newEntry alice (steadyClock 1000 10 1%nat))
  /\ JsMap.size (cache (this e4)) = 3
  /\ maxEntries (config (this e4)) = 2
  /\ evictions (stats (this e4)) = 0.
Proof.
  apply (lru_victim_under_empty_key_is_kept (steadyClock 1000 10) "k1" "k3"
           alice alice alice);
    [discriminate | discriminate | discriminate
    | vm_compute; reflexivity | vm_compute; discriminate | vm_compute; discriminate].
Defined.

(** ** [set]: what is evicted *)

Lemma In_delete {V : Type} (k : string) (x : string * V) (m : JsMap.t V) :
  In x (JsMap.delete k m) -> In x m.
Proof.
  induction m as [|[k' v'] r IH]; cbn [JsMap.delete]; [easy|].
  destruct (String.eqb k k'); cbn [In]; intuition.
Qed.

Lemma size_delete_In {V : Type} (k : string) (m : JsMap.t V) :
  In k (JsMap.keys m) -> JsMap.size (JsMap.delete k m) = JsMap.size m - 1.
Proof.
  intros Hin. destruct (JsMap.get k m) as [v|] eqn:E.
  - now apply (JsMapFacts.size_delete_present k v).
  - apply JsMapFacts.get_None_notin in E. contradiction.
Qed.

Lemma withoutLru_size (m : JsMap.t CacheEntry) :
  JsMap.size (withoutLru m) = JsMap.size m - (if JsMap.size m =? 0 then 0 else 1).
Proof.
  unfold withoutLru. destruct (lruEntry m) as [ke|] eqn:E.
  - rewrite size_delete_In.
    + destruct (Z.eqb_spec (JsMap.size m) 0) as [H0|H0]; [|reflexivity].
      apply JsMapFacts.size_zero in H0. subst m. discriminate.
    + apply lruEntry_In in E. unfold JsMap.keys. now apply in_map.
  - destruct m as [|x r]; [reflexivity|].
    destruct (lruEntry_nonempty (x :: r)) as [ke Hke]; congruence.
Qed.

Lemma evictable_withoutLru (rd : nat -> Z) (n n' : nat) (m : JsMap.t CacheEntry) :
  (n <= n')%nat -> evictable rd n m -> evictable rd n' (withoutLru m).
Proof.
  intros Hn H k entry Hin.
  assert (Hin' : In (k, entry) m).
  { unfold withoutLru in Hin. destruct (lruEntry m); [now apply In_delete in Hin|assumption]. }
  destruct (H k entry Hin') as [Hk Ht]. split; [assumption|].
  intros i Hi. apply Ht. lia.
Qed.

Lemma evictable_later (rd : nat -> Z) (n n' : nat) (m : JsMap.t CacheEntry) :
  (n <= n')%nat -> evictable rd n m -> evictable rd n' m.
Proof.
  intros Hn H k entry Hin. destruct (H k entry Hin) as [Hk Ht].
  split; [assumption|]. intros i Hi. apply Ht. lia.
Qed.

(** On a store whose entries can all be selected, an eviction removes
    exactly the entry [lruEntry] designates, if there is one. *)
Lemma evict_evictable (e : Env) :
  evictable (readings e) (ticks e) (cache (this e)) ->
  exists n,
    evictLeastRecentlyUsed e
    = (tt, at_tick e
             (withStats (fun s => if JsMap.size (cache (this e)) =? 0 then s
                                  else incEvictions s)
                (withCache withoutLru (this e)))
             n)
    /\ (ticks e <= n <= S (ticks e))%nat.
Proof.
  intros Hev. destruct (cache (this e)) as [|x r] eqn:Ec.
  - exists (ticks e). split; [|lia]. rewrite evict_empty by assumption.
    destruct e as [[m cfg st tm] rd n]. cbn in *. subst m. reflexivity.
  - destruct (lruEntry_nonempty (x :: r)) as [ke Hke]; [discriminate|].
    rewrite <- Ec in Hke. pose proof (lruEntry_In _ _ Hke) as Hin.
    destruct ke as [k entry]. destruct (Hev k entry) as [Hk Ht].
    { now rewrite <- Ec. }
    exists (S (ticks e)). split; [|lia].
    rewrite (evict_selects e (k, entry) Hke Hk (Ht _ (Nat.le_refl _))).
    unfold at_tick, withStats, withCache, withoutLru. cbn [fst cache stats config cleanupTimer].
    rewrite Hke, Ec. reflexivity.
Qed.

Lemma evict_if_evictable (b : bool) (e : Env) :
  evictable (readings e) (ticks e) (cache (this e)) ->
  let e' := if b then snd (evictLeastRecentlyUsed e) else e in
  let m := cache (this e) in
  let m' := if b then withoutLru m else m in
  cache (this e') = m'
  /\ config (this e') = config (this e)
  /\ evictions (stats (this e')) = evictions (stats (this e)) + (JsMap.size m - JsMap.size m')
  /\ JsMap.size m - JsMap.size m' = (if b && negb (JsMap.size m =? 0) then 1 else 0)
  /\ readings e' = readings e
  /\ evictable (readings e') (ticks e') (cache (this e')).
Proof.
  intros Hev. destruct b; cbn zeta; cbn [andb].
  - destruct (evict_evictable e Hev) as (n & -> & Hn). cbn [snd at_tick this readings ticks].
    cbn [withStats withCache cache config stats].
    rewrite withoutLru_size.
    refine (conj eq_refl (conj eq_refl (conj _ (conj _ (conj eq_refl _))))).
    + destruct (JsMap.size (cache (this e)) =? 0); cbn [evictions incEvictions]; lia.
    + destruct (JsMap.size (cache (this e)) =? 0); cbn [negb]; lia.
    + apply (evictable_withoutLru _ (ticks e)); [lia|assumption].
  - refine (conj eq_refl (conj eq_refl (conj _ (conj _ (conj eq_refl Hev))))); lia.
Qed.

(** C2, as amended.  On a disabled store [set] changes nothing.  On an
    enabled store [set] makes one eviction attempt when the current
    estimate plus the estimated size of the incoming snapshot exceeds
    [maxMemoryMB] (a single check, not a loop), then one more when the
    entry count at that point is at least [maxEntries], and then inserts or
    overwrites the entry with [timestamp = now], [accessCount = 1],
    [lastAccessed = now].  An attempt on an empty store removes nothing;
    on a store whose entries all have a non-empty key and were last
    accessed before the attempt's clock reading it removes exactly the
    least recently used entry and counts one eviction. *)
Theorem set_evicts_then_inserts :
  forall (e : Env) (newData : ContactsData) (key : string),
    (enabled (config (this e)) = false -> set newData key e = (tt, e))
    /\
    (enabled (config (this e)) = true ->
     evictable (readings e) (S (ticks e)) (cache (this e)) ->
     let m0 := cache (this e) in
     let overMemory := shouldEvictForMemory newData (this e) in
     let m1 := if overMemory then withoutLru m0 else m0 in
     let atCapacity := JsMap.size m1 >=? maxEntries (config (this e)) in
     let m2 := if atCapacity then withoutLru m1 else m1 in
     let entry := {| data := newData; timestamp := now_of e;
                     accessCount := 1; lastAccessed := now_of e |} in
     let e' := snd (set newData key e) in
     cache (this e') = JsMap.set key entry m2
     /\ JsMap.get key (cache (this e')) = Some entry
     /\ JsMap.size m0 - JsMap.size m1
        = (if overMemory && negb (JsMap.size m0 =? 0) then 1 else 0)
     /\ JsMap.size m1 - JsMap.size m2
        = (if atCapacity && negb (JsMap.size m1 =? 0) then 1 else 0)
     /\ evictions (stats (this e'))
        = evictions (stats (this e)) + (JsMap.size m0 - JsMap.size m2)
     /\ config (this e') = config (this e)).
Proof.
  intros e newData key. split; [apply set_disabled|].
  intros He Hev m0 overMemory m1 atCapacity m2 entry e'.
  unfold e'. rewrite (set_enabled newData key e He).
  unfold afterCountCheck, afterMemoryCheck. fold overMemory.
  set (e0 := at_tick e (this e) (S (ticks e))).
  destruct (evict_if_evictable overMemory e0 Hev) as (C1 & G1 & V1 & N1 & R1 & Hev1).
  set (e1 := if overMemory then snd (evictLeastRecentlyUsed e0) else e0) in *.
  cbn [e0 at_tick this] in C1, G1, V1, N1. fold m0 in C1, V1, N1. fold m1 in C1, V1, N1.
  rewrite C1, G1. fold atCapacity.
  destruct (evict_if_evictable atCapacity e1 Hev1) as (C2 & G2 & V2 & N2 & R2 & _).
  set (e2 := if atCapacity then snd (evictLeastRecentlyUsed e1) else e1) in *.
  rewrite C1 in C2, V2, N2. fold m2 in C2, V2, N2.
  cbn [snd at_tick this]. rewrite cache_updateStats, config_updateStats.
  cbn [withCache cache config]. rewrite C2.
  refine (conj eq_refl (conj _ (conj _ (conj _ (conj _ _))))).
  - apply JsMapFacts.get_set_same.
  - exact N1.
  - exact N2.
  - cbn [updateStats withStats withCache stats evictions]. rewrite V2, V1. lia.
  - now rewrite G2, G1.
Qed.

(** C2 as stated fails on an empty store: the memory check fires for a
    snapshot that is over the ceiling on its own, and no entry is evicted,
    since there is none; the eviction counter stays at 0. *)
Lemma set_memory_check_on_empty_store :
  enabled (config (this emptyTinyEnv)) = true
  /\ cache (this emptyTinyEnv) = []
  /\ shouldEvictForMemory alice (this emptyTinyEnv) = true
  /\ evictions (stats (this (snd (set alice "k" emptyTinyEnv)))) = 0
  /\ cache (this (snd (set alice "k" emptyTinyEnv))) = [("k", newEntry alice 1000)].
Proof. vm_compute. repeat split; reflexivity. Qed.

Lemma lruDemo_evictable :
  evictable (readings lruDemo) (S (ticks lruDemo)) (cache (this lruDemo)).
Proof.
  intros k entry Hin. vm_compute in Hin.
  change (readings lruDemo) with (steadyClock 1000 10).
  change (ticks lruDemo) with 3%nat.
  destruct Hin as [H|[H|[]]]; injection H as <- <-; (split; [discriminate|]);
    intros i Hi; unfold steadyClock; cbn [lastAccessed]; lia.
Qed.

Lemma set_evicts_then_inserts_witness :
  (JsMap.keys (cache (this (snd (set alice "k3" lruDemo)))) = ["k1"; "k3"]
   /\ evictions (stats (this (snd (set alice "k3" lruDemo)))) = 1)
  /\ set alice "k" disabledEnv = (tt, disabledEnv).
Proof.
  split.
  - destruct (proj2 (set_evicts_then_inserts lruDemo alice "k3") eq_refl lruDemo_evictable)
      as (Hc & _ & _ & _ & Hv & _).
    split.
    + rewrite Hc. reflexivity.
    + rewrite Hv. reflexivity.
  - exact (proj1 (set_evicts_then_inserts disabledEnv alice "k") eq_refl).
Defined.

(** C10 fails on the code.  With [maxEntries = 2] and two entries, an
    overwrite of an existing key makes the eviction attempt but evicts
    nothing (a) when every entry was last accessed in the millisecond of
    the attempt, because the scan starts from [oldestAccess = Date.now()]
    and only accepts strictly older entries, and (b) when the least
    recently used entry is stored under the empty key, which [if (lruKey)]
    rejects. *)
Theorem overwrite_at_capacity_may_evict_nothing :
  (enabled (config (this sameMsEnv)) = true
   /\ JsMap.size (cache (this sameMsEnv)) >= maxEntries (config (this sameMsEnv))
   /\ JsMap.get "a" (cache (this sameMsEnv)) = Some (newEntry alice 1000)
   /\ JsMap.keys (cache (this (snd (set bob "a" sameMsEnv)))) = ["a"; "b"]
   /\ evictions (stats (this (snd (set bob "a" sameMsEnv)))) = 0)
  /\
  (enabled (config (this emptyKeyFullEnv)) = true
   /\ JsMap.size (cache (this emptyKeyFullEnv)) >= maxEntries (config (this emptyKeyFullEnv))
   /\ JsMap.get "b" (cache (this emptyKeyFullEnv)) = Some (newEntry alice 1010)
   /\ lruEntry (cache (this emptyKeyFullEnv)) = Some ("", newEntry alice 1000)
   /\ JsMap.keys (cache (this (snd (set bob "b" emptyKeyFullEnv)))) = [""; "b"]
   /\ evictions (stats (this (snd (set bob "b" emptyKeyFullEnv)))) = 0).
Proof. vm_compute. repeat split; try reflexivity; discriminate. Qed.

(** What does hold of an overwrite at capacity: when the entries can be
    selected by the scan, one of them is evicted although the map would not
    have grown, it may be an entry under another key, and the count drops
    below [maxEntries]. *)
Lemma overwrite_at_capacity_evicts :
  forall (e : Env) (newData : ContactsData) (k : string) (old : CacheEntry),
    enabled (config (this e)) = true ->
    JsMap.get k (cache (this e)) = Some old ->
    JsMap.size (cache (this e)) >= maxEntries (config (this e)) ->
    evictable (readings e) (S (ticks e)) (cache (this e)) ->
    evictions (stats (this (snd (set newData k e)))) >= evictions (stats (this e)) + 1.
Proof.
  intros e newData k old He Hk Hn Hev.
  rewrite (set_enabled newData k e He). unfold afterCountCheck, afterMemoryCheck.
  set (e0 := at_tick e (this e) (S (ticks e))).
  set (b1 := shouldEvictForMemory newData (this e)).
  destruct (evict_if_evictable b1 e0 Hev) as (C1 & G1 & V1 & N1 & R1 & Hev1).
  set (e1 := if b1 then snd (evictLeastRecentlyUsed e0) else e0) in *.
  set (b2 := JsMap.size (cache (this e1)) >=? maxEntries (config (this e1))).
  destruct (evict_if_evictable b2 e1 Hev1) as (C2 & G2 & V2 & N2 & _).
  cbn [snd at_tick this]. cbn [updateStats withStats withCache stats evictions].
  rewrite V2, V1, N2, N1.
  change (this e0) with (this e) in *.
  assert (Hpos : (JsMap.size (cache (this e)) =? 0) = false).
  { apply Z.eqb_neq. apply JsMapFacts.get_In in Hk. destruct (cache (this e)); [easy|].
    unfold JsMap.size. cbn [List.length]. lia. }
  rewrite Hpos. cbn [negb]. rewrite andb_true_r.
  destruct b1.
  - destruct (b2 && _); lia.
  - assert (Hb2 : b2 = true).
    { unfold b2. rewrite C1, G1. apply Z.geb_le. lia. }
    rewrite Hb2, C1, Hpos. cbn. lia.
Qed.

Example overwrite_at_capacity_drops_other_key :
  JsMap.size (cache (this lruDemo)) = maxEntries (config (this lruDemo))
  /\ JsMap.keys (cache (this lruDemo)) = ["k1"; "k2"]
  /\ JsMap.keys (cache (this (snd (set bob "k1" lruDemo)))) = ["k1"]
  /\ JsMap.size (cache (this (snd (set bob "k1" lruDemo))))
     < maxEntries (config (this lruDemo)).
Proof. vm_compute. repeat split; reflexivity. Qed.

(** ** [cleanup] *)

Lemma emptyKey_loop_never_ends (fuel : nat) :
  forall n, enforceMemoryLimit fuel (at_tick emptyKeyEnv (this emptyKeyEnv) n) = None.
Proof.
  induction fuel as [|fuel IH]; intros n; cbn [enforceMemoryLimit at_tick this].
  - reflexivity.
  - change (isOverMemoryLimit (this emptyKeyEnv)) with true. cbn iota.
    rewrite (evict_skips _ ("", newEntry alice 1000)); [|reflexivity|now left].
    apply IH.
Qed.

(** The first loop of [cleanup] keeps exactly the unexpired entries, in
    order, and counts one eviction for each entry it deletes. *)
Lemma expireFold_filter (now : Z) (l : list (string * CacheEntry)) :
  forall (done : list (string * CacheEntry)) (c : ContactCache),
    JsMap.wf (done ++ l)%list ->
    cache c = (done ++ l)%list ->
    let c' := fold_left (expireStep now) l c in
    cache c' = (done ++ filter (unexpired now (ttlMs (config c))) l)%list
    /\ config c' = config c
    /\ evictions (stats c')
       = evictions (stats c)
         + (JsMap.size l - JsMap.size (filter (unexpired now (ttlMs (config c))) l)).
Proof.
  induction l as [|[k v] r IH]; intros done c Hwf Hc; cbn [fold_left filter].
  - cbn zeta. rewrite Hc. repeat split. unfold JsMap.size. cbn. lia.
  - assert (Hstep : expireStep now c (k, v)
                    = if now - timestamp v >? ttlMs (config c)
                      then withStats incEvictions (withCache (JsMap.delete k) c)
                      else c) by reflexivity.
    assert (Hun : unexpired now (ttlMs (config c)) (k, v)
                  = negb (now - timestamp v >? ttlMs (config c))) by reflexivity.
    rewrite Hstep, Hun. clear Hstep Hun.
    destruct (now - timestamp v >? ttlMs (config c)) eqn:E; cbn [negb].
    + assert (Hwf' : JsMap.wf (done ++ r)%list).
      { unfold JsMap.wf, JsMap.keys in *. rewrite map_app in *. cbn [map] in Hwf.
        now apply NoDup_remove_1 in Hwf. }
      destruct (IH done (withStats incEvictions (withCache (JsMap.delete k) c)) Hwf')
        as (C & G & V).
      { cbn [withStats withCache cache]. rewrite Hc. now apply delete_split. }
      cbn [withStats withCache config stats evictions incEvictions] in C, G, V.
      cbv zeta. refine (conj C (conj G _)). rewrite V.
      unfold JsMap.size. cbn [List.length]. lia.
    + destruct (IH (done ++ [(k, v)])%list c) as (C & G & V).
      { now rewrite <- app_assoc. }
      { now rewrite <- app_assoc. }
      rewrite <- app_assoc in C. cbn [app] in C.
      cbv zeta. refine (conj C (conj G _)). rewrite V.
      unfold JsMap.size. cbn [List.length]. lia.
Qed.

Lemma overLimit_empty (cfg : CacheConfig) :
  (0 <= maxMemoryMB cfg)%Q -> overLimit cfg [] = false.
Proof.
  intros H. unfold overLimit, Qgtb. apply negb_false_iff, Qle_bool_iff.
  unfold Qle in *. cbn in *. lia.
Qed.

Lemma iter_shift {A : Type} (f : A -> A) (n : nat) (x : A) :
  Nat.iter (S n) f x = Nat.iter n f (f x).
Proof. induction n as [|n IH]; [reflexivity|]. cbn in *. now rewrite IH. Qed.

(** On a store whose entries can all be selected, the second loop of
    [cleanup] ends within as many iterations as there are entries, having
    evicted the least recently used entry as long as the estimate was over
    the ceiling. *)
Lemma enforceMemoryLimit_ends (fuel : nat) :
  forall e : Env,
    evictable (readings e) (ticks e) (cache (this e)) ->
    (0 <= maxMemoryMB (config (this e)))%Q ->
    (List.length (cache (this e)) <= fuel)%nat ->
    exists e' k,
      enforceMemoryLimit fuel e = Some e'
      /\ cache (this e') = Nat.iter k withoutLru (cache (this e))
      /\ config (this e') = config (this e)
      /\ isOverMemoryLimit (this e') = false
      /\ (forall j, (j < k)%nat ->
            overLimit (config (this e)) (Nat.iter j withoutLru (cache (this e))) = true)
      /\ evictions (stats (this e'))
         = evictions (stats (this e))
           + (JsMap.size (cache (this e)) - JsMap.size (cache (this e'))).
Proof.
  induction fuel as [|fuel IH]; intros e Hev Hmax Hlen.
  - assert (Hc : cache (this e) = []) by (destruct (cache (this e)); [easy|cbn in Hlen; lia]).
    exists e, 0%nat. cbn [enforceMemoryLimit Nat.iter].
    assert (Ho : isOverMemoryLimit (this e) = false).
    { change (isOverMemoryLimit (this e)) with (overLimit (config (this e)) (cache (this e))).
      rewrite Hc. now apply overLimit_empty. }
    rewrite Ho. repeat split; lia.
  - cbn [enforceMemoryLimit].
    destruct (isOverMemoryLimit (this e)) eqn:Ho.
    + assert (Hne : (JsMap.size (cache (this e)) =? 0) = false).
      { apply Z.eqb_neq. intros H0. apply JsMapFacts.size_zero in H0.
        change (isOverMemoryLimit (this e))
          with (overLimit (config (this e)) (cache (this e))) in Ho.
        rewrite H0, overLimit_empty in Ho by assumption. discriminate. }
      destruct (evict_evictable e Hev) as (n & He1 & Hn).
      rewrite He1. cbn [snd]. rewrite Hne in *.
      destruct (IH (at_tick e (withStats incEvictions (withCache withoutLru (this e))) n))
        as (e' & k & Hrun & C & G & O & J & V);
        cbn [at_tick this readings ticks withStats withCache cache config stats
             evictions incEvictions] in *.
      * apply (evictable_withoutLru _ (ticks e)); [lia|exact Hev].
      * exact Hmax.
      * pose proof (withoutLru_size (cache (this e))) as Hs. rewrite Hne in Hs.
        unfold JsMap.size in Hs. lia.
      * exists e', (S k). rewrite iter_shift.
        refine (conj Hrun (conj C (conj G (conj O (conj _ _))))).
        -- intros [|j] Hj.
           ++ exact Ho.
           ++ rewrite iter_shift. apply J. lia.
        -- rewrite V. pose proof (withoutLru_size (cache (this e))) as Hs.
           rewrite Hne in Hs. lia.
    + exists e, 0%nat. cbn [Nat.iter]. repeat split; try lia; assumption.
Qed.

(** What [cleanup] does on an enabled store whose entries have non-empty
    keys and were last accessed before the sweep: it returns, with the
    expired entries deleted and counted, then least recently used entries
    evicted one at a time while the estimate was over the ceiling. *)
Lemma cleanup_on_evictable_store (e : Env) :
  enabled (config (this e)) = true ->
  JsMap.wf (cache (this e)) ->
  evictable (readings e) (S (ticks e)) (cache (this e)) ->
  (0 <= maxMemoryMB (config (this e)))%Q ->
  let kept := filter (unexpired (now_of e) (ttlMs (config (this e)))) (cache (this e)) in
  exists e' k,
    cleanup (List.length (cache (this e))) e = Some e'
    /\ cache (this e') = Nat.iter k withoutLru kept
    /\ isOverMemoryLimit (this e') = false
    /\ (forall j, (j < k)%nat ->
          overLimit (config (this e)) (Nat.iter j withoutLru kept) = true)
    /\ evictions (stats (this e'))
       = evictions (stats (this e))
         + (JsMap.size (cache (this e)) - JsMap.size (cache (this e'))).
Proof.
  intros He Hwf Hev Hmax kept. unfold cleanup. rewrite He. cbn [negb].
  unfold Date_now. cbv iota beta. fold (now_of e).
  destruct (expireFold_filter (now_of e) (cache (this e)) [] (this e) Hwf eq_refl)
    as (C & G & V).
  cbn [app] in C. fold kept in C, V.
  set (e2 := onThis (expireAll (now_of e)) _).
  assert (C2 : cache (this e2) = kept) by exact C.
  assert (G2 : config (this e2) = config (this e)) by exact G.
  destruct (enforceMemoryLimit_ends (List.length (cache (this e))) e2)
    as (e3 & k & Hrun & C3 & G3 & O3 & J3 & V3).
  - rewrite C2. intros key entry Hin. apply (Hev key entry).
    unfold kept in Hin. now apply filter_In in Hin.
  - now rewrite G2.
  - rewrite C2. unfold kept. apply filter_length_le.
  - rewrite Hrun. exists (onThis updateStats e3), k.
    cbn [onThis this]. rewrite cache_updateStats.
    refine (conj eq_refl (conj _ (conj O3 (conj _ _)))).
    + now rewrite C3, C2.
    + intros j Hj. rewrite <- G2, <- C2. now apply J3.
    + cbn [updateStats withStats stats evictions]. rewrite V3.
      change (evictions (stats (this e2)))
        with (evictions (stats (fold_left (expireStep (now_of e)) (cache (this e)) (this e)))).
      rewrite V, C2. lia.
Qed.

(** C3 fails on the code.  One entry stored under the empty key, 216
    estimated bytes against a ceiling of about 105: the entry is not
    expired, the store is over the ceiling, and the loop of [cleanup] selects
    the empty key, which [if (lruKey)] rejects, so nothing is evicted and the
    condition of the loop stays true: for no bound on the number of
    iterations does [cleanup] return, although the clock advances. *)
Theorem cleanup_never_returns_with_empty_key :
  enabled (config (this emptyKeyEnv)) = true
  /\ JsMap.keys (cache (this emptyKeyEnv)) = [""]
  /\ isOverMemoryLimit (this emptyKeyEnv) = true
  /\ forall fuel, cleanup fuel emptyKeyEnv = None.
Proof.
  split; [reflexivity|]. split; [reflexivity|]. split; [reflexivity|].
  intros fuel. unfold cleanup.
  change (enabled (config (this emptyKeyEnv))) with true. cbn [negb].
  change (Date_now emptyKeyEnv) with (1010, at_tick emptyKeyEnv (this emptyKeyEnv) 2).
  cbv iota beta.
  change (onThis (expireAll 1010) (at_tick emptyKeyEnv (this emptyKeyEnv) 2))
    with (at_tick emptyKeyEnv (this emptyKeyEnv) 2).
  now rewrite emptyKey_loop_never_ends.
Qed.

(** ** Statistics *)

Lemma updateStats_hitRate (c : ContactCache) :
  hitRate (stats (updateStats c))
  = (if totalQueries (stats c) >? 0 then percentage (stats c) else 0%Q)
  /\ hits (stats (updateStats c)) = hits (stats c)
  /\ totalQueries (stats (updateStats c)) = totalQueries (stats c).
Proof. repeat split. Qed.

(** C5 as stated fails on the code: after one [set] and one [get] that
    hits, [hits = 1] and [totalQueries = 1], so [hits / totalQueries] is 1,
    and the reported [hitRate] is 100: the rate is a percentage. *)
Lemma hitRate_is_not_the_plain_ratio :
  let s := stats (this (runOps [OpSet alice "k"; OpGet "k"] defaultEnv)) in
  hits s = 1 /\ totalQueries s = 1
  /\ (hitRate s == 100)%Q
  /\ ~ (hitRate s == inject_Z (hits s) / inject_Z (totalQueries s))%Q.
Proof.
  vm_compute. repeat split; try reflexivity. intros H. discriminate H.
Qed.

(** C5, as amended.  After any sequence of [get] and [set] operations whose
    last operation recomputes the statistics, the [hitRate] reported by
    [getStats] is [(hits / totalQueries) * 100], a percentage, and it is 0
    when [totalQueries] is 0. *)
Theorem hitRate_is_percentage_of_hits :
  forall (ops : list Op) (op : Op) (e0 : Env),
    recomputesStats (runOps ops e0) op = true ->
    let s := fst (getStats (runOps (ops ++ [op]) e0)) in
    (totalQueries s > 0 -> hitRate s = percentage s)
    /\ (totalQueries s = 0 -> hitRate s = 0%Q).
Proof.
  intros ops op e0 Hrec. unfold runOps. rewrite fold_left_app. cbn [fold_left].
  fold (runOps ops e0). set (e := runOps ops e0) in *.
  unfold recomputesStats in Hrec. apply andb_prop in Hrec. destruct Hrec as [He Hop].
  assert (Hupd : exists c, this (step e op) = updateStats c).
  { destruct op as [key|newData key]; cbn [step].
    - destruct (JsMap.get key (cache (this e))) as [entry|] eqn:Hk; [|discriminate].
      destruct (Z_gt_le_dec (now_of e - timestamp entry) (ttlMs (config (this e)))) as [Ha|Ha].
      + rewrite (get_expired e key entry He Hk Ha). cbn [snd at_tick this]. eauto.
      + rewrite (get_hit e key entry He Hk Ha). cbn [snd at_tick this]. eauto.
    - rewrite (set_enabled newData key e He). cbn [snd at_tick this]. eauto. }
  destruct Hupd as [c Hc]. unfold getStats, gets. cbn [fst]. rewrite Hc.
  destruct (updateStats_hitRate c) as (Hr & Hh & Ht).
  unfold percentage. rewrite Hr, Hh, Ht. unfold percentage.
  split; intros H.
  - destruct (Z.gtb_spec (totalQueries (stats c)) 0); [reflexivity|lia].
  - rewrite H. reflexivity.
Qed.

Lemma hitRate_is_percentage_of_hits_witness :
  let s := fst (getStats (runOps ([OpSet alice "k"; OpGet "k"] ++ [OpGet "k"]) defaultEnv)) in
  hitRate s = percentage s /\ (hitRate s == 100)%Q.
Proof.
  destruct (hitRate_is_percentage_of_hits [OpSet alice "k"; OpGet "k"] (OpGet "k")
              defaultEnv eq_refl) as [H _].
  split.
  - apply H. reflexivity.
  - reflexivity.
Defined.

(** The rate is not recomputed by a [get] on a disabled store or for a key
    that is not stored: here one hit is followed by one such miss, and the
    reported rate is still that of the single query before it. *)
Example hitRate_not_recomputed_on_plain_miss :
  let s := stats (this (runOps [OpSet alice "k"; OpGet "k"; OpGet "other"] defaultEnv)) in
  hits s = 1 /\ totalQueries s = 2 /\ (hitRate s == 100)%Q /\ (percentage s == 50)%Q.
Proof. vm_compute. repeat split; reflexivity. Qed.

(** ** Disabling the store *)

Lemma updateConfig_disable (newConfig : PartialConfig) (e : Env) :
  enabled (config (this e)) = true ->
  p_enabled newConfig = Some false ->
  updateConfig newConfig e =
  (tt, onThis (fun c =>
                 withCache (fun _ => JsMap.empty)
                   (stopCleanupTimer (withConfig (mergeConfig (config c) newConfig) c)))
              e).
Proof.
  intros He Hn. unfold updateConfig. run_method. rewrite He, Hn. reflexivity.
Qed.

(** Disabling an enabled store stops the sweeper and removes every entry,
    and leaves the statistics as they were; every later [get] is a miss
    that leaves the entry count of the statistics untouched as well. *)
Lemma disable_clears_entries_not_stats (newConfig : PartialConfig) (e : Env) :
  enabled (config (this e)) = true ->
  p_enabled newConfig = Some false ->
  let e' := snd (updateConfig newConfig e) in
  cache (this e') = []
  /\ cleanupTimer (this e') = None
  /\ enabled (config (this e')) = false
  /\ stats (this e') = stats (this e)
  /\ forall key,
       fst (get key e') = None
       /\ misses (stats (this (snd (get key e')))) = misses (stats (this e')) + 1
       /\ currentEntries (stats (this (snd (get key e'))))
          = currentEntries (stats (this e)).
Proof.
  intros He Hn e'. unfold e'. rewrite (updateConfig_disable newConfig e He Hn).
  cbn [snd onThis this withCache stopCleanupTimer withTimer withConfig cache cleanupTimer
       config stats mergeConfig enabled].
  rewrite Hn. cbn [orElse].
  repeat split; rewrite get_disabled by (cbn; now rewrite Hn); reflexivity.
Qed.

(** C6 fails on the code.  A default store with one entry, so that
    [currentEntries] is 1, is disabled: the map is cleared and the timer
    stopped, but [updateConfig] does not call [updateStats] (as [invalidate]
    and [destroy] do after clearing), and [getStats().currentEntries] is
    still 1, also after a later [get]. *)
Theorem disable_leaves_currentEntries_stale :
  JsMap.size (cache (this (snd (set alice "k" defaultEnv)))) = 1
  /\ cache (this disabledAfterUse) = []
  /\ cleanupTimer (this disabledAfterUse) = None
  /\ currentEntries (fst (getStats disabledAfterUse)) = 1
  /\ fst (get "k" disabledAfterUse) = None
  /\ currentEntries (fst (getStats (snd (get "k" disabledAfterUse)))) = 1
  /\ currentEntries (fst (getStats (snd (invalidate None (snd (set alice "k" defaultEnv)))))) = 0
  /\ currentEntries (fst (getStats (snd (destroy (snd (set alice "k" defaultEnv)))))) = 0.
Proof. vm_compute. repeat split; reflexivity. Qed.

(** ** Phone matching *)

(** C8 fails on the code.  The test of the cached search accepts a stored
    number that is the searched one prefixed with ["+"], and not the
    converse: a search for ["5551234567"] finds the contact stored with
    ["+5551234567"], a search for ["+5551234567"] does not find the contact
    stored with ["5551234567"].  End to end, with Bob cached under
    ["5551234567"]: [findContactByPhone "5551234567"] is answered from the
    cache, [findContactByPhone "+5551234567"] finds nobody, after one more
    scan of the contact list. *)
Theorem phone_matching_is_not_symmetric :
  matchesStored "5551234567" "+5551234567" = true
  /\ matchesStored "+5551234567" "5551234567" = false
  /\ fst (callCache (get "allContacts") bobWorld) = Some [("Bob", ["5551234567"])]
  /\ fst (findContactByPhone "5551234567" bobWorld) = Returned (Some "Bob")
  /\ jxaRuns (snd (findContactByPhone "5551234567" bobWorld)) = jxaRuns bobWorld
  /\ fst (findContactByPhone "+5551234567" bobWorld) = Returned None
  /\ jxaRuns (snd (findContactByPhone "+5551234567" bobWorld)) = S (jxaRuns bobWorld).
Proof. vm_compute. repeat split; reflexivity. Qed.

(** The three forms the specification lists do match one another. *)
Example listed_forms_match_each_other :
  forallb (fun searched =>
             forallb (matchesStored searched)
                     ["+15551234567"; "5551234567"; "(555) 123-4567"])
          ["+15551234567"; "5551234567"; "(555) 123-4567"]
  = true.
Proof. reflexivity. Qed.

(** ** Errors of the directory service *)

Lemma callCache_frame {A : Type} (m : State Env A) (w : World) :
  directory (snd (callCache m w)) = directory w
  /\ jxaRuns (snd (callCache m w)) = jxaRuns w
  /\ scriptRuns (snd (callCache m w)) = scriptRuns w
  /\ clock (snd (callCache m w)) = clock w.
Proof.
  unfold callCache, getContactCache, runMethod, bind, gets, modify, ret, setGlobal.
  destruct (globalCache w); cbn; destruct (m _); cbn; auto.
Qed.

Lemma checkContactsAccess_denied (w : World) :
  accessGranted (directory w) = false ->
  checkContactsAccess w = (Thrown accessDeniedMessage, countScript w).
Proof.
  intros H. unfold checkContactsAccess, bind, modify, gets, throwE, ret. cbn.
  now rewrite H.
Qed.

Lemma findContactByPhone_denied (phoneNumber : string) (w : World) :
  accessGranted (directory w) = false ->
  fst (findContactByPhone phoneNumber w) = Returned None
  /\ jxaRuns (snd (findContactByPhone phoneNumber w)) = jxaRuns w
  /\ globalCache (snd (findContactByPhone phoneNumber w)) = globalCache w.
Proof.
  intros H.
  unfold findContactByPhone, findContactByPhoneOptimized, tryCatch, bindE, bind, ret, retE.
  destruct (validatePhoneNumber phoneNumber) as [sanitized|msg]; cbn [fst snd].
  - rewrite (checkContactsAccess_denied w H). cbn. auto.
  - cbn. auto.
Qed.

Lemma scanPeople_skips_unreadable (searchFormats : list string) (ps : list Person) :
  scanPeople searchFormats ps = scanPeople searchFormats (filter readable ps).
Proof.
  induction ps as [|[n phones|] r IH]; cbn [filter readable scanPeople]; [reflexivity| |exact IH].
  now rewrite IH.
Qed.

Lemma collectNumbers_skips_unreadable (ps : list Person) :
  forall acc, collectNumbers acc ps = collectNumbers acc (filter readable ps).
Proof.
  induction ps as [|[n phones|] r IH]; intros acc; cbn [filter readable collectNumbers];
    [reflexivity| |apply IH].
  now rewrite !IH.
Qed.

Lemma searchByName_skips_unreadable (searchName : string) (ps : list Person) :
  searchByName searchName ps = searchByName searchName (filter readable ps).
Proof.
  induction ps as [|[n phones|] r IH]; cbn [filter readable searchByName]; [reflexivity| |exact IH].
  now rewrite IH.
Qed.

(** C9 as stated fails on the code: with access denied,
    [findContactByPhone] reports absent; no error reaches the caller. *)
Lemma findContactByPhone_swallows_access_error :
  accessGranted (directory deniedWorld) = false
  /\ fst (checkContactsAccess deniedWorld) = Thrown accessDeniedMessage
  /\ fst (findContactByPhone "5551234567" deniedWorld) = Returned None.
Proof. vm_compute. repeat split; reflexivity. Qed.

(** C9, as amended.  When access to the Contacts application is denied,
    the access check raises a distinct, descriptive error; [findNumber]
    passes it on to the caller, as does [getAllNumbers] whenever it has to
    consult the application (a cached snapshot is returned without
    consulting it); [findContactByPhone] reports absent instead, by design,
    and never raises.  A record that cannot be read is skipped by every
    scan of the contact list, without failing the query. *)
Theorem access_denied_is_reported :
  forall (w : World),
    accessGranted (directory w) = false ->
    fst (checkContactsAccess w) = Thrown accessDeniedMessage
    /\ (forall name sanitizedName,
          validateContactName name = Returned sanitizedName ->
          fst (findNumber name w)
          = Thrown ("Error finding contact: " ++ accessDeniedMessage))
    /\ (forall name, exists msg, fst (findNumber name w) = Thrown msg)
    /\ (match fst (callCache (get "allContacts") w) with
        | Some cached => fst (getAllNumbers w) = Returned cached
        | None => fst (getAllNumbers w)
                  = Thrown ("Error accessing contacts: " ++ accessDeniedMessage)
        end)
    /\ (forall phoneNumber, fst (findContactByPhone phoneNumber w) = Returned None)
    /\ (forall searchFormats ps acc searchName,
          scanPeople searchFormats ps = scanPeople searchFormats (filter readable ps)
          /\ collectNumbers acc ps = collectNumbers acc (filter readable ps)
          /\ searchByName searchName ps = searchByName searchName (filter readable ps)).
Proof.
  intros w H.
  assert (Hf : forall name,
             fst (findNumber name w)
             = match validateContactName name with
               | Returned _ => Thrown ("Error finding contact: " ++ accessDeniedMessage)
               | Thrown msg => Thrown ("Error finding contact: " ++ msg)
               end).
  { intros name. unfold findNumber, tryCatch, bindE, bind, ret, retE, throwE.
    destruct (validateContactName name) as [sanitized|msg]; cbn [fst snd].
    - rewrite (checkContactsAccess_denied w H). reflexivity.
    - reflexivity. }
  split; [now rewrite checkContactsAccess_denied|].
  split; [intros name sanitizedName Hv; now rewrite Hf, Hv|].
  split; [intros name; rewrite Hf; destruct (validateContactName name); eauto|].
  split.
  - unfold getAllNumbers, tryCatch, bindE, bind, ret, retE, throwE.
    destruct (callCache (get "allContacts") w) as [[cached|] w1] eqn:E; cbn [fst].
    + reflexivity.
    + rewrite checkContactsAccess_denied; [reflexivity|].
      destruct (callCache_frame (get "allContacts") w) as [Hd _].
      rewrite E in Hd. cbn in Hd. now rewrite Hd.
  - split; [intros p; now apply findContactByPhone_denied|].
    intros sf ps acc sn. split; [apply scanPeople_skips_unreadable|].
    split; [apply collectNumbers_skips_unreadable|apply searchByName_skips_unreadable].
Qed.

Lemma access_denied_is_reported_witness :
  fst (findNumber "Bob" deniedWorld)
  = Thrown ("Error finding contact: " ++ accessDeniedMessage)
  /\ fst (getAllNumbers deniedWorld)
     = Thrown ("Error accessing contacts: " ++ accessDeniedMessage)
  /\ fst (findContactByPhone "5551234567" deniedWorld) = Returned None.
Proof.
  destruct (access_denied_is_reported deniedWorld eq_refl)
    as (_ & Hname & _ & Hall & Hphone & _).
  split; [apply (Hname "Bob" "Bob"); reflexivity|].
  split; [exact Hall|apply Hphone].
Defined.

(** ** Dictionary objects *)

Module JsObjectFacts.
Import JsObject.

Section WithValues.
Context {V : Type}.
Implicit Types (o : t V) (k : string) (v : V).

Lemma lookup_In k v o : get k o = Some v -> In (k, v) o.
Proof.
  induction o as [|[k' v'] r IH]; cbn [get]; [discriminate|].
  destruct (String.eqb k k') eqn:E.
  - apply String.eqb_eq in E. intros [= ->]. subst. now left.
  - intros H. right. auto.
Qed.

Lemma get_replace_same k v o : has k o = true -> get k (replace k v o) = Some v.
Proof.
  unfold has. induction o as [|[k' v'] r IH]; cbn [get replace]; [discriminate|].
  destruct (String.eqb k k') eqn:E; cbn [get].
  - now rewrite String.eqb_refl.
  - now rewrite E.
Qed.

Lemma get_replace_other k k' v o : k <> k' -> get k' (replace k v o) = get k' o.
Proof.
  intros Hne. induction o as [|[k0 v0] r IH]; cbn [get replace]; [reflexivity|].
  destruct (String.eqb k k0) eqn:E; cbn [get].
  - apply String.eqb_eq in E. subst k0.
    destruct (String.eqb k' k) eqn:E'; [|reflexivity].
    apply String.eqb_eq in E'. congruence.
  - now rewrite IH.
Qed.

Lemma In_replace k v o x : In x (replace k v o) -> x = (k, v) \/ In x o.
Proof.
  induction o as [|[k0 v0] r IH]; cbn [replace]; [tauto|].
  destruct (String.eqb k k0); cbn [In]; intuition.
Qed.

Lemma get_insert_same n k v o : get k o = None -> get k (insert_index n k v o) = Some v.
Proof.
  induction o as [|[k' v'] r IH]; cbn [get insert_index].
  - now rewrite String.eqb_refl.
  - destruct (String.eqb k k') eqn:E; [discriminate|]. intros H.
    destruct (array_index k') as [n'|]; [destruct (n <? n')%N|]; cbn [get];
      rewrite ?String.eqb_refl, ?E; auto.
Qed.

Lemma get_insert_other n k k' v o :
  k <> k' -> get k' (insert_index n k v o) = get k' o.
Proof.
  intros Hne. apply String.eqb_neq in Hne. rewrite String.eqb_sym in Hne.
  induction o as [|[k0 v0] r IH]; cbn [get insert_index].
  - now rewrite Hne.
  - destruct (array_index k0) as [n'|]; [destruct (n <? n')%N|]; cbn [get];
      rewrite ?Hne; try reflexivity.
    now rewrite IH.
Qed.

Lemma In_insert n k v o x : In x (insert_index n k v o) -> x = (k, v) \/ In x o.
Proof.
  induction o as [|[k0 v0] r IH]; cbn [insert_index].
  - cbn. intuition.
  - destruct (array_index k0) as [n'|]; [destruct (n <? n')%N|]; cbn [In]; intuition.
Qed.

Lemma get_app_absent k v o : get k o = None -> get k (o ++ [(k, v)])%list = Some v.
Proof.
  induction o as [|[k' v'] r IH]; cbn [get app].
  - now rewrite String.eqb_refl.
  - destruct (String.eqb k k'); [discriminate|auto].
Qed.

Lemma get_app_other k k' v o : k <> k' -> get k' (o ++ [(k, v)])%list = get k' o.
Proof.
  intros Hne. apply String.eqb_neq in Hne. rewrite String.eqb_sym in Hne.
  induction o as [|[k0 v0] r IH]; cbn [get app].
  - now rewrite Hne.
  - now rewrite IH.
Qed.

(** [o[k] = v] makes [k] map to [v] and leaves every other property alone. *)
Lemma lookup_set_same k v o : get k (set k v o) = Some v.
Proof.
  unfold set. destruct (has k o) eqn:H.
  - now apply get_replace_same.
  - assert (Hn : get k o = None).
    { unfold has in H. destruct (get k o); [discriminate|reflexivity]. }
    destruct (array_index k); [now apply get_insert_same|now apply get_app_absent].
Qed.

Lemma lookup_set_other k k' v o : k <> k' -> get k' (set k v o) = get k' o.
Proof.
  intros Hne. unfold set. destruct (has k o).
  - now apply get_replace_other.
  - destruct (array_index k); [now apply get_insert_other|now apply get_app_other].
Qed.

Lemma In_set k v o x : In x (set k v o) -> x = (k, v) \/ In x o.
Proof.
  unfold set. destruct (has k o); [apply In_replace|].
  destruct (array_index k); [apply In_insert|].
  intros H. apply in_app_or in H. cbn in H. intuition.
Qed.

End WithValues.
End JsObjectFacts.

(** ** The phone lookup: matching *)

Lemma existsb_swap {A B : Type} (f : A -> B -> bool) (la : list A) (lb : list B) :
  existsb (fun a => existsb (fun b => f a b) lb) la
  = existsb (fun b => existsb (fun a => f a b) la) lb.
Proof.
  apply Bool.eq_iff_eq_true. rewrite !existsb_exists. split.
  - intros (a & Ha & H). apply existsb_exists in H. destruct H as (b & Hb & H).
    exists b. split; [assumption|]. apply existsb_exists. eauto.
  - intros (b & Hb & H). apply existsb_exists in H. destruct H as (a & Ha & H).
    exists a. split; [assumption|]. apply existsb_exists. eauto.
Qed.

Lemma existsb_pointwise {A : Type} (f g : A -> bool) (l : list A) :
  (forall a, f a = g a) -> existsb f l = existsb g l.
Proof. intros H. induction l as [|a r IH]; cbn; [reflexivity|now rewrite H, IH]. Qed.

Lemma existsb_map {A B : Type} (f : B -> bool) (g : A -> B) (l : list A) :
  existsb f (map g l) = existsb (fun a => f (g a)) l.
Proof. induction l as [|a r IH]; cbn; [reflexivity|now rewrite IH]. Qed.

(** The direct scan and the cached search apply the same test to a
    contact's numbers. *)
Lemma personMatches_cachedContactMatches (searchFormats phones : list string) :
  personMatches searchFormats phones = cachedContactMatches searchFormats phones.
Proof.
  unfold personMatches, cachedContactMatches.
  rewrite existsb_swap. apply existsb_pointwise. intros s. now rewrite existsb_map.
Qed.

Lemma normalizePhoneNumber_digits (s1 s2 : string) :
  stripFormatting s2 = stripFormatting s1 ->
  normalizePhoneNumber s2 = normalizePhoneNumber s1.
Proof. intros H. unfold normalizePhoneNumber. now rewrite H. Qed.

Lemma scanPeople_found (searchFormats : list string) (ps : list Person)
      (fc : PhoneSearchResult) :
  scanPeople searchFormats ps = Some fc ->
  In (Readable (found_name fc) (found_phones fc)) ps
  /\ personMatches searchFormats (found_phones fc) = true.
Proof.
  induction ps as [|[n phones|] r IH]; cbn [scanPeople]; [discriminate| |].
  - destruct (personMatches searchFormats phones) eqn:E.
    + intros [= <-]. cbn. auto.
    + intros H. destruct (IH H). split; [now right|assumption].
  - intros H. destruct (IH H). split; [now right|assumption].
Qed.

Lemma searchSnapshot_finds (searchNumbers : list string) (d : ContactsData) :
  (exists name numbers,
      In (name, numbers) d /\ cachedContactMatches searchNumbers numbers = true) ->
  exists name numbers, searchSnapshot searchNumbers d = Some name /\ In (name, numbers) d.
Proof.
  induction d as [|[n ph] r IH]; intros (name & numbers & Hin & Hm); [easy|].
  cbn [searchSnapshot].
  destruct (cachedContactMatches searchNumbers ph) eqn:E.
  - exists n, ph. split; [reflexivity|now left].
  - destruct Hin as [Heq|Hin]; [injection Heq as -> ->; congruence|].
    destruct IH as (n' & ph' & Hs & Hin'); [eauto|].
    exists n', ph'. split; [assumption|now right].
Qed.

(** ** The phone lookup: the global instance *)

Lemma callCache_eq {A : Type} (m : State Env A) (w : World) :
  callCache m w = (fst (m (envOf w)), putEnv w (snd (m (envOf w)))).
Proof.
  unfold callCache, getContactCache, runMethod, bind, gets, modify, ret, setGlobal,
    envOf, putEnv, theCache.
  destruct (globalCache w) eqn:G; cbn; rewrite ?G; cbn; destruct (m _); reflexivity.
Qed.

Lemma envOf_putEnv (w : World) (e : Env) :
  readings e = clock w -> envOf (putEnv w e) = e.
Proof. intros H. destruct e. cbn in *. now subst. Qed.

Lemma get_readings (key : string) (e : Env) : readings (snd (get key e)) = readings e.
Proof.
  unfold get. run_method.
  destruct (enabled (config (this e))); cbn; [|reflexivity].
  destruct (JsMap.get key (cache (this e))); cbn; [|reflexivity].
  destruct (_ >? _); reflexivity.
Qed.

Lemma set_result (newData : ContactsData) (key : string) (e : Env) :
  enabled (config (this e)) = true ->
  JsMap.get key (cache (this (snd (set newData key e))))
  = Some (newEntry newData (now_of e))
  /\ config (this (snd (set newData key e))) = config (this e)
  /\ readings (snd (set newData key e)) = readings e.
Proof.
  intros He. rewrite (set_enabled newData key e He). cbn [snd at_tick this readings].
  destruct (afterCountCheck_facts newData e) as (Hc & _ & Hr).
  rewrite cache_updateStats, config_updateStats. cbn [withCache cache config].
  split; [apply JsMapFacts.get_set_same|]. now split.
Qed.

(** Two reads of [key] in a row, as the lookup makes them: the second one
    returns the live snapshot, or nothing when there is none. *)
Lemma get_twice (key : string) (e : Env) :
  Inv (this e) ->
  enabled (config (this e)) = true ->
  let e1 := snd (get key e) in
  let e2 := snd (get key e1) in
  match fst (get key e1) with
  | Some shared =>
      shared = liveData key e
      /\ exists entry, JsMap.get key (cache (this e)) = Some entry
                       /\ fst (get key e) = Some (data entry)
  | None => liveData key e = []
  end
  /\ config (this e1) = config (this e)
  /\ config (this e2) = config (this e)
  /\ readings e1 = readings e
  /\ readings e2 = readings e.
Proof.
  intros [Hwf _] He e1 e2.
  assert (G1 : config (this e1) = config (this e)) by apply get_preserves_config.
  assert (G2 : config (this e2) = config (this e)).
  { unfold e2. now rewrite get_preserves_config. }
  assert (R1 : readings e1 = readings e) by apply get_readings.
  assert (R2 : readings e2 = readings e).
  { unfold e2. now rewrite get_readings. }
  refine (conj _ (conj G1 (conj G2 (conj R1 R2)))).
  assert (He1 : enabled (config (this e1)) = true) by now rewrite G1.
  unfold liveData.
  destruct (JsMap.get key (cache (this e))) as [entry|] eqn:Hk.
  - destruct (Z_gt_le_dec (now_of e - timestamp entry) (ttlMs (config (this e)))) as [Ha|Ha].
    + (* expired at the first read *)
      assert (Hk1 : JsMap.get key (cache (this e1)) = None).
      { unfold e1. rewrite (get_expired e key entry He Hk Ha). cbn.
        now apply JsMapFacts.get_delete_same. }
      rewrite (get_absent e1 key He1 Hk1). cbn [fst].
      unfold now_of in Ha.
      destruct (Z.gtb_spec (readings e (ticks e) - timestamp entry) (ttlMs (config (this e))));
        [reflexivity|lia].
    + (* a hit at the first read *)
      assert (S1 : get key e = (Some (data entry),
                    at_tick e (updateStats (withStats incHits
                       (withCache (JsMap.set key (touch (now_of e) entry))
                          (withStats incTotalQueries (this e))))) (S (ticks e))))
        by exact (get_hit e key entry He Hk Ha).
      assert (Hk1 : JsMap.get key (cache (this e1)) = Some (touch (now_of e) entry)).
      { unfold e1. rewrite S1. cbn. apply JsMapFacts.get_set_same. }
      assert (N1 : now_of e1 = readings e (S (ticks e))).
      { unfold e1, now_of. rewrite S1. reflexivity. }
      unfold now_of in Ha.
      destruct (Z.gtb_spec (readings e (ticks e) - timestamp entry) (ttlMs (config (this e))));
        [lia|]. cbn [orb].
      destruct (Z_gt_le_dec (now_of e1 - timestamp (touch (now_of e) entry))
                            (ttlMs (config (this e1)))) as [Hb|Hb].
      * rewrite (get_expired e1 key _ He1 Hk1 Hb). cbn [fst].
        rewrite N1, G1 in Hb. cbn [touch timestamp] in Hb.
        destruct (Z.gtb_spec (readings e (S (ticks e)) - timestamp entry)
                             (ttlMs (config (this e)))); [reflexivity|lia].
      * rewrite (get_hit e1 key _ He1 Hk1 Hb). cbn [fst touch data].
        rewrite N1, G1 in Hb. cbn [touch timestamp] in Hb.
        destruct (Z.gtb_spec (readings e (S (ticks e)) - timestamp entry)
                             (ttlMs (config (this e)))); [lia|].
        split; [reflexivity|]. exists entry. rewrite S1. auto.
  - assert (Hk1 : JsMap.get key (cache (this e1)) = None).
    { unfold e1. now rewrite (get_absent e key He Hk). }
    now rewrite (get_absent e1 key He1 Hk1).
Qed.

Lemma cachedSearch_eq (searchNumbers : list string) (w : World) :
  findContactByPhoneCachedSearch searchNumbers w
  = (Returned match fst (get "allContacts" (envOf w)) with
              | Some entries => searchSnapshot searchNumbers entries
              | None => None
              end,
     putEnv w (snd (get "allContacts" (envOf w)))).
Proof.
  unfold findContactByPhoneCachedSearch, tryCatch, bind, retE, ret.
  rewrite callCache_eq. destruct (fst (get "allContacts" (envOf w))); reflexivity.
Qed.

Lemma cachePhoneSearchResult_eq (contactName : string) (phoneNumbers : list string)
      (w : World) :
  cachePhoneSearchResult contactName phoneNumbers w
  = (Returned tt,
     let w1 := putEnv w (snd (get "allContacts" (envOf w))) in
     match fst (get "allContacts" (envOf w)) with
     | Some shared =>
         let w2 := putEnv w1 (onThis (mutateData "allContacts"
                                        (JsObject.set contactName phoneNumbers))
                                     (envOf w1)) in
         putEnv w2 (snd (set (JsObject.set contactName phoneNumbers shared)
                             "allContacts" (envOf w2)))
     | None =>
         putEnv w1 (snd (set (JsObject.set contactName phoneNumbers [])
                             "allContacts" (envOf w1)))
     end).
Proof.
  unfold cachePhoneSearchResult, tryCatch, liftS, bind, retE, ret.
  rewrite callCache_eq. cbn [fst snd].
  destruct (fst (get "allContacts" (envOf w))).
  - rewrite !callCache_eq. unfold modify. cbn [fst snd].
    now destruct (fst (set _ _ _)).
  - rewrite callCache_eq. cbn [fst snd]. now destruct (fst (set _ _ _)).
Qed.

Lemma findContactByPhone_eq (phoneNumber : string) (w : World) :
  findContactByPhone phoneNumber w =
  match validatePhoneNumber phoneNumber with
  | Thrown _ => (Returned None, w)
  | Returned sanitized =>
      let w0 := countScript w in
      if accessGranted (directory w) then
        let searchNumbers := normalizePhoneNumber sanitized in
        let wA := putEnv w0 (snd (get "allContacts" (envOf w0))) in
        let cacheResult := match fst (get "allContacts" (envOf w0)) with
                           | Some entries => searchSnapshot searchNumbers entries
                           | None => None
                           end in
        if truthy cacheResult then (Returned cacheResult, wA)
        else
          let wJ := countJxa wA in
          if jxaWorks (directory w) then
            match scanPeople searchNumbers (people (directory w)) with
            | Some fc =>
                if truthy (Some (found_name fc))
                then (Returned (Some (found_name fc)),
                      snd (cachePhoneSearchResult (found_name fc) (found_phones fc) wJ))
                else (Returned None, wJ)
            | None => (Returned None, wJ)
            end
          else (Returned None, wJ)
      else (Returned None, w0)
  end.
Proof.
  unfold findContactByPhone, findContactByPhoneOptimized, tryCatch, bindE, bind, ret, retE.
  destruct (validatePhoneNumber phoneNumber) as [sanitized|msg]; [|reflexivity].
  unfold checkContactsAccess, bind, modify, gets, retE, throwE, ret.
  cbn [fst snd directory countScript].
  destruct (accessGranted (directory w)); [|reflexivity]. cbn [negb].
  rewrite cachedSearch_eq. cbv zeta.
  destruct (truthy _); [reflexivity|].
  unfold runPhoneScan, bind, modify, gets, retE, throwE, ret.
  cbn [fst snd directory countJxa putEnv countScript].
  destruct (jxaWorks (directory w)); [|reflexivity].
  destruct (scanPeople _ _) as [fc|]; [|reflexivity].
  destruct (truthy (Some (found_name fc))); [|reflexivity].
  rewrite cachePhoneSearchResult_eq. reflexivity.
Qed.

Lemma config_mutateData (key : string) (f : ContactsData -> ContactsData)
      (c : ContactCache) :
  config (mutateData key f c) = config c.
Proof. unfold mutateData. destruct (JsMap.get key (cache c)); reflexivity. Qed.

Lemma envOf_countJxa_putEnv (w : World) (e : Env) :
  readings e = clock w -> envOf (countJxa (putEnv w e)) = e.
Proof. intros H. destruct e. cbn in *. now subst. Qed.

Lemma liveSnapshot_liveData (w : World) : liveSnapshot w = liveData "allContacts" (envOf w).
Proof. reflexivity. Qed.

(** The write-through after a cache-only search: whatever the two reads
    find, the entry stored under the well-known key afterwards holds the
    live snapshot with the discovered contact set in it. *)
Lemma write_through_merges (w : World) (contactName : string) (phoneNumbers : list string) :
  Inv (theCache w) ->
  cacheEnabled w ->
  let wA := putEnv w (snd (get "allContacts" (envOf w))) in
  let w1 := snd (cachePhoneSearchResult contactName phoneNumbers (countJxa wA)) in
  (exists now,
      snapshotOf w1
      = Some (newEntry (JsObject.set contactName phoneNumbers (liveSnapshot w)) now))
  /\ config (theCache w1) = config (theCache w)
  /\ directory w1 = directory w
  /\ scriptRuns w1 = scriptRuns w
  /\ jxaRuns w1 = S (jxaRuns w)
  /\ clock w1 = clock w.
Proof.
  intros HI He wA w1. unfold w1, wA. rewrite cachePhoneSearchResult_eq. cbn [snd].
  set (e := envOf w). set (e1 := snd (get "allContacts" e)).
  destruct (get_twice "allContacts" e HI He) as (Hm & G1 & G2 & R1 & R2).
  fold e1 in Hm, G1, G2, R1, R2.
  rewrite (envOf_countJxa_putEnv w e1 R1).
  set (e2 := snd (get "allContacts" e1)) in *.
  rewrite liveSnapshot_liveData. fold e.
  destruct (fst (get "allContacts" e1)) as [shared|] eqn:E2.
  - destruct Hm as [-> _]. cbv zeta.
    rewrite (envOf_putEnv (countJxa (putEnv w e1)) e2 R2).
    set (e2' := onThis (mutateData "allContacts" (JsObject.set contactName phoneNumbers)) e2).
    rewrite (envOf_putEnv (putEnv (countJxa (putEnv w e1)) e2) e2' R2).
    assert (He2 : enabled (config (this e2')) = true).
    { unfold e2'. cbn [onThis this]. rewrite config_mutateData, G2. exact He. }
    destruct (set_result (JsObject.set contactName phoneNumbers (liveData "allContacts" e))
                "allContacts" e2' He2) as (Hk & Hc & _).
    unfold snapshotOf, theCache. cbn [putEnv globalCache orElse].
    rewrite Hk, Hc. unfold e2'. cbn [onThis this]. rewrite config_mutateData, G2.
    repeat split. eauto.
  - cbv zeta. rewrite (envOf_putEnv (countJxa (putEnv w e1)) e2 R2).
    assert (He2 : enabled (config (this e2)) = true) by (rewrite G2; exact He).
    destruct (set_result (JsObject.set contactName phoneNumbers []) "allContacts" e2 He2)
      as (Hk & Hc & _).
    unfold snapshotOf, theCache. cbn [putEnv globalCache orElse].
    rewrite Hk, Hc, G2, Hm. repeat split. eauto.
Qed.

Lemma truthy_nonempty (name : string) : name <> EmptyString -> truthy (Some name) = true.
Proof. destruct name; [congruence|reflexivity]. Qed.

Lemma truthy_Some (r : option string) :
  truthy r = true -> exists name, r = Some name /\ name <> EmptyString.
Proof.
  destruct r as [[|c s]|]; cbn; try discriminate.
  intros _. eexists. split; [reflexivity|discriminate].
Qed.

(** A lookup whose number matches a contact of a cached, unexpired
    snapshot is answered from the cache, without a scan. *)
Lemma cached_lookup_hits (w : World) (phoneNumber sanitized name : string)
      (entry : CacheEntry) :
  cacheEnabled w ->
  accessGranted (directory w) = true ->
  snapshotOf w = Some entry ->
  clock w (clockReads w) - timestamp entry <= ttlMs (config (theCache w)) ->
  validatePhoneNumber phoneNumber = Returned sanitized ->
  searchSnapshot (normalizePhoneNumber sanitized) (data entry) = Some name ->
  name <> EmptyString ->
  fst (findContactByPhone phoneNumber w) = Returned (Some name)
  /\ jxaRuns (snd (findContactByPhone phoneNumber w)) = jxaRuns w.
Proof.
  intros He Ha Hs Hfresh Hv Hfound Hname.
  rewrite findContactByPhone_eq, Hv, Ha. cbv zeta.
  assert (Hget : get "allContacts" (envOf (countScript w))
                 = (Some (data entry),
                    at_tick (envOf w)
                      (updateStats (withStats incHits
                         (withCache (JsMap.set "allContacts"
                                       (touch (now_of (envOf w)) entry))
                            (withStats incTotalQueries (this (envOf w))))))
                      (S (ticks (envOf w))))).
  { change (envOf (countScript w)) with (envOf w).
    apply get_hit; [exact He|exact Hs|exact Hfresh]. }
  rewrite Hget. cbn [fst snd]. rewrite Hfound, (truthy_nonempty name Hname).
  split; reflexivity.
Qed.

Lemma validatePhoneNumber_trims (phoneNumber sanitized : string) :
  validatePhoneNumber phoneNumber = Returned sanitized -> sanitized = trim phoneNumber.
Proof.
  unfold validatePhoneNumber.
  destruct (_ =? _)%nat; [discriminate|].
  destruct (negb _); [discriminate|].
  destruct (_ <? _)%nat; [discriminate|]. now intros [= <-].
Qed.

(** C7 as stated fails on the code when the cache is disabled: [set] does
    nothing then, the pair found by the scan is not stored, and the next
    lookup of the same number scans the contact list again. *)
Lemma write_through_needs_enabled_cache :
  enabled (config (theCache disabledWorld)) = false
  /\ fst (findContactByPhone "555-1234" disabledWorld) = Returned (Some "Bob")
  /\ jxaRuns (snd (findContactByPhone "555-1234" disabledWorld)) = 1%nat
  /\ snapshotOf (snd (findContactByPhone "555-1234" disabledWorld)) = None
  /\ fst (findContactByPhone "5551234" (snd (findContactByPhone "555-1234" disabledWorld)))
     = Returned (Some "Bob")
  /\ jxaRuns (snd (findContactByPhone "5551234"
                     (snd (findContactByPhone "555-1234" disabledWorld)))) = 2%nat.
Proof. vm_compute. repeat split; reflexivity. Qed.

(** C7, as amended.  With the cache enabled, when a lookup is answered by
    the fallback scan with a contact whose name is not [__proto__] (a name
    that an assignment to an object does not store as a property), the
    contact found (a record of the Contacts application, with all its
    numbers) is set in the snapshot cached under ["allContacts"]: in the
    live snapshot if there is one, whose other contacts are kept, else in a
    new one.  Afterwards, as long as that entry has not expired and no
    contact of the snapshot has an empty name, a lookup of any number whose
    search forms match one of the contact's numbers, in particular of any
    input with the same digits and [+] signs as the first one, is answered
    from the cache-only search: no further scan of the contact list is
    made. *)
Theorem phone_scan_result_is_written_through :
  forall (w w1 : World) (phoneNumber name : string),
    Inv (theCache w) ->
    cacheEnabled w ->
    findContactByPhone phoneNumber w = (Returned (Some name), w1) ->
    jxaRuns w1 = S (jxaRuns w) ->
    ordinaryName name ->
    exists phones entry,
      In (Readable name phones) (people (directory w))
      /\ snapshotOf w1 = Some entry
      /\ JsObject.get name (data entry) = Some phones
      /\ (forall other, other <> name ->
            JsObject.get other (data entry) = JsObject.get other (liveSnapshot w))
      /\ (forall p2 s2,
            validatePhoneNumber p2 = Returned s2 ->
            cachedContactMatches (normalizePhoneNumber s2) phones = true
            \/ stripFormatting s2 = stripFormatting (trim phoneNumber) ->
            namesNonEmpty (liveSnapshot w) ->
            clock w1 (clockReads w1) - timestamp entry <= ttlMs (config (theCache w1)) ->
            exists answer,
              fst (findContactByPhone p2 w1) = Returned (Some answer)
              /\ jxaRuns (snd (findContactByPhone p2 w1)) = jxaRuns w1).
Proof.
  intros w w1 phoneNumber name HI He Hcall Hruns _.
  rewrite findContactByPhone_eq in Hcall.
  destruct (validatePhoneNumber phoneNumber) as [s1|msg] eqn:Hv1; [|discriminate].
  apply validatePhoneNumber_trims in Hv1.
  destruct (accessGranted (directory w)) eqn:Hacc; [|discriminate].
  cbv zeta in Hcall.
  destruct (truthy _) eqn:Hcr.
  { injection Hcall as _ <-. cbn in Hruns. lia. }
  destruct (jxaWorks (directory w)); [|discriminate].
  destruct (scanPeople (normalizePhoneNumber s1) (people (directory w))) as [fc|] eqn:Hscan;
    [|discriminate].
  destruct (truthy (Some (found_name fc))) eqn:Hn; [|discriminate].
  injection Hcall as <- <-.
  destruct (scanPeople_found _ _ _ Hscan) as [Hin Hmatch].
  apply truthy_Some in Hn. destruct Hn as (n0 & [= <-] & Hname).
  destruct (write_through_merges (countScript w) (found_name fc) (found_phones fc) HI He)
    as ((now & Hsnap) & Hcfg & Hdir & _ & _ & _).
  set (w1 := snd (cachePhoneSearchResult (found_name fc) (found_phones fc) _)) in *.
  change (liveSnapshot (countScript w)) with (liveSnapshot w) in Hsnap.
  change (theCache (countScript w)) with (theCache w) in Hcfg.
  change (directory (countScript w)) with (directory w) in Hdir.
  exists (found_phones fc), (newEntry (JsObject.set (found_name fc) (found_phones fc)
                                          (liveSnapshot w)) now).
  split; [exact Hin|]. split; [exact Hsnap|].
  cbn [newEntry data timestamp].
  split; [apply JsObjectFacts.lookup_set_same|].
  split; [intros other Ho; now apply JsObjectFacts.lookup_set_other|].
  intros p2 s2 Hv2 Heq Hnames Hfresh.
  assert (Hm2 : cachedContactMatches (normalizePhoneNumber s2) (found_phones fc) = true).
  { destruct Heq as [Hm|Hd]; [exact Hm|].
    rewrite <- personMatches_cachedContactMatches.
    rewrite (normalizePhoneNumber_digits s1 s2); [exact Hmatch|].
    now rewrite Hd, Hv1. }
  destruct (searchSnapshot_finds (normalizePhoneNumber s2)
              (JsObject.set (found_name fc) (found_phones fc) (liveSnapshot w)))
    as (answer & numbers & Hfound & Hinans).
  { exists (found_name fc), (found_phones fc). split; [|exact Hm2].
    apply JsObjectFacts.lookup_In, JsObjectFacts.lookup_set_same. }
  assert (Hans : answer <> EmptyString).
  { apply JsObjectFacts.In_set in Hinans. destruct Hinans as [[= -> _]|Hold].
    - exact Hname.
    - exact (Hnames _ _ Hold). }
  exists answer.
  apply (cached_lookup_hits w1 p2 s2 answer
           (newEntry (JsObject.set (found_name fc) (found_phones fc) (liveSnapshot w)) now));
    try assumption.
  - unfold cacheEnabled. now rewrite Hcfg.
  - now rewrite Hdir.
Qed.

Lemma pair_with_snd {A B : Type} (p : A * B) (a : A) : fst p = a -> p = (a, snd p).
Proof. destruct p. cbn. now intros ->. Qed.

Lemma phone_scan_result_is_written_through_witness :
  let w1 := snd (findContactByPhone "555-1234" aliceCachedWorld) in
  exists phones entry,
    In (Readable "Bob" phones) (people (directory aliceCachedWorld))
    /\ snapshotOf w1 = Some entry
    /\ JsObject.get "Bob" (data entry) = Some phones
    /\ JsObject.get "Alice" (data entry) = Some ["555-0000"]
    /\ exists answer,
         fst (findContactByPhone "5551234" w1) = Returned (Some answer)
         /\ jxaRuns (snd (findContactByPhone "5551234" w1)) = jxaRuns w1.
Proof.
  intros w1.
  assert (HI : Inv (theCache aliceCachedWorld)).
  { split; [vm_compute; repeat constructor; cbn; tauto|vm_compute; discriminate]. }
  assert (He : cacheEnabled aliceCachedWorld) by (vm_compute; reflexivity).
  assert (Hfst : fst (findContactByPhone "555-1234" aliceCachedWorld)
                 = Returned (Some "Bob")) by (vm_compute; reflexivity).
  pose proof (pair_with_snd _ _ Hfst) as Hcall.
  assert (Hruns : jxaRuns (snd (findContactByPhone "555-1234" aliceCachedWorld))
                  = S (jxaRuns aliceCachedWorld)) by (vm_compute; reflexivity).
  assert (Hname : ordinaryName "Bob") by discriminate.
  destruct (phone_scan_result_is_written_through aliceCachedWorld _ "555-1234" "Bob"
              HI He Hcall Hruns Hname)
    as (phones & entry & Hin & Hs & Hg & Ho & Hafter).
  exists phones, entry.
  split; [exact Hin|]. split; [exact Hs|]. split; [exact Hg|].
  split; [rewrite Ho; [vm_compute; reflexivity|discriminate]|].
  assert (Hv : validatePhoneNumber "5551234" = Returned "5551234")
    by (vm_compute; reflexivity).
  assert (Hd : stripFormatting "5551234" = stripFormatting (trim "555-1234"))
    by (vm_compute; reflexivity).
  apply (Hafter "5551234" "5551234" Hv (or_intror Hd)).
  - intros n numbers H. vm_compute in H. destruct H as [[= <- _]|[]]. discriminate.
  - vm_compute in Hs. injection Hs as <-. vm_compute. discriminate.
Defined.

(** * Further properties of the cache store *)

(** ** Reachable states *)

Lemma queriesKept_refl (s : CacheStats) : queriesKept s s.
Proof. unfold queriesKept. repeat split; lia. Qed.

Lemma queriesKept_trans (s1 s2 s3 : CacheStats) :
  queriesKept s1 s2 -> queriesKept s2 s3 -> queriesKept s1 s3.
Proof. unfold queriesKept. intros (A & B & C & D) (A' & B' & C' & D'). repeat split; lia. Qed.

Lemma evict_queriesKept (e : Env) :
  queriesKept (stats (this e)) (stats (this (snd (evictLeastRecentlyUsed e)))).
Proof.
  destruct (evict_cases e) as [->|(ke & _ & _ & _ & ->)]; [apply queriesKept_refl|].
  unfold queriesKept. cbn. repeat split; lia.
Qed.

Lemma set_queriesKept (newData : ContactsData) (key : string) (e : Env) :
  queriesKept (stats (this e)) (stats (this (snd (set newData key e)))).
Proof.
  destruct (enabled (config (this e))) eqn:He.
  - rewrite (set_enabled newData key e He). cbn [snd at_tick this].
    assert (H : queriesKept (stats (this e)) (stats (this (afterCountCheck newData e)))).
    { unfold afterCountCheck, afterMemoryCheck.
      set (e0 := at_tick e (this e) (S (ticks e))).
      assert (H1 : queriesKept (stats (this e))
                     (stats (this (if shouldEvictForMemory newData (this e)
                                   then snd (evictLeastRecentlyUsed e0) else e0)))).
      { destruct (shouldEvictForMemory newData (this e));
          [apply (evict_queriesKept e0)|apply queriesKept_refl]. }
      destruct (_ >=? _); [|exact H1].
      eapply queriesKept_trans; [exact H1|apply evict_queriesKept]. }
    destruct H as (A & B & C & D). unfold queriesKept. cbn. auto.
  - rewrite (set_disabled newData key e He). apply queriesKept_refl.
Qed.

Lemma expireFold_queriesKept (now : Z) (l : list (string * CacheEntry)) :
  forall c, queriesKept (stats c) (stats (fold_left (expireStep now) l c)).
Proof.
  induction l as [|x r IH]; intros c; cbn [fold_left]; [apply queriesKept_refl|].
  eapply queriesKept_trans; [|apply IH].
  unfold expireStep. destruct (_ >? _); [|apply queriesKept_refl].
  unfold queriesKept. cbn. repeat split; lia.
Qed.

Lemma enforceMemoryLimit_queriesKept (fuel : nat) :
  forall e e', enforceMemoryLimit fuel e = Some e' ->
               queriesKept (stats (this e)) (stats (this e')).
Proof.
  induction fuel as [|n IH]; intros e e'; cbn [enforceMemoryLimit];
    destruct (isOverMemoryLimit (this e)); try discriminate;
    try (intros [= <-]; apply queriesKept_refl).
  intros H. eapply queriesKept_trans; [apply evict_queriesKept|exact (IH _ _ H)].
Qed.

Lemma cleanup_queriesKept (fuel : nat) (e e' : Env) :
  cleanup fuel e = Some e' -> queriesKept (stats (this e)) (stats (this e')).
Proof.
  unfold cleanup. destruct (negb _); [intros [= <-]; apply queriesKept_refl|].
  unfold Date_now. cbv iota beta.
  destruct (enforceMemoryLimit fuel _) as [e3|] eqn:E; [|discriminate].
  intros [= <-]. apply enforceMemoryLimit_queriesKept in E.
  cbn [onThis this] in E.
  pose proof (expireFold_queriesKept (readings e (ticks e)) (cache (this e)) (this e)) as F.
  fold (expireAll (readings e (ticks e)) (this e)) in F.
  destruct (queriesKept_trans _ _ _ F E) as (A & B & C & D).
  unfold queriesKept. cbn. auto.
Qed.

(** Every call other than [get] leaves the query counters alone and does
    not lower the eviction counter. *)
Lemma perform_queriesKept (e e' : Env) (c : Call) :
  (forall key, c <> CGet key) ->
  perform e c = Some e' ->
  queriesKept (stats (this e)) (stats (this e')).
Proof.
  intros Hget. destruct c as [key|d key|key|cfg|fuel| |key f]; cbn [perform].
  - now destruct (Hget key).
  - intros [= <-]. apply set_queriesKept.
  - intros [= <-]. unfold invalidate. run_method.
    destruct (truthyKey key); cbn; unfold queriesKept; cbn; repeat split; lia.
  - intros [= <-]. unfold updateConfig. run_method.
    destruct (enabled (config (this e))); cbn;
      destruct (orElse (p_enabled cfg) _); cbn; apply queriesKept_refl.
  - apply cleanup_queriesKept.
  - intros [= <-]. unfold destroy. run_method. unfold queriesKept. cbn. repeat split; lia.
  - intros [= <-]. cbn. unfold mutateData.
    destruct (JsMap.get key (cache (this e))); apply queriesKept_refl.
Qed.

(** What [get] does to the counters: one more query, which is either one
    more hit or one more miss, and possibly one more eviction. *)
Lemma get_counters (key : string) (e : Env) :
  let s := stats (this e) in
  let s' := stats (this (snd (get key e))) in
  totalQueries s' = totalQueries s + 1
  /\ ((hits s' = hits s + 1 /\ misses s' = misses s /\ evictions s' = evictions s)
      \/ (hits s' = hits s /\ misses s' = misses s + 1
          /\ evictions s <= evictions s' <= evictions s + 1)).
Proof.
  cbv zeta.
  destruct (enabled (config (this e))) eqn:He.
  - destruct (JsMap.get key (cache (this e))) as [entry|] eqn:Hk.
    + destruct (Z_gt_le_dec (now_of e - timestamp entry) (ttlMs (config (this e))))
        as [Ha|Ha].
      * rewrite (get_expired e key entry He Hk Ha). cbn. split; [reflexivity|right]. lia.
      * rewrite (get_hit e key entry He Hk Ha). cbn. split; [reflexivity|left]. lia.
    + rewrite (get_absent e key He Hk). cbn. split; [reflexivity|right]. lia.
  - rewrite (get_disabled e key He). cbn. split; [reflexivity|right]. lia.
Qed.

Lemma perform_Inv (e e' : Env) (c : Call) :
  Inv (this e) -> perform e c = Some e' -> Inv (this e').
Proof.
  intros HI. destruct c as [key|d key|key|cfg|fuel| |key f]; cbn [perform].
  - intros [= <-]. now apply Inv_get.
  - intros [= <-]. now apply Inv_set.
  - intros [= <-]. now apply Inv_invalidate.
  - intros [= <-]. now apply Inv_updateConfig.
  - now apply Inv_cleanup.
  - intros [= <-]. apply Inv_destroy.
  - intros [= <-]. cbn. now apply Inv_mutateData.
Qed.

(** X1. In every state a cache object reaches from its construction, by
    any calls of its methods and any changes callers make through the
    snapshots they were handed, the keys of the map are unique and a
    disabled store holds no entry. *)
Theorem reachable_states_are_well_formed :
  forall (cfg : PartialConfig) (rd : nat -> Z) (calls : list Call) (e : Env),
    performAll (freshEnv cfg rd) calls = Some e ->
    NoDup (JsMap.keys (cache (this e)))
    /\ (enabled (config (this e)) = false -> cache (this e) = []).
Proof.
  intros cfg rd calls.
  assert (H : forall e0 e, Inv (this e0) -> performAll e0 calls = Some e -> Inv (this e)).
  { induction calls as [|c rest IH]; intros e0 e HI; cbn [performAll].
    - now intros [= <-].
    - destruct (perform e0 c) as [e1|] eqn:E; [|discriminate].
      apply IH. exact (perform_Inv _ _ _ HI E). }
  intros e Hrun. exact (H (freshEnv cfg rd) e (Inv_new cfg) Hrun).
Qed.

Lemma reachable_states_are_well_formed_witness :
  NoDup (JsMap.keys (cache (this lruDemo)))
  /\ (enabled (config (this lruDemo)) = false -> cache (this lruDemo) = []).
Proof.
  apply (reachable_states_are_well_formed twoEntries (steadyClock 1000 10)
           [CSet alice "k1"; CSet alice "k2"; CGet "k1"]).
  vm_compute. reflexivity.
Defined.

Lemma perform_counters (e e' : Env) (c : Call) :
  perform e c = Some e' ->
  (countersOk (stats (this e)) -> countersOk (stats (this e')))
  /\ countersGrow (stats (this e)) (stats (this e')).
Proof.
  intros Hp. unfold countersOk, countersGrow.
  destruct c as [key|d key|key|cfg|fuel| |key f].
  1: { cbn [perform] in Hp. injection Hp as <-.
       destruct (get_counters key e) as (T & [(A & B & C)|(A & B & C)]);
         cbv zeta in *; split; [intros (H1 & H2 & H3 & H4)| |intros (H1 & H2 & H3 & H4)|];
         repeat split; lia. }
  all: assert (K : queriesKept (stats (this e)) (stats (this e')))
         by (refine (perform_queriesKept e e' _ _ Hp); discriminate);
       destruct K as (A & B & C & D);
       split; [intros (H1 & H2 & H3 & H4)|]; repeat split; lia.
Qed.

(** X2. In every reachable state the number of hits plus the number of
    misses is the number of queries, and no counter is negative. *)
Theorem counters_stay_consistent :
  forall (cfg : PartialConfig) (rd : nat -> Z) (calls : list Call) (e : Env),
    performAll (freshEnv cfg rd) calls = Some e ->
    hits (stats (this e)) + misses (stats (this e)) = totalQueries (stats (this e))
    /\ 0 <= hits (stats (this e))
    /\ 0 <= misses (stats (this e))
    /\ 0 <= evictions (stats (this e)).
Proof.
  intros cfg rd calls.
  assert (H : forall e0 e, countersOk (stats (this e0)) ->
                           performAll e0 calls = Some e -> countersOk (stats (this e))).
  { induction calls as [|c rest IH]; intros e0 e HI; cbn [performAll].
    - now intros [= <-].
    - destruct (perform e0 c) as [e1|] eqn:E; [|discriminate].
      apply IH. exact (proj1 (perform_counters _ _ _ E) HI). }
  intros e Hrun. apply (H (freshEnv cfg rd) e); [|exact Hrun].
  unfold countersOk, freshEnv, newContactCache. cbn.
  destruct (orElse (p_enabled cfg) true); cbn; repeat split; lia.
Qed.

Lemma counters_stay_consistent_witness :
  hits (stats (this lruDemo)) + misses (stats (this lruDemo))
  = totalQueries (stats (this lruDemo))
  /\ 0 <= hits (stats (this lruDemo))
  /\ 0 <= misses (stats (this lruDemo))
  /\ 0 <= evictions (stats (this lruDemo)).
Proof.
  apply (counters_stay_consistent twoEntries (steadyClock 1000 10)
           [CSet alice "k1"; CSet alice "k2"; CGet "k1"]).
  vm_compute. reflexivity.
Defined.

(** X3. No call ever lowers a counter of the statistics: neither
    [invalidate] nor [destroy] nor disabling the store resets them. *)
Theorem counters_never_decrease :
  forall (calls : list Call) (e e' : Env),
    performAll e calls = Some e' ->
    hits (stats (this e)) <= hits (stats (this e'))
    /\ misses (stats (this e)) <= misses (stats (this e'))
    /\ evictions (stats (this e)) <= evictions (stats (this e'))
    /\ totalQueries (stats (this e)) <= totalQueries (stats (this e')).
Proof.
  induction calls as [|c rest IH]; intros e e'; cbn [performAll].
  - intros [= <-]. repeat split; lia.
  - destruct (perform e c) as [e1|] eqn:E; [|discriminate].
    intros H. destruct (IH _ _ H) as (A & B & C & D).
    destruct (proj2 (perform_counters _ _ _ E)) as (A' & B' & C' & D').
    repeat split; lia.
Qed.

Lemma counters_never_decrease_witness :
  let e := snd (get "k" (snd (set alice "k" defaultEnv))) in
  let e' := snd (destroy (snd (invalidate None e))) in
  hits (stats (this e)) <= hits (stats (this e'))
  /\ misses (stats (this e)) <= misses (stats (this e'))
  /\ evictions (stats (this e)) <= evictions (stats (this e'))
  /\ totalQueries (stats (this e)) <= totalQueries (stats (this e')).
Proof.
  apply (counters_never_decrease [CInvalidate None; CDestroy]). vm_compute. reflexivity.
Defined.

(** ** Round trips and frames *)

(** X4. On an enabled store, a snapshot written under a key is what the
    next [get] of that key returns, whatever the eviction checks of [set]
    removed, as long as the clock has not advanced by more than the time to
    live; the read counts as one hit. *)
Theorem set_then_get_returns_the_snapshot :
  forall (newData : ContactsData) (key : string) (e : Env),
    enabled (config (this e)) = true ->
    let e1 := snd (set newData key e) in
    now_of e1 - now_of e <= ttlMs (config (this e)) ->
    fst (get key e1) = Some newData
    /\ hits (stats (this (snd (get key e1)))) = hits (stats (this e)) + 1
    /\ misses (stats (this (snd (get key e1)))) = misses (stats (this e)).
Proof.
  intros newData key e He e1 Hage.
  destruct (set_result newData key e He) as (Hk & Hc & Hr).
  fold e1 in Hk, Hc, Hr.
  assert (He1 : enabled (config (this e1)) = true) by (rewrite Hc; exact He).
  assert (Hage1 : now_of e1 - timestamp (newEntry newData (now_of e))
                  <= ttlMs (config (this e1))) by (rewrite Hc; exact Hage).
  rewrite (get_hit e1 key _ He1 Hk Hage1).
  destruct (set_queriesKept newData key e) as (A & B & _). fold e1 in A, B.
  cbn. rewrite A, B. auto.
Qed.

Lemma set_then_get_returns_the_snapshot_witness :
  fst (get "k" (snd (set alice "k" defaultEnv))) = Some alice
  /\ hits (stats (this (snd (get "k" (snd (set alice "k" defaultEnv))))))
     = hits (stats (this defaultEnv)) + 1
  /\ misses (stats (this (snd (get "k" (snd (set alice "k" defaultEnv))))))
     = misses (stats (this defaultEnv)).
Proof.
  apply (set_then_get_returns_the_snapshot alice "k" defaultEnv).
  - reflexivity.
  - vm_compute. discriminate.
Defined.

(** X5. [invalidate] with a non-empty key removes the entry of that key and
    no other: every other key still maps to the same entry, the configuration
    is the same, and the entry count of the statistics is brought up to
    date. *)
Theorem invalidate_removes_one_key :
  forall (key : string) (e : Env),
    key <> EmptyString ->
    JsMap.wf (cache (this e)) ->
    let e' := snd (invalidate (Some key) e) in
    JsMap.get key (cache (this e')) = None
    /\ (forall k, k <> key ->
          JsMap.get k (cache (this e')) = JsMap.get k (cache (this e)))
    /\ config (this e') = config (this e)
    /\ currentEntries (stats (this e')) = JsMap.size (cache (this e')).
Proof.
  intros key e Hk Hwf e'. subst e'.
  unfold invalidate. run_method.
  destruct key as [|a s]; [now destruct Hk|]. cbn.
  refine (conj _ (conj _ (conj eq_refl eq_refl))).
  - now apply JsMapFacts.get_delete_same.
  - intros k Hne. apply JsMapFacts.get_delete_other. congruence.
Qed.

Lemma invalidate_removes_one_key_witness :
  let e' := snd (invalidate (Some "k1") lruDemo) in
  JsMap.get "k1" (cache (this e')) = None
  /\ (forall k, k <> "k1"%string ->
        JsMap.get k (cache (this e')) = JsMap.get k (cache (this lruDemo)))
  /\ config (this e') = config (this lruDemo)
  /\ currentEntries (stats (this e')) = JsMap.size (cache (this e')).
Proof.
  apply (invalidate_removes_one_key "k1" lruDemo).
  - discriminate.
  - vm_compute. repeat constructor; cbn; intuition discriminate.
Defined.

(** X6. [invalidate] without a key, and also with the empty string as the
    key, removes every entry; the entry count and the memory estimate of the
    statistics become zero while the counters of hits, misses and evictions
    are left as they are. *)
Theorem invalidate_without_key_clears_the_store :
  forall (key : option string) (e : Env),
    key = None \/ key = Some EmptyString ->
    let e' := snd (invalidate key e) in
    cache (this e') = []
    /\ currentEntries (stats (this e')) = 0
    /\ (estimatedMemoryMB (stats (this e')) == 0)%Q
    /\ hits (stats (this e')) = hits (stats (this e))
    /\ misses (stats (this e')) = misses (stats (this e))
    /\ evictions (stats (this e')) = evictions (stats (this e))
    /\ config (this e') = config (this e).
Proof.
  intros key e [-> | ->] e'; subst e'; unfold invalidate; run_method;
    repeat split; reflexivity.
Qed.

Lemma invalidate_without_key_clears_the_store_witness :
  let e' := snd (invalidate (Some EmptyString) lruDemo) in
  cache (this e') = []
  /\ currentEntries (stats (this e')) = 0
  /\ (estimatedMemoryMB (stats (this e')) == 0)%Q
  /\ hits (stats (this e')) = hits (stats (this lruDemo))
  /\ misses (stats (this e')) = misses (stats (this lruDemo))
  /\ evictions (stats (this e')) = evictions (stats (this lruDemo))
  /\ config (this e') = config (this lruDemo).
Proof.
  apply (invalidate_without_key_clears_the_store (Some EmptyString) lruDemo).
  right. reflexivity.
Defined.

Lemma get_leaves_frame (key : string) (e : Env) :
  config (this (snd (get key e))) = config (this e)
  /\ cleanupTimer (this (snd (get key e))) = cleanupTimer (this e).
Proof.
  destruct (enabled (config (this e))) eqn:He.
  - destruct (JsMap.get key (cache (this e))) as [entry|] eqn:Hk.
    + destruct (Z_gt_le_dec (now_of e - timestamp entry) (ttlMs (config (this e))))
        as [Ha|Ha].
      * rewrite (get_expired e key entry He Hk Ha). split; reflexivity.
      * rewrite (get_hit e key entry He Hk Ha). split; reflexivity.
    + rewrite (get_absent e key He Hk). split; reflexivity.
  - rewrite (get_disabled e key He). split; reflexivity.
Qed.

(** X7. A [get] touches the entry of its own key only: every other key
    still maps to the same entry afterwards, no key is added to the map, and
    the configuration and the timer are unchanged. *)
Theorem get_leaves_other_keys_alone :
  forall (key : string) (e : Env),
    let e' := snd (get key e) in
    (forall k, k <> key ->
       JsMap.get k (cache (this e')) = JsMap.get k (cache (this e)))
    /\ incl (JsMap.keys (cache (this e'))) (JsMap.keys (cache (this e)))
    /\ config (this e') = config (this e)
    /\ cleanupTimer (this e') = cleanupTimer (this e).
Proof.
  intros key e e'. subst e'.
  destruct (enabled (config (this e))) eqn:He.
  - destruct (JsMap.get key (cache (this e))) as [entry|] eqn:Hk.
    + destruct (Z_gt_le_dec (now_of e - timestamp entry) (ttlMs (config (this e))))
        as [Ha|Ha].
      * rewrite (get_expired e key entry He Hk Ha). cbn.
        refine (conj _ (conj _ (conj eq_refl eq_refl))).
        -- intros k Hne. apply JsMapFacts.get_delete_other. congruence.
        -- apply JsMapFacts.keys_delete_incl.
      * rewrite (get_hit e key entry He Hk Ha). cbn.
        refine (conj _ (conj _ (conj eq_refl eq_refl))).
        -- intros k Hne. apply JsMapFacts.get_set_other. congruence.
        -- change (incl (JsMap.keys (JsMap.set key (touch (now_of e) entry)
                                        (cache (this e))))
                        (JsMap.keys (cache (this e)))).
           rewrite JsMapFacts.keys_set_present; [apply incl_refl|].
           apply JsMapFacts.get_In in Hk.
           change key with (fst (key, entry)). now apply in_map.
    + rewrite (get_absent e key He Hk). cbn.
      refine (conj _ (conj _ (conj eq_refl eq_refl))); [reflexivity|apply incl_refl].
  - rewrite (get_disabled e key He). cbn.
    refine (conj _ (conj _ (conj eq_refl eq_refl))); [reflexivity|apply incl_refl].
Qed.

(** ** The limit on the number of entries *)

Lemma size_set_le {V : Type} (k : string) (v : V) (m : JsMap.t V) :
  JsMap.size m <= JsMap.size (JsMap.set k v m) <= JsMap.size m + 1.
Proof.
  unfold JsMap.size.
  induction m as [|[k' v'] r IH]; cbn [JsMap.set List.length]; [lia|].
  destruct (String.eqb k k'); cbn [List.length]; lia.
Qed.

Lemma size_set_present {V : Type} (k : string) (v : V) (m : JsMap.t V) :
  In k (JsMap.keys m) -> JsMap.size (JsMap.set k v m) = JsMap.size m.
Proof.
  intros H. unfold JsMap.size.
  rewrite <- (length_map fst (JsMap.set k v m)), <- (length_map fst m).
  change (map fst (JsMap.set k v m)) with (JsMap.keys (JsMap.set k v m)).
  now rewrite JsMapFacts.keys_set_present.
Qed.

Lemma In_set_inv {V : Type} (k : string) (v : V) (x : string * V) (m : JsMap.t V) :
  In x (JsMap.set k v m) -> x = (k, v) \/ In x m.
Proof.
  induction m as [|[k' v'] r IH]; cbn [JsMap.set].
  - intros [<-|[]]. now left.
  - destruct (String.eqb k k'); cbn [In]; intros [<-|H]; auto.
    destruct (IH H); auto.
Qed.

Lemma size_delete_le {V : Type} (k : string) (m : JsMap.t V) :
  JsMap.size (JsMap.delete k m) <= JsMap.size m.
Proof.
  unfold JsMap.size.
  induction m as [|[k' v'] r IH]; cbn [JsMap.delete List.length]; [lia|].
  destruct (String.eqb k k'); cbn [List.length]; lia.
Qed.

Lemma evictable_sub (rd : nat -> Z) (n n' : nat) (m m' : JsMap.t CacheEntry) :
  (n <= n')%nat -> (forall x, In x m' -> In x m) ->
  evictable rd n m -> evictable rd n' m'.
Proof.
  intros Hn Hsub H k entry Hin. destruct (H k entry (Hsub _ Hin)) as (A & B).
  split; [exact A|]. intros i Hi. apply B. lia.
Qed.

Lemma evictable_set (rd : nat -> Z) (n n' : nat) (k : string) (v : CacheEntry)
      (m : JsMap.t CacheEntry) :
  (n <= n')%nat -> k <> EmptyString ->
  (forall i, (n' <= i)%nat -> lastAccessed v < rd i) ->
  evictable rd n m -> evictable rd n' (JsMap.set k v m).
Proof.
  intros Hn Hk Hv H k' entry Hin.
  destruct (In_set_inv _ _ _ _ Hin) as [[= -> ->]|Hold]; [now split|].
  destruct (H k' entry Hold) as (A & B). split; [exact A|]. intros i Hi. apply B. lia.
Qed.

(** One optional eviction on a store whose entries can all be selected. *)
Lemma evict_step_bounded (b : bool) (e : Env) :
  evictable (readings e) (ticks e) (cache (this e)) ->
  let e' := if b then snd (evictLeastRecentlyUsed e) else e in
  evictable (readings e') (ticks e') (cache (this e'))
  /\ JsMap.size (cache (this e'))
     = JsMap.size (cache (this e))
       - (if b && negb (JsMap.size (cache (this e)) =? 0) then 1 else 0)
  /\ config (this e') = config (this e)
  /\ readings e' = readings e
  /\ (ticks e <= ticks e')%nat.
Proof.
  intros H e'.
  destruct (evict_if_evictable b e H) as (Hc & Hcfg & _ & Hsz & Hr & Hev).
  fold e' in Hc, Hcfg, Hr, Hev. cbv zeta in Hsz. rewrite <- Hc in Hsz.
  refine (conj Hev (conj _ (conj Hcfg (conj Hr _)))); [lia|].
  subst e'. destruct b; [apply evict_ticks|lia].
Qed.

Lemma set_bounded (newData : ContactsData) (key : string) (e : Env) :
  strictClock (readings e) -> key <> EmptyString ->
  bounded e -> bounded (snd (set newData key e)).
Proof.
  intros Hclock Hkey (Hev & Hsz & Hmax).
  destruct (enabled (config (this e))) eqn:He;
    [|rewrite (set_disabled newData key e He); exact (conj Hev (conj Hsz Hmax))].
  rewrite (set_enabled newData key e He). cbn [snd].
  unfold afterCountCheck, afterMemoryCheck.
  set (e0 := at_tick e (this e) (S (ticks e))).
  assert (H0 : evictable (readings e0) (ticks e0) (cache (this e0))).
  { apply (evictable_later _ (ticks e)); [cbn; lia|exact Hev]. }
  destruct (evict_step_bounded (shouldEvictForMemory newData (this e)) e0 H0)
    as (Hev1 & Hsz1 & Hcfg1 & Hr1 & Ht1).
  set (e1 := if shouldEvictForMemory newData (this e)
             then snd (evictLeastRecentlyUsed e0) else e0) in *.
  destruct (evict_step_bounded
              (JsMap.size (cache (this e1)) >=? maxEntries (config (this e1))) e1 Hev1)
    as (Hev2 & Hsz2 & Hcfg2 & Hr2 & Ht2).
  set (e2 := if JsMap.size (cache (this e1)) >=? maxEntries (config (this e1))
             then snd (evictLeastRecentlyUsed e1) else e1) in *.
  assert (Hcfg : config (this e2) = config (this e)) by (rewrite Hcfg2, Hcfg1; reflexivity).
  assert (Hr : readings e2 = readings e) by (rewrite Hr2, Hr1; reflexivity).
  assert (Ht : (S (ticks e) <= ticks e2)%nat) by (cbn in Ht1; lia).
  unfold bounded, at_tick. cbn [this readings ticks].
  rewrite cache_updateStats, config_updateStats. cbn [cache config withCache].
  rewrite Hcfg. refine (conj _ (conj _ Hmax)).
  - apply (evictable_set _ (ticks e2)); [lia|exact Hkey| |exact Hev2].
    intros i Hi. rewrite Hr. cbn. apply Hclock. lia.
  - pose proof (size_set_le key (newEntry newData (now_of e)) (cache (this e2))) as Hs.
    pose proof (JsMapFacts.size_nonneg (cache (this e1))) as Hn1.
    rewrite Hcfg1 in Hsz2. cbn [this cache config e0 at_tick] in Hsz1, Hsz2.
    destruct (Z.geb_spec (JsMap.size (cache (this e1))) (maxEntries (config (this e))));
      destruct (shouldEvictForMemory newData (this e));
      destruct (Z.eqb_spec (JsMap.size (cache (this e1))) 0);
      destruct (Z.eqb_spec (JsMap.size (cache (this e))) 0);
      cbn [andb negb] in Hsz1, Hsz2; lia.
Qed.

Lemma get_bounded (key : string) (e : Env) :
  strictClock (readings e) -> bounded e -> bounded (snd (get key e)).
Proof.
  intros Hclock (Hev & Hsz & Hmax). unfold bounded.
  destruct (enabled (config (this e))) eqn:He.
  - destruct (JsMap.get key (cache (this e))) as [entry|] eqn:Hk.
    + destruct (Z_gt_le_dec (now_of e - timestamp entry) (ttlMs (config (this e))))
        as [Ha|Ha].
      * rewrite (get_expired e key entry He Hk Ha). cbn.
        refine (conj _ (conj _ Hmax)).
        -- apply (evictable_sub _ (ticks e) _ (cache (this e))); [lia| |exact Hev].
           intros x. apply In_delete.
        -- pose proof (size_delete_le key (cache (this e))). lia.
      * rewrite (get_hit e key entry He Hk Ha). cbn.
        pose proof (JsMapFacts.get_In _ _ _ Hk) as Hin.
        refine (conj _ (conj _ Hmax)).
        -- apply (evictable_set _ (ticks e)); [lia| | |exact Hev].
           ++ exact (proj1 (Hev key entry Hin)).
           ++ intros i Hi. cbn. apply Hclock. lia.
        -- rewrite size_set_present; [exact Hsz|].
           change key with (fst (key, entry)). now apply in_map.
    + rewrite (get_absent e key He Hk). cbn. exact (conj Hev (conj Hsz Hmax)).
  - rewrite (get_disabled e key He). cbn. exact (conj Hev (conj Hsz Hmax)).
Qed.

Lemma mutateData_bounded (key : string) (f : ContactsData -> ContactsData) (e : Env) :
  bounded e -> bounded (onThis (mutateData key f) e).
Proof.
  intros (Hev & Hsz & Hmax). unfold bounded, onThis, mutateData. cbn [this readings ticks].
  destruct (JsMap.get key (cache (this e))) as [entry|] eqn:Hk;
    [|exact (conj Hev (conj Hsz Hmax))].
  pose proof (JsMapFacts.get_In _ _ _ Hk) as Hin.
  destruct (Hev key entry Hin) as (Hne & Hlast).
  cbn [cache config withCache]. refine (conj _ (conj _ Hmax)).
  - apply (evictable_set _ (ticks e)); [lia|exact Hne|exact Hlast|exact Hev].
  - rewrite size_set_present; [exact Hsz|].
    change key with (fst (key, entry)). now apply in_map.
Qed.

Lemma evictable_nil (rd : nat -> Z) (n : nat) : evictable rd n [].
Proof. intros k entry []. Qed.

Lemma expireFold_shrinks (now : Z) (l : list (string * CacheEntry)) :
  forall c,
    let c' := fold_left (expireStep now) l c in
    (forall x, In x (cache c') -> In x (cache c))
    /\ JsMap.size (cache c') <= JsMap.size (cache c)
    /\ config c' = config c.
Proof.
  induction l as [|ke r IH]; intros c; cbn [fold_left].
  - repeat split; [auto|lia].
  - destruct (IH (expireStep now c ke)) as (A & B & C).
    assert (H : (forall x, In x (cache (expireStep now c ke)) -> In x (cache c))
                /\ JsMap.size (cache (expireStep now c ke)) <= JsMap.size (cache c)
                /\ config (expireStep now c ke) = config c).
    { unfold expireStep. destruct (_ >? _); cbn; [|repeat split; [auto|lia]].
      repeat split; [intros x; apply In_delete|apply size_delete_le]. }
    destruct H as (A' & B' & C').
    refine (conj _ (conj _ _)); [auto|lia|congruence].
Qed.

Lemma enforceMemoryLimit_bounded (fuel : nat) :
  forall e e',
    evictable (readings e) (ticks e) (cache (this e)) ->
    enforceMemoryLimit fuel e = Some e' ->
    evictable (readings e') (ticks e') (cache (this e'))
    /\ JsMap.size (cache (this e')) <= JsMap.size (cache (this e))
    /\ config (this e') = config (this e)
    /\ readings e' = readings e.
Proof.
  induction fuel as [|n IH]; intros e e' Hev; cbn [enforceMemoryLimit];
    destruct (isOverMemoryLimit (this e)); try discriminate;
    try (intros [= <-]; exact (conj Hev (conj (Z.le_refl _) (conj eq_refl eq_refl)))).
  intros H.
  destruct (evict_step_bounded true e Hev) as (Hev1 & Hsz1 & Hcfg1 & Hr1 & _).
  cbv zeta in *.
  destruct (IH _ _ Hev1 H) as (A & B & C & D).
  refine (conj A (conj _ (conj _ _))); [|congruence|congruence].
  destruct (negb _) in Hsz1; cbn [andb] in Hsz1; lia.
Qed.

Lemma cleanup_bounded (fuel : nat) (e e' : Env) :
  bounded e -> cleanup fuel e = Some e' -> bounded e' /\ readings e' = readings e.
Proof.
  intros (Hev & Hsz & Hmax). unfold cleanup.
  destruct (negb _); [intros [= <-]; exact (conj (conj Hev (conj Hsz Hmax)) eq_refl)|].
  unfold Date_now. cbv iota beta.
  destruct (enforceMemoryLimit fuel _) as [e3|] eqn:E; [|discriminate].
  intros [= <-].
  destruct (expireFold_shrinks (readings e (ticks e)) (cache (this e)) (this e))
    as (A & B & C).
  cbv zeta in A, B, C. fold (expireAll (readings e (ticks e)) (this e)) in A, B, C.
  apply enforceMemoryLimit_bounded in E.
  - cbn [onThis this readings ticks] in E. destruct E as (E1 & E2 & E3 & E4).
    unfold bounded, onThis. cbn [this readings ticks].
    rewrite cache_updateStats, config_updateStats, E3, C.
    refine (conj (conj E1 (conj _ Hmax)) E4). lia.
  - cbn [onThis this readings ticks].
    apply (evictable_sub _ (ticks e) _ (cache (this e))); [lia|exact A|exact Hev].
Qed.

Lemma perform_bounded (e e' : Env) (c : Call) :
  strictClock (readings e) -> keepsLimit c -> bounded e ->
  perform e c = Some e' -> bounded e' /\ readings e' = readings e.
Proof.
  intros Hclock Hc Hb.
  destruct c as [key|d key|key|cfg|fuel| |key f]; cbn [perform keepsLimit] in *.
  - intros [= <-]. split; [now apply get_bounded|apply get_readings].
  - intros [= <-]. split; [now apply set_bounded|].
    destruct (enabled (config (this e))) eqn:He.
    + apply (set_result d key e He).
    + now rewrite (set_disabled d key e He).
  - intros [= <-]. destruct Hb as (Hev & Hsz & Hmax).
    unfold invalidate, bounded. run_method.
    destruct (truthyKey key) as [k|]; cbn; (split; [|reflexivity]).
    + refine (conj _ (conj _ Hmax)).
      * apply (evictable_sub _ (ticks e) _ (cache (this e))); [lia| |exact Hev].
        intros x. apply In_delete.
      * pose proof (size_delete_le k (cache (this e))). lia.
    + refine (conj (evictable_nil _ _) (conj _ Hmax)). lia.
  - intros [= <-]. destruct Hb as (Hev & Hsz & Hmax).
    unfold updateConfig, bounded. run_method.
    destruct (enabled (config (this e))); cbn;
      destruct (orElse (p_enabled cfg) _); cbn; rewrite ?Hc; cbn;
      (split; [|reflexivity]);
      try exact (conj Hev (conj Hsz Hmax)).
    refine (conj (evictable_nil _ _) (conj _ Hmax)). lia.
  - now apply cleanup_bounded.
  - intros [= <-]. destruct Hb as (Hev & Hsz & Hmax).
    unfold destroy, bounded. run_method. split; [|reflexivity].
    refine (conj (evictable_nil _ _) (conj _ Hmax)). lia.
  - intros [= <-]. split; [now apply mutateData_bounded|reflexivity].
Qed.

(** X8. With a clock whose readings grow strictly, a limit of at least one
    entry, no entry stored under the empty key and no call that replaces the
    limit, the store never holds more entries than [maxEntries], whatever
    sequence of calls is made. *)
Theorem entry_count_stays_within_limit :
  forall (cfg : PartialConfig) (rd : nat -> Z) (calls : list Call) (e : Env),
    strictClock rd ->
    1 <= maxEntries (mergeConfig DEFAULT_CONFIG cfg) ->
    Forall keepsLimit calls ->
    performAll (freshEnv cfg rd) calls = Some e ->
    JsMap.size (cache (this e)) <= maxEntries (config (this e)).
Proof.
  intros cfg rd calls e Hclock Hmax Hcalls Hrun.
  assert (H : forall e0, readings e0 = rd -> bounded e0 ->
                         performAll e0 calls = Some e -> bounded e).
  { clear Hrun. induction Hcalls as [|c rest Hc _ IH]; intros e0 Hr Hb; cbn [performAll].
    - now intros [= <-].
    - destruct (perform e0 c) as [e1|] eqn:E; [|discriminate].
      assert (Hclock0 : strictClock (readings e0)) by (rewrite Hr; exact Hclock).
      destruct (perform_bounded _ _ _ Hclock0 Hc Hb E) as (Hb1 & Hr1).
      apply IH; [congruence|exact Hb1]. }
  apply (H (freshEnv cfg rd) eq_refl); [|exact Hrun].
  unfold bounded, freshEnv, newContactCache. cbn [this readings ticks].
  destruct (enabled _); cbn in Hmax |- *;
    (refine (conj (evictable_nil _ _) (conj _ Hmax)); lia).
Qed.

Lemma entry_count_stays_within_limit_witness :
  JsMap.size (cache (this lruDemo)) <= maxEntries (config (this lruDemo)).
Proof.
  apply (entry_count_stays_within_limit twoEntries (steadyClock 1000 10)
           [CSet alice "k1"; CSet alice "k2"; CGet "k1"]).
  - intros i j Hij. unfold steadyClock. lia.
  - vm_compute. discriminate.
  - repeat constructor; discriminate.
  - vm_compute. reflexivity.
Defined.

(** ** The cleanup timer *)

Lemma evict_timer (e : Env) :
  cleanupTimer (this (snd (evictLeastRecentlyUsed e))) = cleanupTimer (this e).
Proof.
  destruct (evict_cases e) as [->|(ke & _ & _ & _ & ->)]; reflexivity.
Qed.

Lemma set_timer (newData : ContactsData) (key : string) (e : Env) :
  cleanupTimer (this (snd (set newData key e))) = cleanupTimer (this e)
  /\ config (this (snd (set newData key e))) = config (this e).
Proof.
  destruct (enabled (config (this e))) eqn:He;
    [|rewrite (set_disabled newData key e He); split; reflexivity].
  split; [|apply (set_result newData key e He)].
  rewrite (set_enabled newData key e He). cbn.
  unfold afterCountCheck, afterMemoryCheck.
  set (e0 := at_tick e (this e) (S (ticks e))).
  assert (H1 : cleanupTimer
                 (this (if shouldEvictForMemory newData (this e)
                        then snd (evictLeastRecentlyUsed e0) else e0))
               = cleanupTimer (this e)).
  { destruct (shouldEvictForMemory newData (this e)); [apply (evict_timer e0)|reflexivity]. }
  destruct (_ >=? _); [rewrite evict_timer|]; exact H1.
Qed.

Lemma expireFold_timer (now : Z) (l : list (string * CacheEntry)) :
  forall c, cleanupTimer (fold_left (expireStep now) l c) = cleanupTimer c.
Proof.
  induction l as [|ke r IH]; intros c; cbn [fold_left]; [reflexivity|].
  rewrite IH. unfold expireStep. destruct (_ >? _); reflexivity.
Qed.

Lemma enforceMemoryLimit_timer (fuel : nat) :
  forall e e', enforceMemoryLimit fuel e = Some e' ->
               cleanupTimer (this e') = cleanupTimer (this e).
Proof.
  induction fuel as [|n IH]; intros e e'; cbn [enforceMemoryLimit];
    destruct (isOverMemoryLimit (this e)); try discriminate;
    try (intros [= <-]; reflexivity).
  intros H. rewrite (IH _ _ H). apply evict_timer.
Qed.

Lemma cleanup_timer (fuel : nat) (e e' : Env) :
  cleanup fuel e = Some e' ->
  cleanupTimer (this e') = cleanupTimer (this e) /\ config (this e') = config (this e).
Proof.
  unfold cleanup. destruct (negb _); [intros [= <-]; split; reflexivity|].
  unfold Date_now. cbv iota beta.
  destruct (enforceMemoryLimit fuel _) as [e3|] eqn:E; [|discriminate].
  intros [= <-].
  pose proof (enforceMemoryLimit_timer _ _ _ E) as T.
  destruct (enforceMemoryLimit_facts _ _ _ E) as (C & _).
  cbn [onThis this] in T, C. cbn.
  rewrite T, C. unfold expireAll. rewrite expireFold_timer.
  split; [reflexivity|apply expireFold_facts].
Qed.

Lemma perform_timer (e e' : Env) (c : Call) :
  isDestroy c = false ->
  timerFollowsEnabled (this e) ->
  perform e c = Some e' -> timerFollowsEnabled (this e').
Proof.
  intros Hd (Hon & Hoff). unfold timerFollowsEnabled.
  destruct c as [key|d key|key|cfg|fuel| |key f]; cbn [perform]; try discriminate.
  - intros [= <-].
    destruct (get_leaves_frame key e) as (Hc & Ht). rewrite Hc, Ht. auto.
  - intros [= <-]. destruct (set_timer d key e) as (Ht & Hc). rewrite Hc, Ht. auto.
  - intros [= <-]. unfold invalidate. run_method. destruct (truthyKey key); cbn; auto.
  - intros [= <-]. unfold updateConfig. run_method.
    destruct (enabled (config (this e))) eqn:He; cbn; rewrite ?He;
      destruct (orElse (p_enabled cfg) _) eqn:Hn; cbn; rewrite ?He, ?Hn;
      split; intros H; try discriminate; eauto.
  - intros H. destruct (cleanup_timer _ _ _ H) as (Ht & Hc). rewrite Hc, Ht. auto.
  - intros [= <-]. cbn. unfold mutateData.
    destruct (JsMap.get key (cache (this e))); cbn; auto.
Qed.

(** X9. As long as [destroy] is not called, the cleanup timer is armed
    exactly when the store is enabled: armed by the constructor and by
    enabling, cleared by disabling, and left alone by every other call. *)
Theorem timer_is_armed_iff_enabled :
  forall (cfg : PartialConfig) (rd : nat -> Z) (calls : list Call) (e : Env),
    existsb isDestroy calls = false ->
    performAll (freshEnv cfg rd) calls = Some e ->
    (enabled (config (this e)) = true -> exists period, cleanupTimer (this e) = Some period)
    /\ (enabled (config (this e)) = false -> cleanupTimer (this e) = None).
Proof.
  intros cfg rd calls e Hnd Hrun.
  assert (H : forall e0, timerFollowsEnabled (this e0) ->
                         performAll e0 calls = Some e -> timerFollowsEnabled (this e)).
  { clear Hrun. induction calls as [|c rest IH]; intros e0 Ht; cbn [performAll].
    - now intros [= <-].
    - cbn [existsb] in Hnd. apply Bool.orb_false_elim in Hnd. destruct Hnd as (Hc & Hrest).
      destruct (perform e0 c) as [e1|] eqn:E; [|discriminate].
      apply (IH Hrest). exact (perform_timer _ _ _ Hc Ht E). }
  apply (H (freshEnv cfg rd)); [|exact Hrun].
  unfold timerFollowsEnabled, freshEnv, newContactCache. cbn.
  destruct (orElse (p_enabled cfg) true) eqn:He; cbn; rewrite ?He; split; intros H0;
    try discriminate; eauto.
Qed.

Lemma timer_is_armed_iff_enabled_witness :
  (enabled (config (this disabledAfterUse)) = true ->
   exists period, cleanupTimer (this disabledAfterUse) = Some period)
  /\ (enabled (config (this disabledAfterUse)) = false ->
      cleanupTimer (this disabledAfterUse) = None).
Proof.
  apply (timer_is_armed_iff_enabled noPartial (steadyClock 1000 10)
           [CSet alice "k"; CUpdateConfig disableOnly]).
  - reflexivity.
  - vm_compute. reflexivity.
Defined.

(** X10. [destroy] stops the timer and empties the map but leaves the
    store enabled: a later [set] stores its snapshot again, and no timer is
    armed to clean it up. *)
Theorem destroyed_store_still_accepts_entries :
  forall (newData : ContactsData) (key : string) (e : Env),
    enabled (config (this e)) = true ->
    let e1 := snd (destroy e) in
    let e2 := snd (set newData key e1) in
    cache (this e1) = []
    /\ cleanupTimer (this e1) = None
    /\ enabled (config (this e1)) = true
    /\ JsMap.get key (cache (this e2)) = Some (newEntry newData (now_of e))
    /\ cleanupTimer (this e2) = None.
Proof.
  intros newData key e He e1 e2.
  assert (H1 : cache (this e1) = [] /\ cleanupTimer (this e1) = None
               /\ config (this e1) = config (this e) /\ now_of e1 = now_of e).
  { subst e1. unfold destroy. run_method. repeat split. }
  destruct H1 as (A & B & C & D).
  assert (He1 : enabled (config (this e1)) = true) by (rewrite C; exact He).
  refine (conj A (conj B (conj He1 _))). subst e2.
  destruct (set_result newData key e1 He1) as (Hk & _).
  destruct (set_timer newData key e1) as (Ht & _).
  rewrite Hk, Ht, D. auto.
Qed.

Lemma destroyed_store_still_accepts_entries_witness :
  let e1 := snd (destroy lruDemo) in
  let e2 := snd (set alice "k" e1) in
  cache (this e1) = []
  /\ cleanupTimer (this e1) = None
  /\ enabled (config (this e1)) = true
  /\ JsMap.get "k" (cache (this e2)) = Some (newEntry alice (now_of lruDemo))
  /\ cleanupTimer (this e2) = None.
Proof.
  apply (destroyed_store_still_accepts_entries alice "k" lruDemo).
  vm_compute. reflexivity.
Defined.

(** X11. [updateConfig] on an enabled store that stays enabled merges the
    new fields into the configuration but does not touch the timer: a new
    [cleanupIntervalMs] is recorded while the timer keeps the period it was
    armed with; the entries are kept as well. *)
Theorem updateConfig_does_not_rearm_the_timer :
  forall (newConfig : PartialConfig) (e : Env),
    enabled (config (this e)) = true ->
    p_enabled newConfig <> Some false ->
    let e' := snd (updateConfig newConfig e) in
    cleanupTimer (this e') = cleanupTimer (this e)
    /\ cleanupIntervalMs (config (this e'))
       = orElse (p_cleanupIntervalMs newConfig) (cleanupIntervalMs (config (this e)))
    /\ config (this e') = mergeConfig (config (this e)) newConfig
    /\ cache (this e') = cache (this e).
Proof.
  intros newConfig e He Hn e'. subst e'.
  unfold updateConfig. run_method. rewrite He. cbn.
  destruct (p_enabled newConfig) as [[|]|]; cbn; [| now destruct Hn |];
    repeat split; reflexivity.
Qed.

Lemma updateConfig_does_not_rearm_the_timer_witness :
  let newConfig := {| p_enabled := None; p_ttlMs := None; p_maxMemoryMB := None;
                      p_maxEntries := None; p_cleanupIntervalMs := Some 5 |} in
  let e' := snd (updateConfig newConfig lruDemo) in
  cleanupTimer (this e') = cleanupTimer (this lruDemo)
  /\ cleanupIntervalMs (config (this e'))
     = orElse (p_cleanupIntervalMs newConfig) (cleanupIntervalMs (config (this lruDemo)))
  /\ config (this e') = mergeConfig (config (this lruDemo)) newConfig
  /\ cache (this e') = cache (this lruDemo).
Proof.
  apply (updateConfig_does_not_rearm_the_timer
           {| p_enabled := None; p_ttlMs := None; p_maxMemoryMB := None;
              p_maxEntries := None; p_cleanupIntervalMs := Some 5 |} lruDemo).
  - vm_compute. reflexivity.
  - discriminate.
Defined.

(** ** The periodic cleanup *)

Lemma In_iter_withoutLru (k : nat) (m : JsMap.t CacheEntry) (x : string * CacheEntry) :
  In x (Nat.iter k withoutLru m) -> In x m.
Proof.
  induction k as [|k IH]; [auto|].
  intros H. change (In x (withoutLru (Nat.iter k withoutLru m))) in H.
  remember (Nat.iter k withoutLru m) as m' eqn:Em. apply IH.
  unfold withoutLru in H.
  destruct (lruEntry m'); [exact (In_delete _ _ _ H)|exact H].
Qed.

(** X12. On an enabled store whose entries can all be selected for
    eviction, [cleanup] ends within as many rounds of its loop as there are
    entries; afterwards every entry left is an entry of the store that is
    not older than the time to live, the memory estimate is within the
    ceiling, and the eviction counter has grown by the number of entries
    removed.  When the unexpired entries fit the ceiling, exactly those are
    left. *)
Theorem cleanup_drops_expired_and_fits_memory :
  forall e : Env,
    enabled (config (this e)) = true ->
    JsMap.wf (cache (this e)) ->
    evictable (readings e) (S (ticks e)) (cache (this e)) ->
    (0 <= maxMemoryMB (config (this e)))%Q ->
    let kept := filter (unexpired (now_of e) (ttlMs (config (this e)))) (cache (this e)) in
    exists e',
      cleanup (List.length (cache (this e))) e = Some e'
      /\ (forall x, In x (cache (this e')) ->
            In x (cache (this e))
            /\ now_of e - timestamp (snd x) <= ttlMs (config (this e)))
      /\ isOverMemoryLimit (this e') = false
      /\ (overLimit (config (this e)) kept = false -> cache (this e') = kept)
      /\ evictions (stats (this e'))
         = evictions (stats (this e))
           + (JsMap.size (cache (this e)) - JsMap.size (cache (this e'))).
Proof.
  intros e He Hwf Hev Hmem kept.
  destruct (cleanup_on_evictable_store e He Hwf Hev Hmem)
    as (e' & k & Hrun & Hcache & Hover & Hsteps & Hevict).
  fold kept in Hcache, Hsteps.
  exists e'. refine (conj Hrun (conj _ (conj Hover (conj _ Hevict)))).
  - intros x Hx. rewrite Hcache in Hx. apply In_iter_withoutLru in Hx.
    unfold kept in Hx. apply filter_In in Hx. destruct Hx as (Hin & Hun).
    split; [exact Hin|]. unfold unexpired in Hun.
    destruct (Z.gtb_spec (now_of e - timestamp (snd x)) (ttlMs (config (this e))));
      [discriminate|lia].
  - intros Hfit. destruct k as [|k]; [exact Hcache|].
    specialize (Hsteps 0%nat (Nat.lt_0_succ k)).
    change (Nat.iter 0 withoutLru kept) with kept in Hsteps. congruence.
Qed.

Lemma cleanup_drops_expired_and_fits_memory_witness :
  let kept := filter (unexpired (now_of staleEnv) (ttlMs (config (this staleEnv))))
                (cache (this staleEnv)) in
  exists e',
    cleanup (List.length (cache (this staleEnv))) staleEnv = Some e'
    /\ (forall x, In x (cache (this e')) ->
          In x (cache (this staleEnv))
          /\ now_of staleEnv - timestamp (snd x) <= ttlMs (config (this staleEnv)))
    /\ isOverMemoryLimit (this e') = false
    /\ (overLimit (config (this staleEnv)) kept = false -> cache (this e') = kept)
    /\ evictions (stats (this e'))
       = evictions (stats (this staleEnv))
         + (JsMap.size (cache (this staleEnv)) - JsMap.size (cache (this e'))).
Proof.
  assert (Hrd : readings staleEnv = steadyClock 1000 150) by (vm_compute; reflexivity).
  assert (Ht : ticks staleEnv = 1%nat) by (vm_compute; reflexivity).
  apply (cleanup_drops_expired_and_fits_memory staleEnv).
  - vm_compute. reflexivity.
  - vm_compute. repeat constructor. cbn. intuition.
  - intros k entry Hin. vm_compute in Hin. destruct Hin as [[= <- <-]|[]].
    split; [discriminate|]. intros i Hi. rewrite Hrd. rewrite Ht in Hi.
    unfold steadyClock. cbn [lastAccessed]. lia.
  - vm_compute. discriminate.
Defined.

(** * ValidationUtils.ts *)

(** ** Escaping for the log *)

Lemma string_app_assoc (a b c : string) :
  ((a ++ b) ++ c = a ++ (b ++ c))%string.
Proof.
  induction a as [|d a IH]; cbn [String.append]; [reflexivity|]. now rewrite IH.
Qed.

Lemma replaceChar_app (x : ascii) (by_ a b : string) :
  replaceChar x by_ (a ++ b) = (replaceChar x by_ a ++ replaceChar x by_ b)%string.
Proof.
  induction a as [|c a IH]; cbn [replaceChar String.append]; [reflexivity|].
  destruct (Ascii.eqb c x); cbn [String.append]; rewrite IH; [|reflexivity].
  now rewrite string_app_assoc.
Qed.

(** The three one-character replacements of [escapeForLogging]. *)
Lemma escape_passes_app (a b : string) :
  replaceChar TAB "\t" (replaceChar newline "\n" (replaceChar CR "\r" (a ++ b)))
  = (replaceChar TAB "\t" (replaceChar newline "\n" (replaceChar CR "\r" a))
     ++ replaceChar TAB "\t" (replaceChar newline "\n" (replaceChar CR "\r" b)))%string.
Proof. now rewrite !replaceChar_app. Qed.

Lemma escape_passes_char (c : ascii) :
  replaceChar TAB "\t" (replaceChar newline "\n"
                          (replaceChar CR "\r" (String c EmptyString)))
  = escapeChar c.
Proof.
  unfold escapeChar. cbn [replaceChar].
  destruct (Ascii.eqb c CR) eqn:E1; [reflexivity|]. cbn [replaceChar].
  destruct (Ascii.eqb c newline) eqn:E2; [reflexivity|]. cbn [replaceChar].
  destruct (Ascii.eqb c TAB) eqn:E3; reflexivity.
Qed.

Lemma escape_passes_cons (c : ascii) (s : string) :
  replaceChar TAB "\t" (replaceChar newline "\n" (replaceChar CR "\r" (String c s)))
  = (escapeChar c
     ++ replaceChar TAB "\t" (replaceChar newline "\n" (replaceChar CR "\r" s)))%string.
Proof.
  change (String c s) with (String c EmptyString ++ s)%string.
  now rewrite escape_passes_app, escape_passes_char.
Qed.

Lemma replaceCRLF_pair (by_ : string) (c c' : ascii) (r : string) :
  replaceCRLF by_ (String c (String c' r))
  = if Ascii.eqb c CR && Ascii.eqb c' newline
    then (by_ ++ replaceCRLF by_ r)%string
    else String c (replaceCRLF by_ (String c' r)).
Proof. reflexivity. Qed.

Lemma escapeForLogging_two_steps (s : string) :
  escapeForLogging s = flatMapChars escapeChar s
  /\ forall c, escapeForLogging (String c s) = flatMapChars escapeChar (String c s).
Proof.
  unfold escapeForLogging.
  induction s as [|c' r' (IH0 & IH1)].
  - split; [reflexivity|]. intros c. cbn [replaceCRLF flatMapChars].
    now rewrite escape_passes_cons.
  - split; [apply IH1|]. intros c.
    rewrite replaceCRLF_pair.
    destruct (Ascii.eqb c CR && Ascii.eqb c' newline) eqn:E.
    + apply andb_prop in E. destruct E as (E1 & E2).
      apply Ascii.eqb_eq in E1, E2. subst c c'.
      rewrite escape_passes_app, IH0. reflexivity.
    + rewrite escape_passes_cons, IH1. reflexivity.
Qed.

(** X13. The four replacements of [escapeForLogging] amount to escaping
    every character on its own: a carriage return becomes backslash-r, a line
    feed backslash-n, a tab backslash-t, and every other character is kept;
    the first pass, for the pair CR LF, changes nothing in the result. *)
Theorem escapeForLogging_escapes_each_character :
  forall input : string,
    escapeForLogging input = flatMapChars escapeChar input
    /\ escapeForLogging input
       = replaceChar TAB "\t" (replaceChar newline "\n" (replaceChar CR "\r" input)).
Proof.
  intros input. split; [apply escapeForLogging_two_steps|].
  rewrite (proj1 (escapeForLogging_two_steps input)).
  induction input as [|c r IH]; [reflexivity|].
  rewrite escape_passes_cons, <- IH. reflexivity.
Qed.

Lemma allChars_app (f : ascii -> bool) (a b : string) :
  allChars f (a ++ b) = allChars f a && allChars f b.
Proof.
  induction a as [|c a IH]; cbn [allChars String.append]; [reflexivity|].
  now rewrite IH, Bool.andb_assoc.
Qed.

(** X14. The result of [escapeForLogging] holds no carriage return, line
    feed or tab, so it stays on one line of the log; an input without these
    characters is returned as it is. *)
Theorem escapeForLogging_result_is_one_line :
  forall input : string,
    allChars (fun c => negb (lineBreaking c)) (escapeForLogging input) = true
    /\ (allChars (fun c => negb (lineBreaking c)) input = true ->
        escapeForLogging input = input).
Proof.
  intros input. rewrite (proj1 (escapeForLogging_two_steps input)).
  induction input as [|c r (IH1 & IH2)]; [split; reflexivity|].
  cbn [flatMapChars allChars]. rewrite allChars_app, IH1, Bool.andb_true_r.
  unfold escapeChar, lineBreaking.
  destruct (Ascii.eqb c CR) eqn:E1; [split; [reflexivity|discriminate]|].
  destruct (Ascii.eqb c newline) eqn:E2; [split; [reflexivity|discriminate]|].
  destruct (Ascii.eqb c TAB) eqn:E3; [split; [reflexivity|discriminate]|].
  cbn [allChars orb negb andb String.append]. rewrite E1, E2, E3.
  split; [reflexivity|]. cbn [orb negb andb]. intros H. f_equal. exact (IH2 H).
Qed.

Lemma escapeForLogging_result_is_one_line_witness :
  allChars (fun c => negb (lineBreaking c)) (escapeForLogging "Bob Smith") = true
  /\ (allChars (fun c => negb (lineBreaking c)) "Bob Smith" = true ->
      escapeForLogging "Bob Smith" = "Bob Smith"%string).
Proof. exact (escapeForLogging_result_is_one_line "Bob Smith"). Defined.

(** ** Validation of names and phone numbers *)

Lemma trimEnd_idem (s : string) : trimEnd (trimEnd s) = trimEnd s.
Proof.
  induction s as [|c r IH]; [reflexivity|]. cbn [trimEnd].
  destruct (trimEnd r) as [|d r'] eqn:E.
  - destruct (isSpace c) eqn:Hc; [reflexivity|]. cbn [trimEnd]. now rewrite Hc.
  - cbn [trimEnd]. cbn [trimEnd] in IH. now rewrite IH.
Qed.

Lemma trimStart_head (s : string) (c : ascii) (r : string) :
  trimStart s = String c r -> isSpace c = false.
Proof.
  induction s as [|d s IH]; cbn [trimStart]; [discriminate|].
  destruct (isSpace d) eqn:Hd; [exact IH|]. now intros [= <- <-].
Qed.

Lemma trimEnd_head (c : ascii) (r : string) :
  isSpace c = false -> exists r', trimEnd (String c r) = String c r'.
Proof.
  intros Hc. cbn [trimEnd]. destruct (trimEnd r); [rewrite Hc|]; eauto.
Qed.

Lemma trim_idem (s : string) : trim (trim s) = trim s.
Proof.
  unfold trim. destruct (trimStart s) as [|c r] eqn:E; [reflexivity|].
  pose proof (trimStart_head _ _ _ E) as Hc.
  destruct (trimEnd_head c r Hc) as (r' & Hr). rewrite Hr.
  cbn [trimStart]. rewrite Hc, <- Hr. apply trimEnd_idem.
Qed.

(** X15. A phone number that [validatePhoneNumber] accepts is returned
    trimmed: the result is not empty, has at most 30 characters, all of them
    digits, plus, minus, parentheses, dots or white space, and validating
    the result again returns it unchanged. *)
Theorem validatePhoneNumber_result_is_valid :
  forall phoneNumber sanitized : string,
    validatePhoneNumber phoneNumber = Returned sanitized ->
    sanitized = trim phoneNumber
    /\ (1 <= String.length sanitized <= 30)%nat
    /\ allChars phoneChar sanitized = true
    /\ validatePhoneNumber sanitized = Returned sanitized.
Proof.
  intros phoneNumber sanitized H.
  assert (Hs : sanitized = trim phoneNumber).
  { revert H. unfold validatePhoneNumber.
    repeat (destruct (_ : bool); try discriminate). now intros [= <-]. }
  subst sanitized. revert H. unfold validatePhoneNumber. rewrite trim_idem.
  destruct (Nat.eqb_spec (String.length (trim phoneNumber)) 0) as [|Hlen]; [discriminate|].
  destruct (allChars phoneChar (trim phoneNumber)) eqn:Hchars; [|discriminate].
  cbn [negb].
  destruct (Nat.ltb_spec 30 (String.length (trim phoneNumber))) as [|Hmax]; [discriminate|].
  intros _. repeat split; try reflexivity; try assumption; lia.
Qed.

Lemma validatePhoneNumber_result_is_valid_witness :
  "555-1234"%string = trim " 555-1234 "
  /\ (1 <= String.length "555-1234" <= 30)%nat
  /\ allChars phoneChar "555-1234" = true
  /\ validatePhoneNumber "555-1234" = Returned "555-1234"%string.
Proof.
  apply (validatePhoneNumber_result_is_valid " 555-1234 " "555-1234"). reflexivity.
Defined.

(** X16. A name that [validateContactName] accepts is returned trimmed:
    the result is not empty, has at most 200 characters, none of them a
    control character of the rejected class, and validating the result again
    returns it unchanged. *)
Theorem validateContactName_result_is_valid :
  forall name sanitized : string,
    validateContactName name = Returned sanitized ->
    sanitized = trim name
    /\ (1 <= String.length sanitized <= 200)%nat
    /\ allChars (fun c => negb (controlChar c)) sanitized = true
    /\ validateContactName sanitized = Returned sanitized.
Proof.
  intros name sanitized H.
  assert (Hs : sanitized = trim name).
  { revert H. unfold validateContactName.
    repeat (destruct (_ : bool); try discriminate). now intros [= <-]. }
  subst sanitized. revert H. unfold validateContactName. rewrite trim_idem.
  destruct (Nat.eqb_spec (String.length (trim name)) 0) as [|Hlen]; [discriminate|].
  destruct (Nat.ltb_spec 200 (String.length (trim name))) as [|Hmax]; [discriminate|].
  destruct (allChars (fun c => negb (controlChar c)) (trim name)) eqn:Hchars;
    [|discriminate].
  cbn [negb]. intros _. repeat split; try reflexivity; try assumption; lia.
Qed.

Lemma validateContactName_result_is_valid_witness :
  "Bob Smith"%string = trim "  Bob Smith "
  /\ (1 <= String.length "Bob Smith" <= 200)%nat
  /\ allChars (fun c => negb (controlChar c)) "Bob Smith" = true
  /\ validateContactName "Bob Smith" = Returned "Bob Smith"%string.
Proof.
  apply (validateContactName_result_is_valid "  Bob Smith " "Bob Smith"). reflexivity.
Defined.

(** * contacts.ts: search formats and matching *)

Lemma memString_false (x : string) (l : list string) :
  memString x l = false -> ~ In x l.
Proof.
  unfold memString. intros H Hin.
  assert (T : existsb (String.eqb x) l = true).
  { apply existsb_exists. exists x. split; [exact Hin|apply String.eqb_refl]. }
  congruence.
Qed.

Lemma dedupe_spec (l : list string) :
  forall seen,
    NoDup (dedupe seen l)
    /\ (forall x, In x (dedupe seen l) -> In x l /\ ~ In x seen)
    /\ (List.length (dedupe seen l) <= List.length l)%nat.
Proof.
  induction l as [|x r IH]; intros seen; cbn [dedupe].
  - repeat split; [constructor|contradiction|contradiction|lia].
  - destruct (memString x seen) eqn:Hm.
    + destruct (IH seen) as (A & B & C). refine (conj A (conj _ _)); [|cbn; lia].
      intros y Hy. destruct (B y Hy). split; [now right|assumption].
    + destruct (IH (x :: seen)) as (A & B & C). refine (conj _ (conj _ _)).
      * constructor; [|exact A]. intros Hx. destruct (B x Hx) as (_ & Hn).
        apply Hn. now left.
      * intros y [<-|Hy].
        -- split; [now left|now apply memString_false].
        -- destruct (B y Hy) as (Hr & Hn). split; [now right|].
           intros Hs. apply Hn. now right.
      * cbn. lia.
Qed.

Lemma filterChars_all (f : ascii -> bool) (s : string) :
  allChars f (filterChars f s) = true.
Proof.
  induction s as [|c r IH]; cbn [filterChars]; [reflexivity|].
  destruct (f c) eqn:Hc; [cbn [allChars]; now rewrite Hc|exact IH].
Qed.

Lemma allChars_dropChars (f : ascii -> bool) (n : nat) :
  forall s, allChars f s = true -> allChars f (dropChars n s) = true.
Proof.
  induction n as [|n IH]; intros s H; [exact H|].
  destruct s as [|c r]; [exact H|]. cbn [dropChars]. apply IH.
  cbn [allChars] in H. now apply andb_prop in H.
Qed.

Lemma startsWith_plus1 (s : string) :
  startsWith "+1" s = true -> startsWith "+" s = true.
Proof.
  unfold startsWith. destruct s as [|c r]; cbn [String.prefix]; [discriminate|].
  destruct (ascii_dec "+" c) as [<-|]; [|discriminate]. now destruct r.
Qed.

Lemma normalizePhoneNumber_head (phoneNumber : string) :
  exists others, normalizePhoneNumber phoneNumber = stripFormatting phoneNumber :: others.
Proof.
  unfold normalizePhoneNumber.
  destruct (startsWith "+1" _); cbn [app];
    destruct (negb _ && (_ =? 10)%nat); cbn [app];
    destruct (negb _ && (0 <? _)%nat); cbn [app dedupe memString existsb]; eauto.
Qed.

(** X17. The search formats of a phone number start with the number
    stripped of everything but digits and plus signs; there are at most three
    of them, no format occurs twice, and each consists of digits and plus
    signs only. *)
Theorem normalizePhoneNumber_formats :
  forall phoneNumber : string,
    (exists others,
        normalizePhoneNumber phoneNumber = stripFormatting phoneNumber :: others)
    /\ NoDup (normalizePhoneNumber phoneNumber)
    /\ (List.length (normalizePhoneNumber phoneNumber) <= 3)%nat
    /\ Forall (fun fmt => allChars digitOrPlus fmt = true)
              (normalizePhoneNumber phoneNumber).
Proof.
  intros phoneNumber. unfold normalizePhoneNumber.
  set (cleaned := stripFormatting phoneNumber).
  assert (Hclean : allChars digitOrPlus cleaned = true) by apply filterChars_all.
  set (formats :=
         (if negb (startsWith "+" cleaned) && (0 <? String.length cleaned)%nat
          then _ else _)).
  assert (Hhead : exists rest, formats = cleaned :: rest
                               /\ (List.length rest <= 2)%nat
                               /\ Forall (fun fmt => allChars digitOrPlus fmt = true) rest).
  { subst formats.
    assert (Hd : allChars digitOrPlus (dropChars 2 cleaned) = true)
      by now apply allChars_dropChars.
    assert (H1 : allChars digitOrPlus ("+1" ++ cleaned) = true)
      by now rewrite allChars_app, Hclean.
    assert (H2 : allChars digitOrPlus ("+" ++ cleaned) = true)
      by now rewrite allChars_app, Hclean.
    destruct (startsWith "+1" cleaned) eqn:E1.
    - rewrite (startsWith_plus1 _ E1). cbn [negb andb app].
      eexists. split; [reflexivity|]. split; [cbn; lia|]. now repeat constructor.
    - destruct (negb (startsWith "+" cleaned)); cbn [andb app];
        destruct (String.length cleaned =? 10)%nat; cbn [app];
        destruct (0 <? String.length cleaned)%nat; cbn [app];
        eexists; (split; [reflexivity|]); (split; [cbn; lia|]); now repeat constructor. }
  destruct Hhead as (rest & -> & Hlen & Hall).
  destruct (dedupe_spec (cleaned :: rest) []) as (A & B & C).
  refine (conj _ (conj A (conj _ _))).
  - cbn [dedupe memString existsb]. eauto.
  - cbn [List.length] in C. lia.
  - apply Forall_forall. intros fmt Hin. destruct (B fmt Hin) as ([<-|Hr] & _).
    + exact Hclean.
    + exact (proj1 (Forall_forall _ _) Hall fmt Hr).
Qed.

(** X18. A contact matches a searched number whenever one of its numbers,
    stripped of formatting, is among the search formats, and in particular
    whenever one of its numbers differs from the searched one in formatting
    only; the cached search and the scan of the Contacts application use the
    same test. *)
Theorem formatting_does_not_affect_matching :
  forall (searched stored : string) (numbers : list string),
    In stored numbers ->
    In (stripFormatting stored) (normalizePhoneNumber searched)
    \/ stripFormatting stored = stripFormatting searched ->
    cachedContactMatches (normalizePhoneNumber searched) numbers = true
    /\ personMatches (normalizePhoneNumber searched) numbers = true.
Proof.
  intros searched stored numbers Hin Hfmt.
  assert (Hmem : In (stripFormatting stored) (normalizePhoneNumber searched)).
  { destruct Hfmt as [H|H]; [exact H|].
    destruct (normalizePhoneNumber_head searched) as (others & ->). rewrite H. now left. }
  rewrite personMatches_cachedContactMatches. split; [|idtac];
    unfold cachedContactMatches; apply existsb_exists;
    exists (stripFormatting stored); (split; [exact Hmem|]);
    apply existsb_exists; exists (stripFormatting stored);
    (split; [now apply in_map|]); unfold phoneMatches; now rewrite String.eqb_refl.
Qed.

Lemma formatting_does_not_affect_matching_witness :
  cachedContactMatches (normalizePhoneNumber "555 123 4567") ["(555) 123-4567"] = true
  /\ personMatches (normalizePhoneNumber "555 123 4567") ["(555) 123-4567"] = true.
Proof.
  apply (formatting_does_not_affect_matching "555 123 4567" "(555) 123-4567").
  - now left.
  - right. reflexivity.
Defined.

(** * contacts.ts: the exposed operations *)

Lemma getAllNumbersAppleScript_eq (w : World) :
  getAllNumbersAppleScript w = (dumpOutcome w, countScript w).
Proof.
  unfold getAllNumbersAppleScript, dumpOutcome, tryCatch, bind, modify, gets, retE,
    throwE, ret.
  cbn [fst snd directory countScript]. destruct (_ && _); reflexivity.
Qed.

Lemma getAllNumbers_eq (w : World) :
  getAllNumbers w =
  let wA := putEnv w (snd (get "allContacts" (envOf w))) in
  match fst (get "allContacts" (envOf w)) with
  | Some cached => (Returned cached, wA)
  | None =>
      let w0 := countScript wA in
      if accessGranted (directory w) then
        let wJ := countJxa w0 in
        if jxaWorks (directory w) then
          let nums := collectNumbers [] (people (directory w)) in
          if (List.length nums =? 0)%nat then
            match dumpOutcome w with
            | Returned d => (Returned d, cacheIfNonEmpty d (countScript wJ))
            | Thrown msg => (Thrown ("Error accessing contacts: " ++ msg),
                             countScript (countScript wJ))
            end
          else (Returned nums, cacheIfNonEmpty nums wJ)
        else
          match dumpOutcome w with
          | Returned d => (Returned d, cacheIfNonEmpty d (countScript wJ))
          | Thrown msg => (Thrown ("Error accessing contacts: " ++ msg), countScript wJ)
          end
      else (Thrown ("Error accessing contacts: " ++ accessDeniedMessage), w0)
  end.
Proof.
  unfold getAllNumbers, tryCatch, bindE, bind, ret, retE.
  rewrite callCache_eq. cbv zeta. cbn [fst snd].
  destruct (fst (get "allContacts" (envOf w))) as [cached|]; [reflexivity|].
  unfold checkContactsAccess, bind, modify, gets, retE, throwE, ret.
  cbn [fst snd directory countScript putEnv].
  destruct (accessGranted (directory w)) eqn:Ha; [|reflexivity]. cbn [negb].
  unfold runCollect, bind, modify, gets, retE, throwE, ret.
  cbn [fst snd directory countJxa countScript putEnv].
  unfold dumpOutcome. rewrite Ha. cbn [andb].
  destruct (jxaWorks (directory w)).
  - destruct (List.length (collectNumbers [] (people (directory w))) =? 0)%nat eqn:El.
    + rewrite getAllNumbersAppleScript_eq. unfold dumpOutcome.
      cbn [fst snd directory countJxa countScript putEnv]. rewrite Ha. cbn [andb].
      destruct (dumpWorks (directory w)) eqn:Ed.
      * unfold cacheIfNonEmpty.
        destruct (0 <? List.length _)%nat; [rewrite callCache_eq|]; reflexivity.
      * rewrite getAllNumbersAppleScript_eq. unfold dumpOutcome.
        cbn [fst snd directory countJxa countScript putEnv]. rewrite Ha, Ed. reflexivity.
    + unfold cacheIfNonEmpty.
      destruct (0 <? List.length _)%nat; [rewrite callCache_eq|]; reflexivity.
  - rewrite getAllNumbersAppleScript_eq. unfold dumpOutcome.
    cbn [fst snd directory countJxa countScript putEnv]. rewrite Ha. cbn [andb].
    destruct (dumpWorks (directory w)) eqn:Ed.
    + unfold cacheIfNonEmpty.
      destruct (0 <? List.length _)%nat; [rewrite callCache_eq|]; reflexivity.
    + reflexivity.
Qed.

Lemma envOf_counted_putEnv (w : World) (e : Env) :
  readings e = clock w ->
  envOf (countJxa (countScript (putEnv w e))) = e
  /\ envOf (countScript (countJxa (countScript (putEnv w e)))) = e.
Proof. intros H. destruct e. cbn in *. now subst. Qed.

(** X19. While the store is enabled and the snapshot cached under
    ["allContacts"] is not older than the time to live, [getAllNumbers]
    returns that snapshot without any call to the Contacts application. *)
Theorem getAllNumbers_serves_unexpired_snapshot :
  forall (w : World) (entry : CacheEntry),
    cacheEnabled w ->
    snapshotOf w = Some entry ->
    clock w (clockReads w) - timestamp entry <= ttlMs (config (theCache w)) ->
    fst (getAllNumbers w) = Returned (data entry)
    /\ scriptRuns (snd (getAllNumbers w)) = scriptRuns w
    /\ jxaRuns (snd (getAllNumbers w)) = jxaRuns w
    /\ directory (snd (getAllNumbers w)) = directory w.
Proof.
  intros w entry He Hs Hage. rewrite getAllNumbers_eq. cbv zeta.
  rewrite (get_hit (envOf w) "allContacts" entry He Hs Hage). cbn. auto.
Qed.

Lemma getAllNumbers_serves_unexpired_snapshot_witness :
  fst (getAllNumbers bobWorld) = Returned [("Bob", ["5551234567"])]
  /\ scriptRuns (snd (getAllNumbers bobWorld)) = scriptRuns bobWorld
  /\ jxaRuns (snd (getAllNumbers bobWorld)) = jxaRuns bobWorld
  /\ directory (snd (getAllNumbers bobWorld)) = directory bobWorld.
Proof.
  assert (Hs : snapshotOf bobWorld
               = Some (newEntry [("Bob", ["5551234567"])] 1000))
    by (vm_compute; reflexivity).
  apply (getAllNumbers_serves_unexpired_snapshot bobWorld _ eq_refl Hs).
  vm_compute. discriminate.
Defined.

(** X20. With an enabled store that holds no snapshot, [getAllNumbers]
    enumerates the contacts once (one access check, one scan), returns what
    the scan collected when that is not empty, and stores it under
    ["allContacts"]; an empty result is not stored.  (Stated for a directory
    without a record named [__proto__].) *)
Theorem getAllNumbers_caches_a_nonempty_enumeration :
  forall (w : World),
    cacheEnabled w ->
    snapshotOf w = None ->
    accessGranted (directory w) = true ->
    jxaWorks (directory w) = true ->
    ordinaryNames (people (directory w)) ->
    let nums := collectNumbers [] (people (directory w)) in
    let w1 := snd (getAllNumbers w) in
    (nums <> [] ->
       fst (getAllNumbers w) = Returned nums
       /\ snapshotOf w1 = Some (newEntry nums (clock w (clockReads w)))
       /\ scriptRuns w1 = S (scriptRuns w)
       /\ jxaRuns w1 = S (jxaRuns w))
    /\ (fst (getAllNumbers w) = Returned [] -> snapshotOf w1 = None).
Proof.
  intros w He Hs Ha Hj _ nums w1. subst w1.
  rewrite getAllNumbers_eq. cbv zeta.
  rewrite (get_absent (envOf w) "allContacts" He Hs). cbn [fst snd].
  rewrite Ha, Hj. fold nums.
  set (e1 := at_tick (envOf w)
               (withStats incMisses (withStats incTotalQueries (this (envOf w))))
               (ticks (envOf w))).
  assert (R1 : readings e1 = clock w) by reflexivity.
  destruct (envOf_counted_putEnv w e1 R1) as (E1 & E2).
  assert (He1 : enabled (config (this e1)) = true) by exact He.
  assert (Hs1 : JsMap.get "allContacts" (cache (this e1)) = None) by exact Hs.
  split.
  - intros Hne. destruct nums as [|x r] eqn:En; [now destruct Hne|].
    cbn [List.length Nat.eqb]. unfold cacheIfNonEmpty. cbn [List.length Nat.ltb Nat.leb].
    rewrite E1. destruct (set_result (x :: r) "allContacts" e1 He1) as (Hk & _).
    unfold snapshotOf, theCache. cbn [fst snd putEnv globalCache orElse scriptRuns jxaRuns
                                       countJxa countScript].
    rewrite Hk. repeat split.
  - destruct (List.length nums =? 0)%nat eqn:El.
    + unfold dumpOutcome. rewrite Ha. cbn [andb].
      destruct (dumpWorks (directory w)); [|discriminate]. cbn [fst snd].
      intros [= Hd]. rewrite Hd. exact Hs1.
    + cbn [fst]. intros [= Hn]. rewrite Hn in El. discriminate.
Qed.

Lemma getAllNumbers_caches_a_nonempty_enumeration_witness :
  let w := initialWorld bobDirectory (steadyClock 1000 10) in
  let nums := collectNumbers [] (people (directory w)) in
  let w1 := snd (getAllNumbers w) in
  (nums <> [] ->
     fst (getAllNumbers w) = Returned nums
     /\ snapshotOf w1 = Some (newEntry nums (clock w (clockReads w)))
     /\ scriptRuns w1 = S (scriptRuns w)
     /\ jxaRuns w1 = S (jxaRuns w))
  /\ (fst (getAllNumbers w) = Returned [] -> snapshotOf w1 = None).
Proof.
  apply (getAllNumbers_caches_a_nonempty_enumeration
           (initialWorld bobDirectory (steadyClock 1000 10))); try reflexivity.
  intros name phones [H|[[= <- <-]|[]]]; discriminate.
Defined.

(** X21. When the scan of [getAllNumbers] collects nothing and the
    AppleScript enumeration fails, the enumeration is run a second time from
    the handler of the scan before the error is reported: three scripts and
    one scan are run in all, nothing is cached, and the caller gets the
    script's error behind the prefix of [getAllNumbers]. *)
Theorem getAllNumbers_retries_a_failing_fallback :
  forall (w : World),
    snapshotOf w = None ->
    accessGranted (directory w) = true ->
    jxaWorks (directory w) = true ->
    collectNumbers [] (people (directory w)) = [] ->
    dumpWorks (directory w) = false ->
    let w1 := snd (getAllNumbers w) in
    fst (getAllNumbers w)
    = Thrown ("Error accessing contacts: " ++ bridgeError (directory w))
    /\ scriptRuns w1 = S (S (S (scriptRuns w)))
    /\ jxaRuns w1 = S (jxaRuns w)
    /\ snapshotOf w1 = None.
Proof.
  intros w Hs Ha Hj Hn Hd w1. subst w1.
  rewrite getAllNumbers_eq. cbv zeta.
  assert (Hget : fst (get "allContacts" (envOf w)) = None
                 /\ JsMap.get "allContacts" (cache (this (snd (get "allContacts" (envOf w)))))
                    = None).
  { destruct (enabled (config (this (envOf w)))) eqn:He.
    - rewrite (get_absent (envOf w) "allContacts" He Hs). split; [reflexivity|exact Hs].
    - rewrite (get_disabled (envOf w) "allContacts" He). split; [reflexivity|exact Hs]. }
  destruct Hget as (G1 & G2). rewrite G1, Ha, Hj, Hn. cbn [List.length Nat.eqb].
  unfold dumpOutcome. rewrite Ha, Hd. cbn [andb fst snd].
  unfold snapshotOf, theCache.
  cbn [putEnv countScript countJxa globalCache orElse scriptRuns jxaRuns].
  rewrite G2. repeat split.
Qed.

Lemma getAllNumbers_retries_a_failing_fallback_witness :
  let w := initialWorld {| accessGranted := true; dumpWorks := false; jxaWorks := true;
                           bridgeError := "execution error"; people := [Unreadable] |}
                        (steadyClock 1000 10) in
  let w1 := snd (getAllNumbers w) in
  fst (getAllNumbers w)
  = Thrown ("Error accessing contacts: " ++ bridgeError (directory w))
  /\ scriptRuns w1 = S (S (S (scriptRuns w)))
  /\ jxaRuns w1 = S (jxaRuns w)
  /\ snapshotOf w1 = None.
Proof.
  apply (getAllNumbers_retries_a_failing_fallback
           (initialWorld {| accessGranted := true; dumpWorks := false; jxaWorks := true;
                            bridgeError := "execution error"; people := [Unreadable] |}
                         (steadyClock 1000 10))); reflexivity.
Defined.

(** X22. [findContactByPhone] never throws: whatever the input and the
    state of the Contacts application, the caller gets a name or [null].
    For an input that fails validation the answer is [null] and neither the
    Contacts application nor the cache is consulted. *)
Theorem findContactByPhone_never_throws :
  forall (phoneNumber : string) (w : World),
    (exists answer, fst (findContactByPhone phoneNumber w) = Returned answer)
    /\ (forall msg, validatePhoneNumber phoneNumber = Thrown msg ->
          findContactByPhone phoneNumber w = (Returned None, w)).
Proof.
  intros phoneNumber w. split.
  - assert (H : match fst (findContactByPhone phoneNumber w) with
                | Returned _ => True
                | Thrown _ => False
                end).
    { rewrite findContactByPhone_eq.
      destruct (validatePhoneNumber phoneNumber); [|exact I]. cbv zeta.
      destruct (accessGranted _); [|exact I].
      destruct (truthy _); [exact I|].
      destruct (jxaWorks _); [|exact I].
      destruct (scanPeople _ _) as [fc|]; [|exact I].
      destruct (truthy _); exact I. }
    destruct (fst (findContactByPhone phoneNumber w)); [eauto|contradiction].
  - intros msg Hv. rewrite findContactByPhone_eq, Hv. reflexivity.
Qed.

Lemma findNumberFuzzyFallback_returns (sanitizedName : string) (w : World) :
  exists phones w', findNumberFuzzyFallback sanitizedName w = (Returned phones, w').
Proof.
  assert (H : match fst (findNumberFuzzyFallback sanitizedName w) with
              | Returned _ => True
              | Thrown _ => False
              end).
  { unfold findNumberFuzzyFallback, tryCatch, bindE, bind, retE, ret.
    rewrite callCache_eq. cbn [fst snd]. cbv zeta.
    destruct (fst (get "allContacts" (envOf w))) as [cached|].
    - destruct (truthyKey _); exact I.
    - destruct (getAllNumbers _) as [[d|msg] w']; [|exact I].
      destruct (truthyKey _); exact I. }
  destruct (findNumberFuzzyFallback sanitizedName w) as [[phones|msg] w'];
    [eauto|contradiction].
Qed.

Lemma findNumber_eq (name : string) (w : World) :
  findNumber name w =
  match validateContactName name with
  | Thrown msg => (Thrown ("Error finding contact: " ++ msg), w)
  | Returned sanitizedName =>
      let w0 := countScript w in
      if accessGranted (directory w) then
        let wJ := countJxa w0 in
        let phones := searchByName sanitizedName (people (directory w)) in
        if jxaWorks (directory w) && negb (List.length phones =? 0)%nat
        then (Returned phones, wJ)
        else findNumberFuzzyFallback sanitizedName wJ
      else (Thrown ("Error finding contact: " ++ accessDeniedMessage), w0)
  end.
Proof.
  unfold findNumber, tryCatch, bindE, bind, ret, retE.
  destruct (validateContactName name) as [sanitizedName|msg]; [|reflexivity].
  unfold checkContactsAccess, bind, modify, gets, retE, throwE, ret.
  cbn [fst snd directory countScript].
  destruct (accessGranted (directory w)); [|reflexivity]. cbn [negb].
  unfold runNameSearch, bind, modify, gets, retE, throwE, ret.
  cbn [fst snd directory countJxa countScript].
  destruct (findNumberFuzzyFallback_returns sanitizedName (countJxa (countScript w)))
    as (l & w' & Hf).
  destruct (jxaWorks (directory w)); cbn [andb].
  - destruct (List.length _ =? 0)%nat; cbn [negb]; [|reflexivity].
    rewrite Hf. reflexivity.
  - rewrite Hf. reflexivity.
Qed.

(** X23. [findNumber] rejects a name that fails validation before anything
    else happens: the caller gets the validation message behind the prefix
    of [findNumber], and neither the Contacts application nor the cache is
    touched. *)
Theorem findNumber_rejects_invalid_name :
  forall (name msg : string) (w : World),
    validateContactName name = Thrown msg ->
    findNumber name w = (Thrown ("Error finding contact: " ++ msg), w).
Proof.
  intros name msg w H. rewrite findNumber_eq, H. reflexivity.
Qed.

Lemma findNumber_rejects_invalid_name_witness :
  findNumber "   " bobWorld
  = (Thrown ("Error finding contact: " ++ "Contact name cannot be empty"), bobWorld).
Proof.
  apply (findNumber_rejects_invalid_name "   " "Contact name cannot be empty" bobWorld).
  reflexivity.
Defined.

(** X24. With a valid name and access to the Contacts application,
    [findNumber] never throws, even when the scan fails: it returns a list of
    numbers, possibly empty. *)
Theorem findNumber_returns_when_access_is_granted :
  forall (name sanitizedName : string) (w : World),
    validateContactName name = Returned sanitizedName ->
    accessGranted (directory w) = true ->
    exists phones, fst (findNumber name w) = Returned phones.
Proof.
  intros name sanitizedName w Hv Ha. rewrite findNumber_eq, Hv, Ha. cbv zeta.
  destruct (findNumberFuzzyFallback_returns sanitizedName (countJxa (countScript w)))
    as (l & w' & ->).
  destruct (jxaWorks (directory w) && _); cbn [fst]; eauto.
Qed.

Lemma findNumber_returns_when_access_is_granted_witness :
  exists phones, fst (findNumber "bob" bobWorld) = Returned phones.
Proof.
  apply (findNumber_returns_when_access_is_granted "bob" "bob" bobWorld); reflexivity.
Defined.

Lemma searchByName_first (searchName : string) (pre post : list Person)
      (personName : string) (phones : list string) :
  personName <> EmptyString ->
  includes (toLowerCase searchName) (toLowerCase personName) = true ->
  phones <> [] ->
  (forall n ph, In (Readable n ph) pre ->
     n = EmptyString \/ includes (toLowerCase searchName) (toLowerCase n) = false
     \/ ph = []) ->
  searchByName searchName (pre ++ Readable personName phones :: post) = phones.
Proof.
  intros Hne Hinc Hph. induction pre as [|p pre IH]; intros Hpre; cbn [app searchByName].
  - apply String.eqb_neq in Hne. rewrite Hne, Hinc.
    destruct phones; [now destruct Hph|reflexivity].
  - destruct p as [n ph|]; [|apply IH; intros n' ph' H; apply (Hpre n' ph'); now right].
    assert (Hskip : negb (String.eqb n "")
                    && includes (toLowerCase searchName) (toLowerCase n)
                    && (0 <? List.length ph)%nat = false).
    { destruct (Hpre n ph (or_introl eq_refl)) as [->|[->| ->]].
      - reflexivity.
      - now rewrite Bool.andb_false_r.
      - now rewrite Bool.andb_false_r. }
    rewrite Hskip. apply IH. intros n' ph' H. apply (Hpre n' ph'). now right.
Qed.

(** X25. With a valid name, access granted and a working scan,
    [findNumber] returns the numbers of the first record, in the order of the
    Contacts application, whose name contains the searched name without
    regard to case and which has a number; records that cannot be read are
    skipped, and the cache is neither read nor written. *)
Theorem findNumber_returns_first_matching_record :
  forall (name sanitizedName : string) (w : World) (pre post : list Person)
         (personName : string) (phones : list string),
    validateContactName name = Returned sanitizedName ->
    accessGranted (directory w) = true ->
    jxaWorks (directory w) = true ->
    people (directory w) = (pre ++ Readable personName phones :: post)%list ->
    personName <> EmptyString ->
    includes (toLowerCase sanitizedName) (toLowerCase personName) = true ->
    phones <> [] ->
    (forall n ph, In (Readable n ph) pre ->
       n = EmptyString
       \/ includes (toLowerCase sanitizedName) (toLowerCase n) = false
       \/ ph = []) ->
    findNumber name w = (Returned phones, countJxa (countScript w)).
Proof.
  intros name sanitizedName w pre post personName phones Hv Ha Hj Hp Hne Hinc Hph Hpre.
  rewrite findNumber_eq, Hv, Ha, Hj, Hp. cbv zeta.
  rewrite (searchByName_first sanitizedName pre post personName phones Hne Hinc Hph Hpre).
  destruct phones; [now destruct Hph|reflexivity].
Qed.

Lemma findNumber_returns_first_matching_record_witness :
  findNumber "bob" bobWorld = (Returned ["5551234567"], countJxa (countScript bobWorld)).
Proof.
  apply (findNumber_returns_first_matching_record "bob" "bob" bobWorld
           [Unreadable] [] "Bob" ["5551234567"]);
    try reflexivity; try discriminate.
  intros n ph [H|[]]. discriminate.
Defined.

Lemma collectNumbers_app (ps qs : list Person) :
  forall acc, collectNumbers acc (ps ++ qs) = collectNumbers (collectNumbers acc ps) qs.
Proof.
  induction ps as [|p ps IH]; intros acc; cbn [app collectNumbers]; [reflexivity|].
  destruct p as [n ph|]; [|apply IH].
  destruct (negb _ && _); apply IH.
Qed.

Lemma collectNumbers_unchanged (name : string) (ps : list Person) :
  (forall ph, In (Readable name ph) ps -> name = EmptyString \/ ph = []) ->
  forall acc, JsObject.get name (collectNumbers acc ps) = JsObject.get name acc.
Proof.
  induction ps as [|p ps IH]; intros Hps acc; cbn [collectNumbers]; [reflexivity|].
  assert (Hrest : forall ph, In (Readable name ph) ps -> name = EmptyString \/ ph = [])
    by (intros ph H; apply (Hps ph); now right).
  destruct p as [n ph|]; [|now apply IH].
  destruct (negb (String.eqb n "") && (0 <? List.length ph)%nat) eqn:E; [|now apply IH].
  rewrite (IH Hrest). apply JsObjectFacts.lookup_set_other. intros ->.
  apply andb_prop in E. destruct E as (E1 & E2).
  destruct (Hps ph (or_introl eq_refl)) as [->| ->]; discriminate.
Qed.

Lemma collectNumbers_origin (name : string) (phones : list string) (ps : list Person) :
  forall acc,
    JsObject.get name (collectNumbers acc ps) = Some phones ->
    JsObject.get name acc = Some phones
    \/ (name <> EmptyString /\ phones <> [] /\ In (Readable name phones) ps).
Proof.
  induction ps as [|p ps IH]; intros acc; cbn [collectNumbers]; [auto|].
  destruct p as [n ph|].
  - destruct (negb (String.eqb n "") && (0 <? List.length ph)%nat) eqn:E.
    + intros H. destruct (IH _ H) as [Hacc|(A & B & C)].
      * destruct (String.eqb_spec n name) as [->|Hn].
        -- rewrite JsObjectFacts.lookup_set_same in Hacc. injection Hacc as ->.
           apply andb_prop in E. destruct E as (E1 & E2). right.
           refine (conj _ (conj _ (or_introl eq_refl))).
           ++ intros ->. discriminate.
           ++ intros ->. discriminate.
        -- rewrite (JsObjectFacts.lookup_set_other _ _ _ _ Hn) in Hacc. now left.
      * right. refine (conj A (conj B _)). now right.
    + intros H. destruct (IH _ H) as [Hacc|(A & B & C)]; [now left|].
      right. refine (conj A (conj B _)). now right.
  - intros H. destruct (IH _ H) as [Hacc|(A & B & C)]; [now left|].
    right. refine (conj A (conj B _)). now right.
Qed.

(** X26. The scan of [getAllNumbers] collects, for every name, the numbers
    of the last readable record with that name that has a name and a
    number: whatever it lists under a name comes from such a record, and
    earlier records of the same name are overwritten, not merged.  (The
    second part is stated for names other than [__proto__].) *)
Theorem collectNumbers_keeps_the_last_record :
  forall (ps : list Person),
    (forall name phones,
        JsObject.get name (collectNumbers [] ps) = Some phones ->
        name <> EmptyString /\ phones <> [] /\ In (Readable name phones) ps)
    /\ (forall pre post name phones,
          ps = (pre ++ Readable name phones :: post)%list ->
          name <> EmptyString ->
          ordinaryName name ->
          phones <> [] ->
          (forall ph, In (Readable name ph) post -> ph = []) ->
          JsObject.get name (collectNumbers [] ps) = Some phones).
Proof.
  intros ps. split.
  - intros name phones H.
    destruct (collectNumbers_origin name phones ps [] H) as [Hacc|Hok]; [discriminate|].
    exact Hok.
  - intros pre post name phones -> Hne _ Hph Hpost.
    rewrite collectNumbers_app. cbn [collectNumbers].
    apply String.eqb_neq in Hne. rewrite Hne.
    destruct phones as [|x r]; [now destruct Hph|]. cbn [negb andb List.length Nat.ltb Nat.leb].
    rewrite collectNumbers_unchanged; [apply JsObjectFacts.lookup_set_same|].
    intros ph H. right. now apply Hpost.
Qed.

Lemma collectNumbers_keeps_the_last_record_witness :
  JsObject.get "Bob" (collectNumbers [] [Readable "Bob" ["1"]; Readable "Bob" ["2"]])
  = Some ["2"].
Proof.
  apply (proj2 (collectNumbers_keeps_the_last_record
                  [Readable "Bob" ["1"]; Readable "Bob" ["2"]])
           [Readable "Bob" ["1"]] [] "Bob" ["2"]);
    try reflexivity; try discriminate.
  intros ph [].
Defined.

Lemma findContactByPhone_never_throws_witness :
  findContactByPhone "call me" bobWorld = (Returned None, bobWorld).
Proof.
  apply (proj2 (findContactByPhone_never_throws "call me" bobWorld)
           "Phone number contains invalid characters").
  reflexivity.
Defined.

(** X27. After [destroyContactCache] there is no cache instance, and the
    next use creates a new one with the default configuration and all
    statistics at zero: a configuration given earlier through
    [updateCacheConfig] or [getContactCache] does not survive. *)
Theorem destroyContactCache_resets_to_defaults :
  forall (w : World),
    let w1 := snd (destroyContactCache w) in
    globalCache w1 = None
    /\ fst (getCacheInfo w1) = (zeroStats, DEFAULT_CONFIG)
    /\ globalCache (snd (getCacheInfo w1)) = Some (newContactCache noPartial)
    /\ directory w1 = directory w.
Proof.
  intros w w1.
  assert (H : globalCache w1 = None /\ directory w1 = directory w).
  { subst w1. unfold destroyContactCache, runMethod, bind, gets, modify, ret, setGlobal.
    cbn [fst snd]. destruct (globalCache w) eqn:G; [|cbn; auto].
    destruct (destroy _) as [[] e]. cbn. auto. }
  destruct H as (Hg & Hd). refine (conj Hg (conj _ (conj _ Hd))).
  - unfold getCacheInfo, bind, ret. rewrite !callCache_eq. cbn [fst snd].
    unfold envOf, theCache, putEnv, getStats, getConfig, gets. cbn [fst snd globalCache].
    rewrite Hg. reflexivity.
  - unfold getCacheInfo, bind, ret. rewrite !callCache_eq. cbn [fst snd].
    unfold envOf, theCache, putEnv, getStats, getConfig, gets. cbn [fst snd globalCache].
    rewrite Hg. reflexivity.
Qed.

(** X28. [invalidateCache] removes the cached snapshot, so the next
    [getAllNumbers] has to go to the Contacts application: it runs at least
    the access check. *)
Theorem invalidateCache_forces_a_new_enumeration :
  forall (w : World),
    let w1 := snd (invalidateCache w) in
    snapshotOf w1 = None
    /\ cache (theCache w1) = []
    /\ (scriptRuns w1 < scriptRuns (snd (getAllNumbers w1)))%nat
    /\ directory w1 = directory w.
Proof.
  intros w w1.
  assert (H : cache (theCache w1) = [] /\ directory w1 = directory w
              /\ scriptRuns w1 = scriptRuns w).
  { subst w1. unfold invalidateCache. rewrite callCache_eq. cbn [snd].
    unfold invalidate. run_method. auto. }
  destruct H as (Hc & Hd & Hr).
  assert (Hs : snapshotOf w1 = None) by (unfold snapshotOf; now rewrite Hc).
  refine (conj Hs (conj Hc (conj _ Hd))).
  rewrite getAllNumbers_eq. cbv zeta.
  assert (Hget : fst (get "allContacts" (envOf w1)) = None).
  { destruct (enabled (config (this (envOf w1)))) eqn:He.
    - now rewrite (get_absent (envOf w1) "allContacts" He Hs).
    - now rewrite (get_disabled (envOf w1) "allContacts" He). }
  rewrite Hget.
  assert (Hcache : forall d w', (scriptRuns w1 < scriptRuns w')%nat ->
                                (scriptRuns w1 < scriptRuns (cacheIfNonEmpty d w'))%nat).
  { intros d w' H. unfold cacheIfNonEmpty. destruct (0 <? _)%nat; [cbn|]; exact H. }
  destruct (accessGranted (directory w1)); [|cbn; lia].
  destruct (jxaWorks (directory w1)).
  - destruct (_ =? 0)%nat.
    + destruct (dumpOutcome w1); cbn [snd]; [apply Hcache|]; cbn; lia.
    + cbn [snd]. apply Hcache. cbn. lia.
  - destruct (dumpOutcome w1); cbn [snd]; [apply Hcache|]; cbn; lia.
Qed.

(** ** The entry count of the statistics *)

Lemma cleanup_currentEntries (fuel : nat) (e e' : Env) :
  currentEntries (stats (this e)) = JsMap.size (cache (this e)) ->
  cleanup fuel e = Some e' ->
  currentEntries (stats (this e')) = JsMap.size (cache (this e')).
Proof.
  intros H. unfold cleanup. destruct (negb _); [now intros [= <-]|].
  unfold Date_now. cbv iota beta.
  destruct (enforceMemoryLimit fuel _) as [e3|]; [|discriminate].
  intros [= <-]. reflexivity.
Qed.

Lemma perform_currentEntries (e e' : Env) (c : Call) :
  keepsEnabled c ->
  currentEntries (stats (this e)) = JsMap.size (cache (this e)) ->
  perform e c = Some e' ->
  currentEntries (stats (this e')) = JsMap.size (cache (this e')).
Proof.
  intros Hc H.
  destruct c as [key|d key|key|cfg|fuel| |key f]; cbn [perform keepsEnabled] in *.
  - intros [= <-].
    destruct (enabled (config (this e))) eqn:He.
    + destruct (JsMap.get key (cache (this e))) as [entry|] eqn:Hk.
      * destruct (Z_gt_le_dec (now_of e - timestamp entry) (ttlMs (config (this e))))
          as [Ha|Ha].
        -- now rewrite (get_expired e key entry He Hk Ha).
        -- now rewrite (get_hit e key entry He Hk Ha).
      * rewrite (get_absent e key He Hk). exact H.
    + rewrite (get_disabled e key He). exact H.
  - intros [= <-].
    destruct (enabled (config (this e))) eqn:He.
    + now rewrite (set_enabled d key e He).
    + rewrite (set_disabled d key e He). exact H.
  - intros [= <-]. unfold invalidate. run_method. now destruct (truthyKey key).
  - intros [= <-]. unfold updateConfig. run_method.
    destruct (enabled (config (this e))) eqn:He; cbn; rewrite ?He;
      destruct (p_enabled cfg) as [[|]|]; cbn; rewrite ?He; cbn;
      try exact H; now destruct Hc.
  - now apply cleanup_currentEntries.
  - intros [= <-]. reflexivity.
  - intros [= <-]. cbn. unfold mutateData.
    destruct (JsMap.get key (cache (this e))) as [entry|] eqn:Hk; [|exact H].
    cbn. fold (JsMap.size (JsMap.set key
                 {| data := f (data entry); timestamp := timestamp entry;
                    accessCount := accessCount entry;
                    lastAccessed := lastAccessed entry |} (cache (this e)))).
    rewrite size_set_present; [exact H|].
    apply JsMapFacts.get_In in Hk. change key with (fst (key, entry)). now apply in_map.
Qed.

(** X29. As long as no call disables the store, the entry count reported
    by the statistics is the number of entries of the map after every call,
    evictions and expiries included. *)
Theorem currentEntries_tracks_the_map :
  forall (cfg : PartialConfig) (rd : nat -> Z) (calls : list Call) (e : Env),
    Forall keepsEnabled calls ->
    performAll (freshEnv cfg rd) calls = Some e ->
    currentEntries (stats (this e)) = JsMap.size (cache (this e)).
Proof.
  intros cfg rd calls e Hcalls Hrun.
  assert (H : forall e0, currentEntries (stats (this e0)) = JsMap.size (cache (this e0)) ->
                         performAll e0 calls = Some e ->
                         currentEntries (stats (this e)) = JsMap.size (cache (this e))).
  { clear Hrun. induction Hcalls as [|c rest Hc _ IH]; intros e0 H0; cbn [performAll].
    - now intros [= <-].
    - destruct (perform e0 c) as [e1|] eqn:E; [|discriminate].
      apply IH. exact (perform_currentEntries _ _ _ Hc H0 E). }
  apply (H (freshEnv cfg rd)); [|exact Hrun].
  unfold freshEnv, newContactCache. cbn.
  destruct (orElse (p_enabled cfg) true); reflexivity.
Qed.

Lemma currentEntries_tracks_the_map_witness :
  currentEntries (stats (this lruDemo)) = JsMap.size (cache (this lruDemo)).
Proof.
  apply (currentEntries_tracks_the_map twoEntries (steadyClock 1000 10)
           [CSet alice "k1"; CSet alice "k2"; CGet "k1"]).
  - repeat constructor.
  - vm_compute. reflexivity.
Defined.

(** * contacts.ts: the AppleScript enumeration *)

Lemma string_app_nil (s : string) : (s ++ "")%string = s.
Proof. induction s as [|c s IH]; cbn [String.append]; [reflexivity|now rewrite IH]. Qed.

Lemma phones_fold_lines (personName : string) (phones : list string) :
  forall acc,
    fold_left (fun contactsList phoneValue =>
                 (contactsList ++ personName ++ "|" ++ phoneValue
                  ++ String newline EmptyString)%string)
              phones acc
    = (acc ++ concatLines (map dumpLine
                             (map (fun phoneValue => (personName, phoneValue)) phones)))%string.
Proof.
  induction phones as [|ph r IH]; intros acc; cbn [fold_left map concatLines].
  - now rewrite string_app_nil.
  - rewrite IH. unfold dumpLine. cbn [fst snd].
    now rewrite !string_app_assoc.
Qed.

Lemma concatLines_app (a b : list string) :
  concatLines (a ++ b) = (concatLines a ++ concatLines b)%string.
Proof.
  induction a as [|l a IH]; cbn [app concatLines]; [reflexivity|].
  now rewrite IH, !string_app_assoc.
Qed.

Lemma scriptDump_lines (ps : list Person) :
  scriptDump ps = concatLines (map dumpLine (pairsOf ps)).
Proof.
  induction ps as [|p ps IH]; cbn [scriptDump pairsOf map]; [reflexivity|].
  destruct p as [n phones|]; [|exact IH].
  rewrite phones_fold_lines, map_app, concatLines_app, IH. reflexivity.
Qed.

Lemma concatLines_join (ls : list string) :
  ls <> [] -> concatLines ls = (joinLines ls ++ String newline EmptyString)%string.
Proof.
  induction ls as [|l r IH]; [congruence|]. intros _.
  destruct r as [|l2 r].
  - cbn [concatLines joinLines]. reflexivity.
  - change (concatLines (l :: l2 :: r))
      with (l ++ String newline EmptyString ++ concatLines (l2 :: r))%string.
    change (joinLines (l :: l2 :: r))
      with (l ++ String newline EmptyString ++ joinLines (l2 :: r))%string.
    rewrite IH by discriminate. now rewrite !string_app_assoc.
Qed.

Lemma trimEnd_app (a b : string) :
  trimEnd (a ++ b)
  = match trimEnd b with
    | EmptyString => trimEnd a
    | _ => (a ++ trimEnd b)%string
    end.
Proof.
  induction a as [|c a IH]; cbn [String.append].
  - destruct (trimEnd b); reflexivity.
  - cbn [trimEnd]. rewrite IH. destruct (trimEnd b) as [|d b'] eqn:E; [reflexivity|].
    cbn [String.append].
    destruct (a ++ String d b')%string eqn:E2; [|reflexivity].
    destruct a; discriminate.
Qed.

Lemma trim_fixed_trimEnd (s : string) : trim s = s -> trimEnd s = s.
Proof. intros H. rewrite <- H at 1. unfold trim. rewrite trimEnd_idem. exact H. Qed.

Lemma trim_fixed_head (s : string) (c : ascii) (r : string) :
  trim s = s -> s = String c r -> isSpace c = false.
Proof.
  intros H ->. unfold trim in H.
  destruct (trimStart (String c r)) as [|c' r'] eqn:E.
  - cbn in H. discriminate.
  - pose proof (trimStart_head _ _ _ E) as Hc.
    destruct (trimEnd_head c' r' Hc) as (r'' & Hr). rewrite Hr in H.
    injection H as -> _. exact Hc.
Qed.

Lemma split_without_sep (sep : ascii) (s : string) :
  allChars (fun c => negb (Ascii.eqb c sep)) s = true -> split sep s = [s].
Proof.
  induction s as [|c r IH]; cbn [allChars split]; [reflexivity|].
  intros H. apply andb_prop in H. destruct H as (Hc & Hr).
  apply Bool.negb_true_iff in Hc. rewrite Hc, (IH Hr). reflexivity.
Qed.

Lemma split_at_sep (sep : ascii) (a b : string) :
  allChars (fun c => negb (Ascii.eqb c sep)) a = true ->
  split sep (a ++ String sep b) = a :: split sep b.
Proof.
  induction a as [|c r IH]; cbn [allChars String.append split].
  - intros _. now rewrite Ascii.eqb_refl.
  - intros H. apply andb_prop in H. destruct H as (Hc & Hr).
    apply Bool.negb_true_iff in Hc. rewrite Hc, (IH Hr). reflexivity.
Qed.

Lemma split_joinLines (ls : list string) :
  ls <> [] ->
  Forall (fun l => allChars (fun c => negb (Ascii.eqb c newline)) l = true) ls ->
  split newline (joinLines ls) = ls.
Proof.
  induction ls as [|l r IH]; [congruence|]. intros _ Hall.
  inversion Hall as [|? ? Hl Hr]; subst.
  destruct r as [|l2 r].
  - cbn [joinLines]. now apply split_without_sep.
  - change (joinLines (l :: l2 :: r))
      with (l ++ String newline (EmptyString ++ joinLines (l2 :: r)))%string.
    cbn [String.append]. rewrite (split_at_sep newline l _ Hl).
    rewrite IH; [reflexivity|discriminate|exact Hr].
Qed.

Lemma includes_at (needle a b : string) :
  includes needle (a ++ needle ++ b) = true.
Proof.
  assert (Hp : forall n t, String.prefix n (n ++ t) = true).
  { induction n as [|c n IH]; intros t; cbn [String.prefix String.append].
    - now destruct t.
    - destruct (ascii_dec c c) as [_|Hne]; [apply IH|now destruct Hne]. }
  induction a as [|c a IH]; cbn [String.append].
  - destruct (needle ++ b)%string eqn:E; cbn [includes]; rewrite <- ?E, Hp; reflexivity.
  - cbn [includes]. rewrite IH. apply Bool.orb_true_r.
Qed.

(** What a line of the dump for plain fields looks like to the parser. *)
Lemma dumpLine_facts (n p : string) :
  plainField n -> plainField p ->
  let l := dumpLine (n, p) in
  allChars (fun c => negb (Ascii.eqb c newline)) l = true
  /\ trimEnd l = l
  /\ l <> EmptyString
  /\ (exists c r, l = String c r /\ isSpace c = false)
  /\ forall acc, parseDumpLine acc l = pushPhone n p acc.
Proof.
  intros (Hn0 & Hnt & Hnc) (Hp0 & Hpt & Hpc) l. subst l. unfold dumpLine. cbn [fst snd].
  assert (Hsplit : forall s, allChars (fun c => negb (Ascii.eqb c "|")
                                             && negb (Ascii.eqb c newline)) s = true ->
                             allChars (fun c => negb (Ascii.eqb c "|")) s = true
                             /\ allChars (fun c => negb (Ascii.eqb c newline)) s = true).
  { induction s as [|c s IH]; cbn [allChars]; [auto|].
    intros H. apply andb_prop in H. destruct H as (Hc & Hs).
    apply andb_prop in Hc. destruct Hc as (Hc1 & Hc2).
    destruct (IH Hs) as (I1 & I2). now rewrite Hc1, Hc2, I1, I2. }
  destruct (Hsplit n Hnc) as (Hn1 & Hn2). destruct (Hsplit p Hpc) as (Hp1 & Hp2).
  assert (Hend : trimEnd (n ++ "|" ++ p) = (n ++ "|" ++ p)%string).
  { rewrite trimEnd_app. cbn [String.append].
    assert (Hbar : trimEnd (String "|" p) = String "|" p).
    { change (String "|" p) with ("|" ++ p)%string. rewrite trimEnd_app.
      rewrite (trim_fixed_trimEnd p Hpt). destruct p; [now destruct Hp0|reflexivity]. }
    rewrite Hbar. reflexivity. }
  destruct n as [|c n']; [now destruct Hn0|].
  pose proof (trim_fixed_head _ c n' Hnt eq_refl) as Hc.
  refine (conj _ (conj Hend (conj _ (conj _ _)))).
  - rewrite !allChars_app, Hn2, Hp2. reflexivity.
  - discriminate.
  - cbn [String.append]. eauto.
  - intros acc. unfold parseDumpLine.
    rewrite (includes_at "|" (String c n') p).
    change (String c n' ++ "|" ++ p)%string with (String c n' ++ String "|" p)%string.
    rewrite (split_at_sep "|" (String c n') p Hn1), (split_without_sep "|" p Hp1).
    cbn [map]. rewrite Hnt, Hpt.
    destruct p as [|d p']; [now destruct Hp0|]. reflexivity.
Qed.

Lemma trimEnd_joinLines (ls : list string) :
  ls <> [] ->
  Forall (fun l => trimEnd l = l /\ l <> EmptyString) ls ->
  trimEnd (joinLines ls) = joinLines ls /\ joinLines ls <> EmptyString.
Proof.
  induction ls as [|l r IH]; [congruence|]. intros _ Hall.
  inversion Hall as [|? ? (Hl & Hl0) Hr]; subst.
  destruct r as [|l2 r]; [cbn [joinLines]; auto|].
  destruct (IH ltac:(discriminate) Hr) as (Ht & Hne).
  change (joinLines (l :: l2 :: r))
    with (l ++ String newline (EmptyString ++ joinLines (l2 :: r)))%string.
  cbn [String.append]. split.
  - rewrite trimEnd_app.
    change (String newline (joinLines (l2 :: r)))
      with (String newline EmptyString ++ joinLines (l2 :: r))%string.
    rewrite trimEnd_app, Ht.
    destruct (joinLines (l2 :: r)) eqn:E; [now destruct Hne|reflexivity].
  - destruct l; discriminate.
Qed.

Lemma filter_all {A : Type} (f : A -> bool) (l : list A) :
  Forall (fun x => f x = true) l -> filter f l = l.
Proof.
  induction 1 as [|x r Hx _ IH]; cbn [filter]; [reflexivity|]. now rewrite Hx, IH.
Qed.

Lemma parseDump_lines (pairs : list (string * string)) :
  Forall (fun np => plainField (fst np) /\ plainField (snd np)) pairs ->
  parseDump (concatLines (map dumpLine pairs))
  = fold_left (fun acc np => pushPhone (fst np) (snd np) acc) pairs [].
Proof.
  intros Hall. destruct pairs as [|np0 rest] eqn:Ep; [reflexivity|]. rewrite <- Ep in *.
  assert (Hne : map dumpLine pairs <> []) by (rewrite Ep; discriminate).
  assert (Hlines : Forall (fun l =>
                             allChars (fun c => negb (Ascii.eqb c newline)) l = true
                             /\ trimEnd l = l /\ l <> EmptyString
                             /\ exists c r, l = String c r /\ isSpace c = false)
                          (map dumpLine pairs)).
  { apply Forall_map. eapply Forall_impl; [|exact Hall]. cbv beta.
    intros [n p] (Hn & Hp). destruct (dumpLine_facts n p Hn Hp) as (A & B & C & D & _).
    auto. }
  set (ls := map dumpLine pairs) in *.
  destruct (trimEnd_joinLines ls Hne) as (Hte & Hj0).
  { eapply Forall_impl; [|exact Hlines]. cbv beta.
    intros l (_ & B & C & _). auto. }
  assert (Hhead : exists c r, joinLines ls = String c r /\ isSpace c = false).
  { destruct ls as [|l r]; [now destruct Hne|].
    inversion Hlines as [|? ? (_ & _ & _ & (c & t & -> & Hc)) _]; subst.
    destruct r; cbn [joinLines String.append]; eauto. }
  destruct Hhead as (c & r & Hj & Hc).
  assert (Htrim : trim (concatLines ls) = joinLines ls).
  { rewrite (concatLines_join ls Hne). unfold trim. rewrite Hj. cbn [String.append trimStart].
    rewrite Hc. change (String c (r ++ String newline EmptyString))
                  with (String c r ++ String newline EmptyString)%string.
    rewrite trimEnd_app. change (trimEnd (String newline EmptyString)) with EmptyString.
    cbv iota. rewrite <- Hj. exact Hte. }
  unfold parseDump. rewrite Htrim.
  destruct (String.eqb_spec (joinLines ls) "") as [E|_]; [now destruct Hj0|].
  rewrite split_joinLines; [|exact Hne|].
  2:{ eapply Forall_impl; [|exact Hlines]. cbv beta.
      intros l (A & _). exact A. }
  rewrite filter_all.
  2:{ eapply Forall_impl; [|exact Hlines]. cbv beta.
      intros l (_ & B & C & (c' & r' & -> & Hc')). unfold trim. cbn [trimStart].
      rewrite Hc', B. reflexivity. }
  subst ls. clear - Hall. generalize (@nil (string * list string)) as acc.
  induction Hall as [|[n p] rest' (Hn & Hp) _ IH]; intros acc; cbn [map fold_left];
    [reflexivity|].
  destruct (dumpLine_facts n p Hn Hp) as (_ & _ & _ & _ & Hparse).
  rewrite Hparse. apply IH.
Qed.

Lemma pushPhone_get (name n p : string) (o : ContactsData) :
  JsObject.get name (pushPhone n p o)
  = if String.eqb n name
    then Some (orElse (JsObject.get name o) [] ++ [p])%list
    else JsObject.get name o.
Proof.
  unfold pushPhone. destruct (JsObject.get n o) as [l|] eqn:E.
  - destruct (String.eqb_spec n name) as [<-|Hne].
    + rewrite JsObjectFacts.get_replace_same; [now rewrite E|].
      unfold JsObject.has. now rewrite E.
    + now apply JsObjectFacts.get_replace_other.
  - destruct (String.eqb_spec n name) as [<-|Hne].
    + rewrite JsObjectFacts.lookup_set_same, E. reflexivity.
    + now apply JsObjectFacts.lookup_set_other.
Qed.

Lemma fold_pushPhone_get (name : string) (pairs : list (string * string)) :
  forall acc,
    JsObject.get name (fold_left (fun acc np => pushPhone (fst np) (snd np) acc) pairs acc)
    = match map snd (filter (fun np => String.eqb (fst np) name) pairs) with
      | [] => JsObject.get name acc
      | extra => Some (orElse (JsObject.get name acc) [] ++ extra)%list
      end.
Proof.
  induction pairs as [|[n p] rest IH]; intros acc; cbn [fold_left filter map fst snd];
    [reflexivity|].
  rewrite IH, pushPhone_get.
  destruct (String.eqb n name); cbn [map snd orElse].
  - destruct (map snd (filter _ rest)); [reflexivity|].
    now rewrite <- app_assoc.
  - reflexivity.
Qed.

Lemma numbersOf_pairs (name : string) (ps : list Person) :
  map snd (filter (fun np => String.eqb (fst np) name) (pairsOf ps)) = numbersOf name ps.
Proof.
  induction ps as [|p ps IH]; cbn [pairsOf numbersOf filter map]; [reflexivity|].
  destruct p as [n phones|]; [|exact IH].
  rewrite filter_app, map_app, IH.
  destruct (String.eqb n name) eqn:E.
  - f_equal. induction phones as [|ph r IHr]; cbn [map filter fst]; [reflexivity|].
    rewrite E. cbn [map snd]. now rewrite IHr.
  - assert (Hnone : map snd (filter (fun np => String.eqb (fst np) name)
                               (map (fun phoneValue => (n, phoneValue)) phones)) = []).
    { induction phones as [|ph r IHr]; cbn [map filter fst]; [reflexivity|].
      rewrite E. exact IHr. }
    now rewrite Hnone.
Qed.

(** X30. For records whose names and numbers are plain (not empty, no
    bar or line feed inside, no white space at either end) and whose names
    are not names an empty object inherits, parsing the dump of the
    AppleScript enumeration gives, under every name, the numbers of all
    readable records with that name in order: records of the same name are
    merged, where the scan of [getAllNumbers] keeps the last one only. *)
Theorem parseDump_merges_records_by_name :
  forall (ps : list Person),
    (forall personName phones,
        In (Readable personName phones) ps ->
        plainField personName
        /\ ~ In personName inheritedNames
        /\ Forall plainField phones) ->
    forall name,
      JsObject.get name (parseDump (scriptDump ps))
      = match numbersOf name ps with
        | [] => None
        | numbers => Some numbers
        end.
Proof.
  intros ps Hps name.
  assert (Hpairs : Forall (fun np => plainField (fst np) /\ plainField (snd np))
                          (pairsOf ps)).
  { clear name. induction ps as [|p ps IH]; cbn [pairsOf]; [constructor|].
    assert (Hrest : forall n phs, In (Readable n phs) ps ->
                                  plainField n /\ ~ In n inheritedNames
                                  /\ Forall plainField phs)
      by (intros n phs H; apply Hps; now right).
    destruct p as [n phones|]; [|now apply IH].
    apply Forall_app. split; [|now apply IH].
    destruct (Hps n phones (or_introl eq_refl)) as (Hn & _ & Hph).
    apply Forall_map. eapply Forall_impl; [|exact Hph]. cbv beta. now split. }
  rewrite scriptDump_lines, (parseDump_lines _ Hpairs), fold_pushPhone_get, numbersOf_pairs.
  destruct (numbersOf name ps); reflexivity.
Qed.

Lemma parseDump_merges_records_by_name_witness :
  JsObject.get "Bob" (parseDump (scriptDump [Readable "Bob" ["1"]; Unreadable;
                                             Readable "Bob" ["2"]]))
  = Some ["1"; "2"].
Proof.
  apply (parseDump_merges_records_by_name
           [Readable "Bob" ["1"]; Unreadable; Readable "Bob" ["2"]]).
  intros personName phones [[= <- <-]|[H|[[= <- <-]|[]]]]; try discriminate;
    (split; [repeat split; discriminate|]);
    (split; [cbn; intuition discriminate|]);
    repeat constructor; discriminate.
Defined.

(** * contacts.ts: the names in the cached snapshots *)

Lemma namesNonEmpty_set (name : string) (phones : list string) (d : ContactsData) :
  name <> EmptyString -> namesNonEmpty d ->
  namesNonEmpty (JsObject.set name phones d).
Proof.
  intros Hn Hd n numbers Hin.
  destruct (JsObjectFacts.In_set _ _ _ _ Hin) as [[= -> _]|Hold]; [exact Hn|].
  exact (Hd _ _ Hold).
Qed.

Lemma collectNumbers_named (ps : list Person) :
  forall acc, namesNonEmpty acc -> namesNonEmpty (collectNumbers acc ps).
Proof.
  induction ps as [|p ps IH]; intros acc Hacc; cbn [collectNumbers]; [exact Hacc|].
  destruct p as [n ph|]; [|now apply IH].
  destruct (negb (String.eqb n "") && (0 <? List.length ph)%nat) eqn:E; [|now apply IH].
  apply IH. apply namesNonEmpty_set; [|exact Hacc].
  apply andb_prop in E. destruct E as (E1 & _). intros ->. discriminate.
Qed.

Lemma pushPhone_named (name phone : string) (o : ContactsData) :
  name <> EmptyString -> namesNonEmpty o -> namesNonEmpty (pushPhone name phone o).
Proof.
  intros Hn Ho. unfold pushPhone. destruct (JsObject.get name o) as [l|].
  - intros n numbers Hin.
    destruct (JsObjectFacts.In_replace _ _ _ _ Hin) as [[= -> _]|Hold]; [exact Hn|].
    exact (Ho _ _ Hold).
  - now apply namesNonEmpty_set.
Qed.

Lemma parseDump_named (result : string) : namesNonEmpty (parseDump result).
Proof.
  unfold parseDump. destruct (String.eqb (trim result) ""); [intros n numbers []|].
  generalize (filter (fun line => negb (String.eqb (trim line) ""))
                     (split newline (trim result))) as lines.
  assert (H : forall lines acc, namesNonEmpty acc ->
                                namesNonEmpty (fold_left parseDumpLine lines acc)).
  { induction lines as [|l r IH]; intros acc Hacc; cbn [fold_left]; [exact Hacc|].
    apply IH. unfold parseDumpLine. destruct (includes "|" l); [|exact Hacc].
    destruct (map trim (split "|" l)) as [|n [|p rest]]; try exact Hacc.
    destruct (negb (String.eqb n "")) eqn:E; cbn [andb]; [|exact Hacc].
    destruct (negb (String.eqb p "")); [|exact Hacc].
    apply pushPhone_named; [|exact Hacc]. intros ->. discriminate. }
  intros lines. apply H. intros n numbers [].
Qed.

Lemma snapshotsNamed_sub (c c' : ContactCache) :
  (forall x, In x (cache c') -> In x (cache c)) ->
  snapshotsNamed c -> snapshotsNamed c'.
Proof. intros Hsub H key entry Hin. exact (H key entry (Hsub _ Hin)). Qed.

Lemma evict_sub (e : Env) :
  forall x, In x (cache (this (snd (evictLeastRecentlyUsed e)))) -> In x (cache (this e)).
Proof.
  intros x. destruct (evict_cases e) as [->|(ke & _ & _ & _ & ->)]; [auto|].
  cbn. apply In_delete.
Qed.

Lemma afterCountCheck_sub (newData : ContactsData) (e : Env) :
  forall x, In x (cache (this (afterCountCheck newData e))) -> In x (cache (this e)).
Proof.
  intros x. unfold afterCountCheck, afterMemoryCheck.
  set (e0 := at_tick e (this e) (S (ticks e))).
  assert (H1 : In x (cache (this (if shouldEvictForMemory newData (this e)
                                  then snd (evictLeastRecentlyUsed e0) else e0)))
               -> In x (cache (this e))).
  { destruct (shouldEvictForMemory newData (this e)); [apply (evict_sub e0)|auto]. }
  destruct (_ >=? _); [|exact H1].
  intros H. apply H1. exact (evict_sub _ _ H).
Qed.

Lemma enforceMemoryLimit_sub (fuel : nat) :
  forall e e', enforceMemoryLimit fuel e = Some e' ->
               forall x, In x (cache (this e')) -> In x (cache (this e)).
Proof.
  induction fuel as [|n IH]; intros e e'; cbn [enforceMemoryLimit];
    destruct (isOverMemoryLimit (this e)); try discriminate;
    try (intros [= <-]; auto).
  intros H x Hx. apply evict_sub. exact (IH _ _ H x Hx).
Qed.

Lemma cleanup_sub (fuel : nat) (e e' : Env) :
  cleanup fuel e = Some e' ->
  forall x, In x (cache (this e')) -> In x (cache (this e)).
Proof.
  unfold cleanup. destruct (negb _); [intros [= <-]; auto|].
  unfold Date_now. cbv iota beta.
  destruct (enforceMemoryLimit fuel _) as [e3|] eqn:E; [|discriminate].
  intros [= <-] x Hx. cbn [onThis this] in Hx. rewrite cache_updateStats in Hx.
  apply (enforceMemoryLimit_sub _ _ _ E) in Hx. cbn [onThis this] in Hx.
  exact (proj1 (expireFold_shrinks (readings e (ticks e)) (cache (this e)) (this e)) x Hx).
Qed.

(** What [get] keeps, and what it hands out. *)
Lemma wellNamed_get (key : string) (e : Env) :
  wellNamed (this e) ->
  wellNamed (this (snd (get key e)))
  /\ (forall d, fst (get key e) = Some d -> namesNonEmpty d).
Proof.
  intros (HI & Hn). split; [split; [now apply Inv_get|]|].
  - destruct (enabled (config (this e))) eqn:He.
    + destruct (JsMap.get key (cache (this e))) as [entry|] eqn:Hk.
      * destruct (Z_gt_le_dec (now_of e - timestamp entry) (ttlMs (config (this e))))
          as [Ha|Ha].
        -- rewrite (get_expired e key entry He Hk Ha). cbn [snd at_tick this].
           apply (snapshotsNamed_sub (this e)); [|exact Hn].
           intros x. rewrite cache_updateStats. cbn. apply In_delete.
        -- rewrite (get_hit e key entry He Hk Ha). cbn [snd at_tick this].
           intros k v Hin. rewrite cache_updateStats in Hin. cbn in Hin.
           destruct (In_set_inv _ _ _ _ Hin) as [[= -> ->]|Hold].
           ++ cbn [touch data]. exact (Hn key entry (JsMapFacts.get_In _ _ _ Hk)).
           ++ exact (Hn _ _ Hold).
      * rewrite (get_absent e key He Hk). exact Hn.
    + rewrite (get_disabled e key He). exact Hn.
  - intros d. destruct (enabled (config (this e))) eqn:He.
    + destruct (JsMap.get key (cache (this e))) as [entry|] eqn:Hk.
      * destruct (Z_gt_le_dec (now_of e - timestamp entry) (ttlMs (config (this e))))
          as [Ha|Ha].
        -- rewrite (get_expired e key entry He Hk Ha). discriminate.
        -- rewrite (get_hit e key entry He Hk Ha). intros [= <-].
           exact (Hn key entry (JsMapFacts.get_In _ _ _ Hk)).
      * rewrite (get_absent e key He Hk). discriminate.
    + rewrite (get_disabled e key He). discriminate.
Qed.

Lemma wellNamed_set (newData : ContactsData) (key : string) (e : Env) :
  namesNonEmpty newData -> wellNamed (this e) ->
  wellNamed (this (snd (set newData key e))).
Proof.
  intros Hd (HI & Hn). split; [now apply Inv_set|].
  destruct (enabled (config (this e))) eqn:He;
    [|rewrite (set_disabled newData key e He); exact Hn].
  rewrite (set_enabled newData key e He). cbn [snd at_tick this].
  intros k v Hin. rewrite cache_updateStats in Hin. cbn [withCache cache] in Hin.
  destruct (In_set_inv _ _ _ _ Hin) as [[= -> ->]|Hold]; [exact Hd|].
  exact (Hn _ _ (afterCountCheck_sub _ _ _ Hold)).
Qed.

Lemma wellNamed_mutateData (key name : string) (phones : list string) (c : ContactCache) :
  name <> EmptyString -> wellNamed c ->
  wellNamed (mutateData key (JsObject.set name phones) c).
Proof.
  intros Hname (HI & Hn). split; [now apply Inv_mutateData|].
  unfold mutateData. destruct (JsMap.get key (cache c)) as [entry|] eqn:Hk; [|exact Hn].
  intros k v Hin. cbn [withCache cache] in Hin.
  destruct (In_set_inv _ _ _ _ Hin) as [[= -> ->]|Hold]; [|exact (Hn _ _ Hold)].
  cbn [data]. apply namesNonEmpty_set; [exact Hname|].
  exact (Hn key entry (JsMapFacts.get_In _ _ _ Hk)).
Qed.

Lemma wellNamed_new (cfg : PartialConfig) : wellNamed (newContactCache cfg).
Proof.
  split; [apply Inv_new|]. intros k v Hin. rewrite cache_new in Hin. destruct Hin.
Qed.

Lemma wellNamed_cacheIfNonEmpty (contactsData : ContactsData) (w : World) :
  namesNonEmpty contactsData -> wellNamed (theCache w) ->
  wellNamed (theCache (cacheIfNonEmpty contactsData w)).
Proof.
  intros Hd Hw. unfold cacheIfNonEmpty. destruct (0 <? _)%nat; [|exact Hw].
  exact (wellNamed_set contactsData "allContacts" (envOf w) Hd Hw).
Qed.

Lemma dumpOutcome_named (w : World) (d : ContactsData) :
  dumpOutcome w = Returned d -> namesNonEmpty d.
Proof.
  unfold dumpOutcome. destruct (_ && _); [|discriminate].
  intros [= <-]. apply parseDump_named.
Qed.

Lemma wellNamed_getAllNumbers (w : World) :
  wellNamed (theCache w) -> wellNamed (theCache (snd (getAllNumbers w))).
Proof.
  intros Hw. rewrite getAllNumbers_eq. cbv zeta.
  destruct (wellNamed_get "allContacts" (envOf w) Hw) as (Hg & _).
  set (wA := putEnv w (snd (get "allContacts" (envOf w)))).
  assert (HA : wellNamed (theCache wA)) by exact Hg.
  assert (Hdump : forall w', wellNamed (theCache w') ->
            wellNamed (theCache (snd match dumpOutcome w with
                                     | Returned d =>
                                         (Returned d, cacheIfNonEmpty d (countScript w'))
                                     | Thrown msg =>
                                         (Thrown ("Error accessing contacts: " ++ msg),
                                          countScript w')
                                     end))).
  { intros w' Hw'. destruct (dumpOutcome w) as [d|msg] eqn:Ed; cbn [snd]; [|exact Hw'].
    apply wellNamed_cacheIfNonEmpty; [exact (dumpOutcome_named w d Ed)|exact Hw']. }
  destruct (fst (get "allContacts" (envOf w))); [exact HA|].
  destruct (accessGranted (directory w)); [|exact HA].
  destruct (jxaWorks (directory w)).
  - destruct (_ =? 0)%nat.
    + destruct (dumpOutcome w) as [d|msg] eqn:Ed; cbn [snd]; [|exact HA].
      apply wellNamed_cacheIfNonEmpty; [exact (dumpOutcome_named w d Ed)|exact HA].
    + cbn [snd]. apply wellNamed_cacheIfNonEmpty; [|exact HA].
      apply collectNumbers_named. intros n numbers [].
  - exact (Hdump (countJxa (countScript wA)) HA).
Qed.

Lemma wellNamed_findNumberFuzzyFallback (sanitizedName : string) (w : World) :
  wellNamed (theCache w) ->
  wellNamed (theCache (snd (findNumberFuzzyFallback sanitizedName w))).
Proof.
  intros Hw.
  destruct (wellNamed_get "allContacts" (envOf w) Hw) as (Hg & _).
  unfold findNumberFuzzyFallback, tryCatch, bindE, bind, retE, ret.
  rewrite callCache_eq. cbn [fst snd]. cbv zeta.
  destruct (fst (get "allContacts" (envOf w))) as [cached|].
  - destruct (truthyKey _); exact Hg.
  - pose proof (wellNamed_getAllNumbers
                  (putEnv w (snd (get "allContacts" (envOf w)))) Hg) as HG.
    destruct (getAllNumbers _) as [[d|msg] w']; cbn [snd] in HG; [|exact HG].
    destruct (truthyKey _); exact HG.
Qed.

Lemma wellNamed_findNumber (name : string) (w : World) :
  wellNamed (theCache w) -> wellNamed (theCache (snd (findNumber name w))).
Proof.
  intros Hw. rewrite findNumber_eq.
  destruct (validateContactName name) as [sanitizedName|msg]; [|exact Hw]. cbv zeta.
  destruct (accessGranted (directory w)); [|exact Hw].
  destruct (jxaWorks (directory w) && _); [exact Hw|].
  exact (wellNamed_findNumberFuzzyFallback sanitizedName (countJxa (countScript w)) Hw).
Qed.

Lemma wellNamed_cachePhoneSearchResult (contactName : string) (phoneNumbers : list string)
      (w : World) :
  contactName <> EmptyString ->
  wellNamed (theCache w) ->
  wellNamed (theCache (snd (cachePhoneSearchResult contactName phoneNumbers w))).
Proof.
  intros Hname Hw. rewrite cachePhoneSearchResult_eq. cbn [snd]. cbv zeta.
  destruct (wellNamed_get "allContacts" (envOf w) Hw) as (Hg & Hdata).
  destruct (fst (get "allContacts" (envOf w))) as [shared|].
  - apply (wellNamed_set _ "allContacts" (envOf _)).
    + apply namesNonEmpty_set; [exact Hname|]. now apply Hdata.
    + exact (wellNamed_mutateData "allContacts" contactName phoneNumbers _ Hname Hg).
  - apply (wellNamed_set _ "allContacts" (envOf _)); [|exact Hg].
    apply namesNonEmpty_set; [exact Hname|]. intros n numbers [].
Qed.

Lemma wellNamed_findContactByPhone (phoneNumber : string) (w : World) :
  wellNamed (theCache w) ->
  wellNamed (theCache (snd (findContactByPhone phoneNumber w))).
Proof.
  intros Hw. rewrite findContactByPhone_eq.
  destruct (validatePhoneNumber phoneNumber) as [sanitized|msg]; [|exact Hw]. cbv zeta.
  destruct (accessGranted (directory w)); [|exact Hw].
  destruct (wellNamed_get "allContacts" (envOf (countScript w)) Hw) as (Hg & _).
  destruct (truthy _); [exact Hg|].
  destruct (jxaWorks (directory w)); [|exact Hg].
  destruct (scanPeople _ _) as [fc|]; [|exact Hg].
  destruct (truthy (Some (found_name fc))) eqn:Hn; [|exact Hg].
  apply truthy_Some in Hn. destruct Hn as (n0 & [= <-] & Hname). cbn [snd].
  apply wellNamed_cachePhoneSearchResult; [exact Hname|exact Hg].
Qed.

Lemma wellNamed_step (w w' : World) :
  Step w w' -> wellNamed (theCache w) -> wellNamed (theCache w').
Proof.
  intros Hstep Hw. destruct Hstep as [ |name|phoneNumber| | |cfg| |fuel e' Hrun|d].
  - now apply wellNamed_getAllNumbers.
  - now apply wellNamed_findNumber.
  - now apply wellNamed_findContactByPhone.
  - unfold getCacheInfo, bind, ret. rewrite !callCache_eq. cbn [fst snd]. exact Hw.
  - unfold invalidateCache. rewrite callCache_eq. cbn [snd].
    destruct Hw as (HI & Hn). split; [now apply (Inv_invalidate None (envOf w))|].
    intros k v Hin. unfold invalidate in Hin. revert Hin. run_method. intros [].
  - unfold updateCacheConfig. rewrite callCache_eq. cbn [snd].
    destruct Hw as (HI & Hn). split; [now apply (Inv_updateConfig cfg (envOf w))|].
    apply (snapshotsNamed_sub (theCache w)); [|exact Hn].
    intros x. unfold updateConfig. run_method.
    destruct (enabled (config (theCache w))); cbn;
      destruct (orElse (p_enabled cfg) _); cbn; auto; intros [].
  - assert (Hg : globalCache (snd (destroyContactCache w)) = None).
    { unfold destroyContactCache, runMethod, bind, gets, modify, ret, setGlobal.
      cbn [fst snd]. destruct (globalCache w) eqn:G; [|cbn; auto].
      destruct (destroy _) as [[] e]. reflexivity. }
    unfold theCache at 1. rewrite Hg. apply wellNamed_new.
  - destruct Hw as (HI & Hn). split; [exact (Inv_cleanup fuel (envOf w) e' HI Hrun)|].
    apply (snapshotsNamed_sub (theCache w)); [|exact Hn].
    exact (cleanup_sub fuel (envOf w) e' Hrun).
  - exact Hw.
Qed.

(** In every state the process reaches through the operations of
    contacts.ts, keys are unique, a disabled store is empty and every contact
    of every cached snapshot has a name: the snapshot a phone lookup merges
    into has no contact with an empty name. *)
Lemma reachable_snapshots_are_named (w : World) :
  Reachable w ->
  Inv (theCache w) /\ snapshotsNamed (theCache w) /\ namesNonEmpty (liveSnapshot w).
Proof.
  intros Hr.
  assert (Hw : wellNamed (theCache w)).
  { induction Hr as [d rd|w w' _ IH Hstep]; [apply wellNamed_new|].
    exact (wellNamed_step w w' Hstep IH). }
  destruct Hw as (HI & Hn). refine (conj HI (conj Hn _)).
  unfold liveSnapshot, snapshotOf.
  destruct (JsMap.get "allContacts" (cache (theCache w))) as [entry|] eqn:Hk;
    [|intros n numbers []].
  destruct (_ || _); [intros n numbers []|].
  exact (Hn _ _ (JsMapFacts.get_In _ _ _ Hk)).
Qed.
